(** * ParrotBot: quote recognition, history scan and quote response

    A shallow embedding of [parrotbot.py] (class [ParrotBot]) together with
    the part of Python's [re] module that the bot relies on.

    Conventions.
    - A Python [str] is a [list ascii]; a character is a code point in the
      range 0..255 (Latin-1).  The classification of characters follows
      CPython for that range: [\s] is [str.isspace], [.] is everything but
      the line feed, and [re.IGNORECASE] compares the lower-cased characters.
    - The regular expressions are compiled from their pattern text by
      [re.compile], a compiler for the fragment of the [re] syntax the bot
      uses (literals, escapes, [.], [\s], the quantifiers [*], [+], [?] with
      their lazy forms on single-character atoms, and capturing groups).
      Patterns outside the fragment, and patterns [re] rejects, compile to
      [None].
    - Matching is the backtracking search of [re]: alternatives are tried in
      priority order (greedy: longest first, lazy: shortest first) and the
      first complete match wins.
    - The chat platform (discord.py) is an explicit [World] that the
      coroutines of the bot thread through a state-and-exception monad.
      [World] is a channel of a server the bot is a member of, whose history
      the platform hands out; [full.Platform] adds a history request that
      fails and a missing member object of the bot, as in a direct message. *)

From Stdlib Require Import Ascii String List Sorted Bool Arith ZArith NArith Lia.
Import ListNotations.

Local Open Scope list_scope.

(** ** Strings and characters *)

Definition str := list ascii.

Definition lit (s : string) : str := list_ascii_of_string s.

Definition chr (n : N) : ascii := ascii_of_N n.
Definition ord (c : ascii) : N := N_of_ascii c.

Definition LF : ascii := chr 10.

Definition in_range (lo hi : N) (c : ascii) : bool :=
  (N.leb lo (ord c) && N.leb (ord c) hi)%bool.

(** [str.isspace] on one character, which is what [\s] tests. *)
Definition is_space (c : ascii) : bool :=
  (in_range 9 13 c || in_range 28 32 c
   || N.eqb (ord c) 133 || N.eqb (ord c) 160)%bool.

(** [Py_UNICODE_TOLOWER], used by [re.IGNORECASE]. *)
Definition tolower (c : ascii) : ascii :=
  if (in_range 65 90 c
      || (in_range 192 222 c && negb (N.eqb (ord c) 215)))%bool
  then chr (ord c + 32) else c.

Definition is_ascii_alnum (c : ascii) : bool :=
  (in_range 48 57 c || in_range 65 90 c || in_range 97 122 c)%bool.

Definition is_digit (c : ascii) : bool := in_range 48 57 c.

Fixpoint str_eqb (a b : str) : bool :=
  match a, b with
  | [], [] => true
  | x :: a', y :: b' => (Ascii.eqb x y && str_eqb a' b')%bool
  | _, _ => false
  end.

(** [s.startswith(sub)] *)
Fixpoint startswith (s sub : str) {struct sub} : bool :=
  match sub, s with
  | [], _ => true
  | x :: sub', y :: s' => (Ascii.eqb x y && startswith s' sub')%bool
  | _ :: _, [] => false
  end.

(** [s.find(sub)]: the lowest index at which [sub] occurs in [s], or -1. *)
Fixpoint find_from (s sub : str) (i : Z) : Z :=
  if startswith s sub then i
  else match s with
       | [] => (-1)%Z
       | _ :: s' => find_from s' sub (i + 1)%Z
       end.

Definition str_find (s sub : str) : Z := find_from s sub 0%Z.

(** [s[b:e]] for [0 <= b <= e]. *)
Definition slice (s : str) (b e : nat) : str := firstn (e - b) (skipn b s).

(** ** The [re] module *)

Module re.

(** *** Compiled patterns *)

Inductive cclass :=
| CLit (c : ascii)   (* a literal character *)
| CAny               (* [.] : anything but a line feed *)
| CSpace.            (* [\s] *)

Inductive greed := Greedy | Lazy.

Inductive op :=
| Chr (k : cclass)                (* exactly one character of the class *)
| Star (g : greed) (k : cclass)   (* [k*] and [k*?] *)
| Plus (g : greed) (k : cclass)   (* [k+] and [k+?] *)
| Opt (g : greed) (k : cclass)    (* [k?] and [k??] *)
| Mark (i : nat).                 (* group boundary: group [n] opens at mark
                                     [2(n-1)] and closes at [2(n-1)+1] *)

Record Pattern := {
  code : list op;
  groups : nat;
  groupindex : list (str * nat)
}.

(** *** [re.escape] (Python 3.7 and later: only the characters that are
    special in a pattern get a backslash) *)

Definition special_chars : str := lit "()[]{}?*+-|^$\.&~# " ++ [chr 9; chr 10; chr 13; chr 11; chr 12].

Definition is_special (c : ascii) : bool := existsb (Ascii.eqb c) special_chars.

Fixpoint escape (pattern : str) : str :=
  match pattern with
  | [] => []
  | c :: rest =>
      if is_special c then chr 92 :: c :: escape rest else c :: escape rest
  end.

(** *** The pattern compiler *)

Inductive mode :=
| Normal
| Escape                 (* after a backslash *)
| GroupOpen              (* after [(] *)
| GroupQ                 (* after [(?] *)
| GroupP                 (* after [(?P] *)
| GroupName (acc : str). (* after [(?P<], reading the name (reversed) *)

Inductive prev :=
| PNone    (* nothing a quantifier could apply to *)
| PAtom    (* the last op is a bare [Chr] *)
| PRep.    (* the last op is a greedy repeat, which [?] turns lazy *)

Record pstate := {
  out : list op;              (* ops emitted so far, last first *)
  stack : list nat;           (* numbers of the groups still open *)
  ngroups : nat;
  names : list (str * nat);
  md : mode;
  pv : prev
}.

Definition pstart : pstate :=
  {| out := []; stack := []; ngroups := 0; names := []; md := Normal; pv := PNone |}.

Definition emit (st : pstate) (o : op) (p : prev) : pstate :=
  {| out := o :: out st; stack := stack st; ngroups := ngroups st;
     names := names st; md := Normal; pv := p |}.

Definition set_mode (st : pstate) (m : mode) : pstate :=
  {| out := out st; stack := stack st; ngroups := ngroups st;
     names := names st; md := m; pv := pv st |}.

Definition replace_last (st : pstate) (o : op) (p : prev) : pstate :=
  {| out := o :: tl (out st); stack := stack st; ngroups := ngroups st;
     names := names st; md := Normal; pv := p |}.

Definition open_group (st : pstate) (name : option str) : pstate :=
  let n := S (ngroups st) in
  {| out := Mark (2 * (n - 1)) :: out st; stack := n :: stack st; ngroups := n;
     names := match name with Some x => names st ++ [(x, n)] | None => names st end;
     md := Normal; pv := PNone |}.

Definition close_group (st : pstate) : option pstate :=
  match stack st with
  | [] => None
  | n :: rest =>
      Some {| out := Mark (2 * (n - 1) + 1) :: out st; stack := rest;
              ngroups := ngroups st; names := names st; md := Normal; pv := PNone |}
  end.

Definition quantify (st : pstate) (q : greed -> cclass -> op) : option pstate :=
  match pv st, out st with
  | PAtom, Chr k :: _ => Some (replace_last st (q Greedy k) PRep)
  | _, _ => None
  end.

Definition make_lazy (st : pstate) : option pstate :=
  match out st with
  | Star Greedy k :: _ => Some (replace_last st (Star Lazy k) PNone)
  | Plus Greedy k :: _ => Some (replace_last st (Plus Lazy k) PNone)
  | Opt Greedy k :: _ => Some (replace_last st (Opt Lazy k) PNone)
  | _ => None
  end.

Definition is_name_char (c : ascii) : bool :=
  (is_ascii_alnum c || Ascii.eqb c "_")%bool.

Definition valid_name (n : str) : bool :=
  match n with
  | [] => false
  | c :: _ => (negb (is_digit c) && forallb is_name_char n)%bool
  end.

Definition name_used (n : str) (l : list (str * nat)) : bool :=
  existsb (fun e => str_eqb (fst e) n) l.

Definition step_normal (st : pstate) (c : ascii) : option pstate :=
  if Ascii.eqb c "\" then Some (set_mode st Escape)
  else if Ascii.eqb c "." then Some (emit st (Chr CAny) PAtom)
  else if Ascii.eqb c "(" then Some (set_mode st GroupOpen)
  else if Ascii.eqb c ")" then close_group st
  else if Ascii.eqb c "*" then quantify st Star
  else if Ascii.eqb c "+" then quantify st Plus
  else if Ascii.eqb c "?" then
    match pv st with
    | PAtom => quantify st Opt
    | PRep => make_lazy st
    | PNone => None
    end
  else if (Ascii.eqb c "[" || Ascii.eqb c "{" || Ascii.eqb c "|"
           || Ascii.eqb c "^" || Ascii.eqb c "$")%bool then None
  else Some (emit st (Chr (CLit c)) PAtom).

Definition step (st : pstate) (c : ascii) : option pstate :=
  match md st with
  | Normal => step_normal st c
  | Escape =>
      if Ascii.eqb c "s" then Some (emit st (Chr CSpace) PAtom)
      else if is_ascii_alnum c then None
      else Some (emit st (Chr (CLit c)) PAtom)
  | GroupOpen =>
      if Ascii.eqb c "?" then Some (set_mode st GroupQ)
      else step_normal (open_group st None) c
  | GroupQ => if Ascii.eqb c "P" then Some (set_mode st GroupP) else None
  | GroupP => if Ascii.eqb c "<" then Some (set_mode st (GroupName [])) else None
  | GroupName acc =>
      if Ascii.eqb c ">" then
        let n := rev acc in
        if (valid_name n && negb (name_used n (names st)))%bool
        then Some (open_group st (Some n)) else None
      else Some (set_mode st (GroupName (c :: acc)))
  end.

Fixpoint steps (st : pstate) (p : str) : option pstate :=
  match p with
  | [] => Some st
  | c :: rest =>
      match step st c with
      | Some st' => steps st' rest
      | None => None
      end
  end.

Definition finish (st : pstate) : option Pattern :=
  match md st, stack st with
  | Normal, [] =>
      Some {| code := rev (out st); groups := ngroups st; groupindex := names st |}
  | _, _ => None
  end.

(** [re.compile(pattern)] *)
Definition compile (pattern : str) : option Pattern :=
  match steps pstart pattern with
  | Some st => finish st
  | None => None
  end.

(** *** The matcher *)

Definition marks := list (nat * nat).

Section Matcher.

(** [re.IGNORECASE] *)
Variable ignorecase : bool.

Definition cmatch (k : cclass) (c : ascii) : bool :=
  match k with
  | CLit a =>
      if ignorecase then Ascii.eqb (tolower c) (tolower a) else Ascii.eqb c a
  | CAny => negb (Ascii.eqb c LF)
  | CSpace => is_space c
  end.

Section Repeat.
Variable k : cclass.
Variable cont : str -> nat -> option marks.

(** as many as possible first, giving characters back one at a time *)
Fixpoint rep_greedy (s : str) (pos : nat) : option marks :=
  match s with
  | c :: s' =>
      if cmatch k c then
        match rep_greedy s' (S pos) with
        | Some m => Some m
        | None => cont s pos
        end
      else cont s pos
  | [] => cont s pos
  end.

(** as few as possible first, taking one more character at a time *)
Fixpoint rep_lazy (s : str) (pos : nat) : option marks :=
  match cont s pos with
  | Some m => Some m
  | None =>
      match s with
      | c :: s' => if cmatch k c then rep_lazy s' (S pos) else None
      | [] => None
      end
  end.

Definition rep (g : greed) : str -> nat -> option marks :=
  match g with Greedy => rep_greedy | Lazy => rep_lazy end.

Definition one (s : str) (pos : nat) : option marks :=
  match s with
  | c :: s' => if cmatch k c then cont s' (S pos) else None
  | [] => None
  end.

Definition opt (g : greed) (s : str) (pos : nat) : option marks :=
  match g with
  | Greedy => match one s pos with Some m => Some m | None => cont s pos end
  | Lazy => match cont s pos with Some m => Some m | None => one s pos end
  end.
End Repeat.

(** [full]: the match has to end at the end of the string ([fullmatch]);
    otherwise it may end anywhere ([match], [search]). *)
Variable full : bool.

Fixpoint run (p : list op) (m : marks) (s : str) (pos : nat) : option marks :=
  match p with
  | [] =>
      if full then match s with [] => Some m | _ :: _ => None end
      else Some m
  | Chr k :: p' => one k (run p' m) s pos
  | Star g k :: p' => rep k (run p' m) g s pos
  | Plus g k :: p' => one k (rep k (run p' m) g) s pos
  | Opt g k :: p' => opt k (run p' m) g s pos
  | Mark i :: p' => run p' ((i, pos) :: m) s pos
  end.

(** the scan of [search]: the leftmost start position that matches *)
Fixpoint scan (p : list op) (s : str) (pos : nat) : option marks :=
  match run p [] s pos with
  | Some m => Some m
  | None =>
      match s with
      | [] => None
      | _ :: s' => scan p s' (S pos)
      end
  end.

End Matcher.

(** *** Match objects *)

Record Match := {
  subject : str;
  pattern : Pattern;
  mks : marks
}.

Fixpoint mark_at (i : nat) (m : marks) : option nat :=
  match m with
  | [] => None
  | (j, p) :: m' => if Nat.eqb i j then Some p else mark_at i m'
  end.

(** [m.group(n)] for [n >= 1]; [None] when the group took no part. *)
Definition group (m : Match) (n : nat) : option str :=
  match mark_at (2 * (n - 1)) (mks m), mark_at (2 * (n - 1) + 1) (mks m) with
  | Some b, Some e => Some (slice (subject m) b e)
  | _, _ => None
  end.

(** [m.groupdict()] *)
Definition groupdict (m : Match) : list (str * option str) :=
  map (fun e => (fst e, group m (snd e))) (groupindex (pattern m)).

(** [d[key]]; [None] stands for [KeyError]. *)
Fixpoint getitem {V : Type} (d : list (str * V)) (key : str) : option V :=
  match d with
  | [] => None
  | (k, v) :: d' => if str_eqb k key then Some v else getitem d' key
  end.

(** [pattern.fullmatch(string)] *)
Definition fullmatch (ignorecase : bool) (p : Pattern) (s : str) : option Match :=
  match run ignorecase true (code p) [] s 0 with
  | Some m => Some {| subject := s; pattern := p; mks := m |}
  | None => None
  end.

(** [pattern.search(string)] *)
Definition search_compiled (ignorecase : bool) (p : Pattern) (s : str) : option Match :=
  match scan ignorecase false (code p) s 0 with
  | Some m => Some {| subject := s; pattern := p; mks := m |}
  | None => None
  end.

(** Outcome of a call that compiles its pattern first. *)
Inductive result (A : Type) :=
| Done (a : A)
| Error.   (* [re.error] *)
Arguments Done {A} a.
Arguments Error {A}.

(** [re.search(pattern, string, flags)] *)
Definition search (pat : str) (s : str) (ignorecase : bool) : result (option Match) :=
  match compile pat with
  | Some p => Done (search_compiled ignorecase p s)
  | None => Error
  end.

End re.

(** ** The chat platform (discord.py), as far as the bot uses it *)

Record User := {
  user_id : str;
  user_name : str;
  discriminator : str;
  display_name : str;
  avatar_url : str
}.

Record Message := {
  message_id : str;
  author : User;
  content : str;
  timestamp : Z;
  edited_timestamp : option Z
}.

Record Embed := {
  description : str;
  author_name : str;
  author_icon_url : str;
  footer_text : str;
  footer_icon_url : str;
  embed_timestamp : Z
}.

Inductive exn :=
| Forbidden        (* discord.Forbidden *)
| NotFound         (* discord.NotFound *)
| HTTPException    (* discord.HTTPException, any other status *)
| AttributeError
| KeyError
| TypeError
| ReError.         (* re.error *)

(** Requests the bot makes to the platform. *)
Inductive Call :=
| LogsFrom (limit : nat) (before : Message)
| SendMessage (embed : Embed)
| DeleteMessage (message : Message).

(** The channel the quoting message was posted in, and how the platform
    answers the bot there. *)
Record World := {
  history : list Message;       (* the messages of the channel, most recent first *)
  sent : list Embed;            (* embeds the bot posted, most recent first *)
  calls : list Call;            (* requests made so far, oldest first *)
  send_messages : bool;         (* permissions_for(bot_member).send_messages *)
  send_failure : option exn;    (* what send_message raises, if anything *)
  delete_failure : option exn   (* what delete_message raises, if anything *)
}.

(** *** Coroutines: state and exceptions *)

Inductive res (A : Type) :=
| Ok (a : A)
| Raise (e : exn).
Arguments Ok {A} a.
Arguments Raise {A} e.

Definition M (A : Type) := World -> res A * World.

Definition ret {A} (a : A) : M A := fun w => (Ok a, w).

Definition raise {A} (e : exn) : M A := fun w => (Raise e, w).

Definition bind {A B} (c : M A) (f : A -> M B) : M B :=
  fun w =>
    match c w with
    | (Ok a, w') => f a w'
    | (Raise e, w') => (Raise e, w')
    end.

Notation "x <- c ;; k" := (bind c (fun x => k))
  (at level 61, c at next level, right associativity).
Notation "c ;;; k" := (bind c (fun _ => k))
  (at level 61, right associativity).

(** [try: c  except e: pass] *)
Definition try_except_pass (c : M unit) (handles : exn -> bool) : M unit :=
  fun w =>
    match c w with
    | (Ok a, w') => (Ok a, w')
    | (Raise e, w') => if handles e then (Ok tt, w') else (Raise e, w')
    end.

Definition lift_re {A} (r : re.result A) : M A :=
  match r with
  | re.Done a => ret a
  | re.Error => raise ReError
  end.

Definition record (c : Call) (w : World) : World :=
  {| history := history w; sent := sent w; calls := calls w ++ [c];
     send_messages := send_messages w; send_failure := send_failure w;
     delete_failure := delete_failure w |}.

Definition message_eqb (a b : Message) : bool := str_eqb (message_id a) (message_id b).

(** [client.logs_from(channel, limit, before)]: at most [limit] messages
    older than [before], most recent first.  Here the platform answers the
    request; [full.logs_from] below is the request that may fail. *)
Definition logs_from (limit : nat) (before : Message) : M (list Message) :=
  fun w =>
    (Ok (firstn limit
           (filter (fun m => Z.ltb (timestamp m) (timestamp before)) (history w))),
     record (LogsFrom limit before) w).

(** [client.send_message(channel, embed)] *)
Definition send_message (embed : Embed) : M unit :=
  fun w =>
    let w' := record (SendMessage embed) w in
    match send_failure w with
    | Some e => (Raise e, w')
    | None =>
        (Ok tt,
         {| history := history w'; sent := embed :: sent w'; calls := calls w';
            send_messages := send_messages w'; send_failure := send_failure w';
            delete_failure := delete_failure w' |})
    end.

(** [client.delete_message(message)] *)
Definition delete_message (message : Message) : M unit :=
  fun w =>
    let w' := record (DeleteMessage message) w in
    match delete_failure w with
    | Some e => (Raise e, w')
    | None =>
        (Ok tt,
         {| history := filter (fun m => negb (message_eqb m message)) (history w');
            sent := sent w'; calls := calls w';
            send_messages := send_messages w'; send_failure := send_failure w';
            delete_failure := delete_failure w' |})
    end.

(** [quote.channel.permissions_for(bot_member).send_messages], for a quoting
    message posted in a channel of a server the bot is a member of.  In a
    direct message there is no member object of the bot, and lines 258 to 261
    raise: that is [full.permissions_for_send_messages] below. *)
Definition permissions_for_send_messages : M bool :=
  fun w => (Ok (send_messages w), w).

(** ** ParrotBot *)

(** [self.re_quote], compiled in [__init__]. *)
Definition re_quote_source : str := lit "(?P<author>.*?)\s*>\s*(?P<content>.+)".

Definition re_quote : re.Pattern :=
  Eval vm_compute in
    match re.compile re_quote_source with
    | Some p => p
    | None => {| re.code := []; re.groups := 0; re.groupindex := [] |}
    end.

(** [self.log_fetch_limit] *)
Definition log_fetch_limit : nat := 100.

(** Truth value of a [str]. *)
Definition truthy (s : str) : bool := negb (str_eqb s []).

Definition is_same_user (user_obj : User) (user_str : str) : M bool :=
  let user_str := re.escape user_str in
  let user_obj_full_name := user_name user_obj ++ lit "#" ++ discriminator user_obj in
  if Z.eqb (str_find (user_id user_obj) user_str) 0 then ret true
  else
    r <- lift_re (re.search user_str user_obj_full_name true) ;;
    match r with
    | Some _ => ret true
    | None =>
        r' <- lift_re (re.search user_str (display_name user_obj) true) ;;
        match r' with
        | Some _ => ret true
        | None => ret false
        end
    end.

(** The body of the [async for] loop of [search_message_by_quote], over the
    messages the iterator yields. *)
Fixpoint search_loop (match_ : list (str * option str)) (messages : list Message)
  : M (option Message) :=
  match messages with
  | [] => ret None
  | message :: rest =>
      match re.getitem match_ (lit "author") with
      | None => raise KeyError
      | Some a =>
          same <- match a with
                  | Some a' =>
                      if negb (truthy a') then ret true
                      else is_same_user (author message) a'
                  | None => ret true
                  end ;;
          if same then
            match re.getitem match_ (lit "content") with
            | None => raise KeyError
            | Some None => raise TypeError
            | Some (Some c) =>
                r <- lift_re (re.search (re.escape c) (content message) true) ;;
                match r with
                | Some _ => ret (Some message)
                | None => search_loop match_ rest
                end
            end
          else search_loop match_ rest
      end
  end.

Definition search_message_by_quote (quote : Message) : M (option Message) :=
  match re.fullmatch false re_quote (content quote) with
  | None => raise AttributeError
  | Some mo =>
      let match_ := re.groupdict mo in
      messages <- logs_from log_fetch_limit quote ;;
      search_loop match_ messages
  end.

Definition create_quote_embed (quoting_user : User) (quote : Message) : Embed :=
  let footertext := lit "Quoted by " ++ display_name quoting_user ++ lit "." in
  let footertext :=
    match edited_timestamp quote with
    | Some _ => footertext ++ lit " Edited."
    | None => footertext
    end in
  {| description := content quote;
     author_name := display_name (author quote);
     author_icon_url := avatar_url (author quote);
     footer_text := footertext;
     footer_icon_url := avatar_url quoting_user;
     embed_timestamp := timestamp quote |}.

Definition is_forbidden (e : exn) : bool :=
  match e with Forbidden => true | _ => false end.

Definition quote_message (quote : Message) : M unit :=
  quoted_message <- search_message_by_quote quote ;;
  bot_may_send <- permissions_for_send_messages ;;
  match quoted_message with
  | Some quoted =>
      if bot_may_send then
        let quote_embed := create_quote_embed (author quote) quoted in
        send_message quote_embed ;;;
        try_except_pass (delete_message quote) is_forbidden
      else ret tt
  | None => ret tt
  end.

Definition on_message (message : Message) : M unit :=
  match re.fullmatch false re_quote (content message) with
  | Some _ => quote_message message
  | None => ret tt
  end.

(** ** Vocabulary of the specification *)

Definition no_lf (s : str) : bool := forallb (fun c => negb (Ascii.eqb c LF)) s.

Definition all_space (s : str) : bool := forallb is_space s.

(** [self.re_quote.fullmatch(body).groupdict()], when the body matches. *)
Definition quote_groupdict (body : str) : option (list (str * option str)) :=
  option_map re.groupdict (re.fullmatch false re_quote body).

(** The dictionary [{"author": a, "content": c}]. *)
Definition quote_dict (a c : str) : list (str * option str) :=
  [(lit "author", Some a); (lit "content", Some c)].

(** The code of a pattern that is plain text. *)
Definition literal (text : str) : list re.op := map (fun c => re.Chr (re.CLit c)) text.

(** The compiler state after reading an escaped text. *)
Definition emit_text (st : re.pstate) (text : str) : re.pstate :=
  fold_left (fun st c => re.emit st (re.Chr (re.CLit c)) re.PAtom) text st.

(** [body] begins with [frag], letter case ignored. *)
Fixpoint starts_with_ci (body frag : str) {struct frag} : bool :=
  match frag, body with
  | [], _ => true
  | x :: frag', y :: body' =>
      (Ascii.eqb (tolower y) (tolower x) && starts_with_ci body' frag')%bool
  | _ :: _, [] => false
  end.

(** [frag] occurs in [body], letter case ignored. *)
Fixpoint contains_ci (body frag : str) : bool :=
  (starts_with_ci body frag
   || match body with
      | [] => false
      | _ :: body' => contains_ci body' frag
      end)%bool.

(** The same, said without an algorithm: some stretch of [body] equals
    [frag] once both are lower-cased. *)
Definition occurs_ci (frag body : str) : Prop :=
  exists pre mid post,
    body = pre ++ mid ++ post /\ map tolower mid = map tolower frag.

(** What [is_same_user] decides. *)
Definition same_user (u : User) (hint : str) : bool :=
  (startswith (user_id u) (re.escape hint)
   || contains_ci (user_name u ++ lit "#" ++ discriminator u) hint
   || contains_ci (display_name u) hint)%bool.

(** The two checks a candidate has to pass for the quote
    [{"author": a, "content": c}]. *)
Definition candidate_ok (a c : str) (m : Message) : bool :=
  ((negb (truthy a) || same_user (author m) a)
   && contains_ci (content m) c)%bool.

(** The messages older than [quote], most recent first. *)
Definition older_than (quote : Message) (w : World) : list Message :=
  filter (fun m => Z.ltb (timestamp m) (timestamp quote)) (history w).

(** The messages [logs_from] hands to the scan. *)
Definition window (quote : Message) (w : World) : list Message :=
  firstn log_fetch_limit (older_than quote w).

(** Most recent first. *)
Definition newest_first (l : list Message) : Prop :=
  StronglySorted (fun m m' => (timestamp m' <= timestamp m)%Z) l.

(** A candidate passes both checks of the scan: the author check, which is
    skipped when the quote names no author, and the content check. *)
Definition passes (a c : str) (m : Message) : Prop :=
  (a = [] \/ same_user (author m) a = true) /\ occurs_ci c (content m).

Definition starts_with_space (s : str) : bool :=
  match s with
  | x :: _ => is_space x
  | [] => false
  end.

Definition ends_with_space (s : str) : bool :=
  match rev s with
  | x :: _ => is_space x
  | [] => false
  end.

(** [s == s.strip()] *)
Definition trimmed (s : str) : bool :=
  (negb (starts_with_space s) && negb (ends_with_space s))%bool.

Definition has_non_space (s : str) : bool := existsb (fun c => negb (is_space c)) s.

Definition is_send (c : Call) : bool :=
  match c with SendMessage _ => true | _ => false end.

Definition is_delete (c : Call) : bool :=
  match c with DeleteMessage _ => true | _ => false end.

(** *** Sample data *)

Definition alice : User :=
  {| user_id := lit "80351110224678912"; user_name := lit "alice";
     discriminator := lit "0042"; display_name := lit "Alice";
     avatar_url := lit "https://cdn.example/avatars/a.png" |}.

Definition bob : User :=
  {| user_id := lit "80351110224678913"; user_name := lit "bob";
     discriminator := lit "0007"; display_name := lit "Bob";
     avatar_url := lit "https://cdn.example/avatars/b.png" |}.

Definition msg (id : string) (u : User) (body : string) (ts : Z) : Message :=
  {| message_id := lit id; author := u; content := lit body; timestamp := ts;
     edited_timestamp := None |}.

Definition world (h : list Message) (may_send : bool)
    (send_fails delete_fails : option exn) : World :=
  {| history := h; sent := []; calls := []; send_messages := may_send;
     send_failure := send_fails; delete_failure := delete_fails |}.

Definition fishing_quote : Message := msg "300" bob "Alice > going fishing" 30.
Definition fishing_recent : Message := msg "200" alice "Going fishing this weekend" 20.
Definition fishing_old : Message := msg "100" alice "going fishing tomorrow" 10.

Definition fishing_history : list Message :=
  [fishing_quote; fishing_recent; fishing_old].

(** A hundred messages of chatter, the most recent first, on top of one
    older message that the quote is about. *)
Definition chatter (n : nat) : list Message :=
  map (fun i => {| message_id := repeat "1"%char (S i); author := bob;
                   content := lit "nothing to see"; timestamp := Z.of_nat (S i);
                   edited_timestamp := None |})
      (rev (seq 0 n)).

Definition buried : Message := msg "0" alice "going fishing" 0.

Definition late_quote : Message := msg "900" bob "Alice > going fishing" 1000.

(** The channel without the message [quote]. *)
Definition without (quote : Message) (h : list Message) : list Message :=
  filter (fun m => negb (message_eqb m quote)) h.

(** A member whose identifier is not a plain number. *)
Definition dotted : User :=
  {| user_id := lit "1.5"; user_name := lit "carol";
     discriminator := lit "0001"; display_name := lit "Carol";
     avatar_url := lit "https://cdn.example/avatars/c.png" |}.

(** The part of [re_quote] after the author group has been opened and its
    lazy repeat has stopped. *)
Definition sep_tail : list re.op :=
  [re.Mark 1; re.Star re.Greedy re.CSpace; re.Chr (re.CLit ">");
   re.Star re.Greedy re.CSpace; re.Mark 2; re.Plus re.Greedy re.CAny; re.Mark 3].

(** ** The platform with its failures

    The model above takes two answers of the platform for granted: that the
    history request succeeds, and that the member object of the bot is found,
    as it is for a quoting message in a channel of a server the bot is a
    member of.  [full.Platform] adds the other answers: the history request
    may raise, and [quote.server.get_member(self.user.id)] may fail, which it
    does in a direct message, where [quote.server] is [None], and leaves
    [permissions_for] without a member otherwise; either way line 258 or 261
    raises [AttributeError].  The coroutines are the same, run on it. *)
Module full.

Record Platform := {
  world : World;
  history_failure : option exn;   (* what the history request raises, if anything *)
  bot_member_found : bool         (* quote.server is there and has the bot as member *)
}.

Definition P (A : Type) := Platform -> res A * Platform.

Definition with_world (p : Platform) (w : World) : Platform :=
  {| world := w; history_failure := history_failure p;
     bot_member_found := bot_member_found p |}.

Definition ret {A} (a : A) : P A := fun p => (Ok a, p).

Definition raise {A} (e : exn) : P A := fun p => (Raise e, p).

Definition bind {A B} (c : P A) (f : A -> P B) : P B :=
  fun p =>
    match c p with
    | (Ok a, p') => f a p'
    | (Raise e, p') => (Raise e, p')
    end.

(** a coroutine of the first model, run on the world of the platform *)
Definition lift {A} (c : M A) : P A :=
  fun p =>
    match c (world p) with
    | (r, w') => (r, with_world p w')
    end.

(** [try: c  except e: pass] *)
Definition try_except_pass (c : P unit) (handles : exn -> bool) : P unit :=
  fun p =>
    match c p with
    | (Ok a, p') => (Ok a, p')
    | (Raise e, p') => if handles e then (Ok tt, p') else (Raise e, p')
    end.

(** [client.logs_from(channel, limit, before)], which may fail *)
Definition logs_from (limit : nat) (before : Message) : P (list Message) :=
  fun p =>
    match history_failure p with
    | Some e => (Raise e, with_world p (record (LogsFrom limit before) (world p)))
    | None => lift (logs_from limit before) p   (* the request of the first model *)
    end.

(** [bot_member = quote.server.get_member(self.user.id)] followed by
    [quote.channel.permissions_for(bot_member).send_messages] *)
Definition permissions_for_send_messages : P bool :=
  fun p =>
    if bot_member_found p then lift permissions_for_send_messages p
    else (Raise AttributeError, p).

Definition search_message_by_quote (quote : Message) : P (option Message) :=
  match re.fullmatch false re_quote (content quote) with
  | None => raise AttributeError
  | Some mo =>
      let match_ := re.groupdict mo in
      bind (logs_from log_fetch_limit quote) (fun messages =>
      lift (search_loop match_ messages))
  end.

Definition quote_message (quote : Message) : P unit :=
  bind (search_message_by_quote quote) (fun quoted_message =>
  bind permissions_for_send_messages (fun bot_may_send =>
  match quoted_message with
  | Some quoted =>
      if bot_may_send then
        let quote_embed := create_quote_embed (author quote) quoted in
        bind (lift (send_message quote_embed)) (fun _ =>
        try_except_pass (lift (delete_message quote)) is_forbidden)
      else ret tt
  | None => ret tt
  end)).

Definition on_message (message : Message) : P unit :=
  match re.fullmatch false re_quote (content message) with
  | Some _ => quote_message message
  | None => ret tt
  end.

End full.

(** A platform from a world and the two further answers. *)
Definition platform (w : World) (fetch_fails : option exn) (member : bool)
  : full.Platform :=
  {| full.world := w; full.history_failure := fetch_fails;
     full.bot_member_found := member |}.

(** An ASCII character. *)
Definition is_ascii (c : ascii) : bool := N.ltb (ord c) 128.

(** ** The rest of the program: bot lists, listeners, start-up script *)

From Stdlib Require DecimalString.

(** Python values and control, as far as the rest of the program needs
    them.  The configuration is a dictionary of JSON scalars, kept in
    insertion order. *)
Module py.

Inductive value :=
| VStr (s : str)
| VBool (b : bool)
| VNum (n : Z)
| VNull.

(** the truth value of a value *)
Definition truth (v : value) : bool :=
  match v with
  | VStr s => truthy s
  | VBool b => b
  | VNum n => negb (Z.eqb n 0)
  | VNull => false
  end.

(** ["%d" % n] for a length *)
Definition decimal (n : nat) : str :=
  lit (DecimalString.NilZero.string_of_uint (Nat.to_uint n)).

(** [str(v)], which is what ["%s" % v] inserts *)
Definition to_str (v : value) : str :=
  match v with
  | VStr s => s
  | VBool true => lit "True"
  | VBool false => lit "False"
  | VNum n => lit (DecimalString.NilZero.string_of_int (Z.to_int n))
  | VNull => lit "None"
  end.

Definition dict := list (str * value).

(** [key in d] *)
Definition contains (d : dict) (key : str) : bool :=
  match re.getitem d key with
  | Some _ => true
  | None => false
  end.

(** [d[key] = v] *)
Fixpoint setitem (d : dict) (key : str) (v : value) : dict :=
  match d with
  | [] => [(key, v)]
  | (k, v') :: d' =>
      if str_eqb k key then (k, v) :: d' else (k, v') :: setitem d' key v
  end.

(** [s.lower()] *)
Definition lower (s : str) : str := map tolower s.

(** [s in (t1, t2, ...)] *)
Definition is_in (s : str) (l : list str) : bool := existsb (str_eqb s) l.

Inductive error :=
| KeyError (key : str)
| URLError                 (* urllib.error.URLError, HTTPError included *)
| EOFError
| NameError (name : str)
| ConnectionResetError
| Exception.               (* anything else *)

Inductive outcome (A : Type) :=
| Return (a : A)
| Throw (e : error).
Arguments Return {A} a.
Arguments Throw {A} e.

(** a piece of program over a state [S] *)
Definition prog (S A : Type) := S -> outcome A * S.

Definition ret {S A} (a : A) : prog S A := fun s => (Return a, s).

Definition throw {S A} (e : error) : prog S A := fun s => (Throw e, s).

Definition bind {S A B} (c : prog S A) (f : A -> prog S B) : prog S B :=
  fun s =>
    match c s with
    | (Return a, s') => f a s'
    | (Throw e, s') => (Throw e, s')
    end.

End py.

Declare Scope prog_scope.
Delimit Scope prog_scope with prog.
Notation "x <- c ;; k" := (py.bind c (fun x => k))
  (at level 61, c at next level, right associativity) : prog_scope.
Notation "c ;;; k" := (py.bind c (fun _ => k))
  (at level 61, right associativity) : prog_scope.

(** *** The bot as a client: servers, configuration, console, HTTP *)
Module host.

Record Server := {
  server_id : str;
  server_name : str
}.

(** [urllib.request.Request]: no [data] makes a GET, [data] makes a POST. *)
Record Request := {
  full_url : str;
  headers : list (str * py.value);
  data : option str
}.

Record Host := {
  servers : list Server;         (* self.servers *)
  self_user_id : str;            (* self.user.id *)
  config : py.dict;              (* self.config *)
  stdout : list str;             (* what was printed, one entry per print *)
  requests : list Request;       (* HTTP requests made, oldest first *)
  presences : list py.value;     (* names given to change_presence *)
  geturl : Request -> str;       (* where the request ends after redirects *)
  url_error : Request -> bool    (* whether urlopen raises on the request *)
}.

Definition print (s : str) : py.prog Host unit :=
  fun h =>
    (py.Return tt,
     {| servers := servers h; self_user_id := self_user_id h; config := config h;
        stdout := stdout h ++ [s]; requests := requests h;
        presences := presences h; geturl := geturl h; url_error := url_error h |}).

(** [urllib.request.urlopen(req).geturl()] *)
Definition urlopen (req : Request) : py.prog Host str :=
  fun h =>
    let h' :=
      {| servers := servers h; self_user_id := self_user_id h; config := config h;
         stdout := stdout h; requests := requests h ++ [req];
         presences := presences h; geturl := geturl h; url_error := url_error h |} in
    if url_error h req then (py.Throw py.URLError, h')
    else (py.Return (geturl h req), h').

(** [client.change_presence(game=presence)] with [presence.name = name] *)
Definition change_presence (name : py.value) : py.prog Host unit :=
  fun h =>
    (py.Return tt,
     {| servers := servers h; self_user_id := self_user_id h; config := config h;
        stdout := stdout h; requests := requests h;
        presences := presences h ++ [name]; geturl := geturl h;
        url_error := url_error h |}).

(** [self.config[key]] *)
Definition config_getitem (key : str) : py.prog Host py.value :=
  fun h =>
    match re.getitem (config h) key with
    | Some v => (py.Return v, h)
    | None => (py.Throw (py.KeyError key), h)
    end.

(** [key in self.config] *)
Definition config_contains (key : str) : py.prog Host bool :=
  fun h => (py.Return (py.contains (config h) key), h).

Definition get_servers : py.prog Host (list Server) :=
  fun h => (py.Return (servers h), h).

Definition get_user_id : py.prog Host str :=
  fun h => (py.Return (self_user_id h), h).

(** [s.capitalize()], for the ASCII names of headers *)
Definition toupper (c : ascii) : ascii :=
  if in_range 97 122 c then chr (ord c - 32) else c.

Definition capitalize (s : str) : str :=
  match s with
  | [] => []
  | c :: rest => toupper c :: map tolower rest
  end.

(** [req.add_header(key, val)] *)
Definition add_header (req : Request) (key : str) (val : py.value) : Request :=
  {| full_url := full_url req;
     headers := py.setitem (headers req) (capitalize key) val;
     data := data req |}.

(** [urllib.request.Request(url)] *)
Definition new_request (url : str) : Request :=
  {| full_url := url; headers := []; data := None |}.

(** [urllib.request.urlopen(req, data)] *)
Definition with_data (req : Request) (d : str) : Request :=
  {| full_url := full_url req; headers := headers req; data := Some d |}.

(** [json.dumps({"server_count": n})] *)
Definition count_json (n : nat) : str :=
  lit "{" ++ [chr 34] ++ lit "server_count" ++ [chr 34] ++ lit ": "
  ++ py.decimal n ++ lit "}".

Definition discordbots_org_url (uid : str) : str :=
  lit "http://discordbots.org/api/bots/" ++ uid ++ lit "/stats".

Definition bots_discord_pw_url (uid : str) : str :=
  lit "http://bots.discord.pw/api/bots/" ++ uid ++ lit "/stats".

Local Open Scope prog_scope.

Definition post_server_count : py.prog Host unit :=
  ss <- get_servers ;;
  let count_json := count_json (length ss) in
  org <- config_getitem (lit "discordbots_org_token") ;;
  (if py.truth org then
     uid <- get_user_id ;;
     dbotsorg_redirect_url <- urlopen (new_request (discordbots_org_url uid)) ;;
     let dbotsorg_req := new_request dbotsorg_redirect_url in
     let dbotsorg_req :=
       add_header dbotsorg_req (lit "Content-Type") (py.VStr (lit "application/json")) in
     token <- config_getitem (lit "discordbots_org_token") ;;
     let dbotsorg_req := add_header dbotsorg_req (lit "Authorization") token in
     urlopen (with_data dbotsorg_req count_json) ;;;
     py.ret tt
   else py.ret tt) ;;;
  pw <- config_getitem (lit "bots_discord_pw_token") ;;
  if py.truth pw then
    uid <- get_user_id ;;
    let botsdpw_redirect_url_req := new_request (bots_discord_pw_url uid) in
    token <- config_getitem (lit "bots_discord_pw_token") ;;
    let botsdpw_redirect_url_req :=
      add_header botsdpw_redirect_url_req (lit "Authorization") token in
    botsdpw_redirect_url <- urlopen botsdpw_redirect_url_req ;;
    let botsdpw_req := new_request botsdpw_redirect_url in
    let botsdpw_req :=
      add_header botsdpw_req (lit "Content-Type") (py.VStr (lit "application/json")) in
    token <- config_getitem (lit "bots_discord_pw_token") ;;
    let botsdpw_req := add_header botsdpw_req (lit "Authorization") token in
    urlopen (with_data botsdpw_req count_json) ;;;
    py.ret tt
  else py.ret tt.

(** the loop [for server in self.servers: print(...)] of [on_ready] *)
Fixpoint print_servers (ss : list Server) : py.prog Host unit :=
  match ss with
  | [] => py.ret tt
  | server :: rest =>
      print (server_id server ++ lit " - " ++ server_name server) ;;;
      print_servers rest
  end.

Definition on_ready : py.prog Host unit :=
  print (lit "ParrotBot is ready.") ;;;
  ss <- get_servers ;;
  print ([LF] ++ lit "Connected Servers: " ++ py.decimal (length ss)) ;;;
  server_list <- config_getitem (lit "server_list") ;;
  (if py.truth server_list then
     ss <- get_servers ;; print_servers ss
   else py.ret tt) ;;;
  print [] ;;;
  post_server_count ;;;
  has_presence <- config_contains (lit "presence") ;;
  if has_presence then
    name <- config_getitem (lit "presence") ;;
    change_presence name
  else py.ret tt.

Definition on_server_join (server : Server) : py.prog Host unit :=
  print (lit "Joined Server " ++ server_id server ++ lit " -- "
         ++ server_name server ++ lit ".") ;;;
  ss <- get_servers ;;
  print (lit "Connected Servers: " ++ py.decimal (length ss) ++ [LF]) ;;;
  post_server_count.

Definition on_server_remove (server : Server) : py.prog Host unit :=
  print (lit "Left Server " ++ server_id server ++ lit " -- "
         ++ server_name server ++ lit ".") ;;;
  ss <- get_servers ;;
  print (lit "Connected Servers: " ++ py.decimal (length ss) ++ [LF]) ;;;
  post_server_count.

End host.

(** *** The start-up script: configuration file, questions, sessions *)
Module script.

Inductive event :=
| Print (s : str)               (* print(s) *)
| Input (prompt : str)          (* input(prompt) *)
| Dump (config : py.dict)       (* json.dump(config, configfile, indent=2) *)
| Run (token : py.value).       (* client.run(token) *)

Record Console := {
  stdin : list str;       (* the lines still to be typed *)
  events : list event     (* what the script did so far, oldest first *)
}.

Definition emit (e : event) : py.prog Console unit :=
  fun c => (py.Return tt, {| stdin := stdin c; events := events c ++ [e] |}).

Definition print (s : str) : py.prog Console unit := emit (Print s).

(** [input(prompt)]: the next line typed, [EOFError] when there is none. *)
Definition input (prompt : str) : py.prog Console str :=
  fun c =>
    match stdin c with
    | [] => (py.Throw py.EOFError, {| stdin := []; events := events c ++ [Input prompt] |})
    | line :: rest =>
        (py.Return line, {| stdin := rest; events := events c ++ [Input prompt] |})
    end.

Definition CR : ascii := chr 13.

(** Reading a text file translates [\r\n] and [\r] to [\n]. *)
Fixpoint universal_newlines (after_cr : bool) (s : str) : str :=
  match s with
  | [] => []
  | c :: rest =>
      if Ascii.eqb c CR then LF :: universal_newlines true rest
      else if Ascii.eqb c LF then
        if after_cr then universal_newlines false rest
        else LF :: universal_newlines false rest
      else c :: universal_newlines false rest
  end.

(** [f.readline()] at the start of the file *)
Fixpoint first_line (s : str) : str :=
  match s with
  | [] => []
  | c :: rest => if Ascii.eqb c LF then [c] else c :: first_line rest
  end.

Definition readline (contents : str) : str :=
  first_line (universal_newlines false contents).

Fixpoint lstrip (s : str) : str :=
  match s with
  | [] => []
  | c :: rest => if is_space c then lstrip rest else s
  end.

(** [s.rstrip()] *)
Definition rstrip (s : str) : str := rev (lstrip (rev s)).

Definition gpl_notice : str :=
  lit "ParrotBot  Copyright (C) 2017  Martin W." ++ [LF; LF]
  ++ lit "This program is free software: you can redistribute it and/or modify" ++ [LF]
  ++ lit "it under the terms of the GNU General Public License as published by" ++ [LF]
  ++ lit "the Free Software Foundation, either version 3 of the License, or" ++ [LF]
  ++ lit "(at your option) any later version." ++ [LF; LF]
  ++ lit "This program is distributed in the hope that it will be useful," ++ [LF]
  ++ lit "but WITHOUT ANY WARRANTY; without even the implied warranty of" ++ [LF]
  ++ lit "MERCHANTABILITY or FITNESS FOR A PARTICULAR PURPOSE.  See the" ++ [LF]
  ++ lit "GNU General Public License for more details." ++ [LF; LF]
  ++ lit "You should have received a copy of the GNU General Public License" ++ [LF]
  ++ lit "along with this program.  If not, see <http://www.gnu.org/licenses/>." ++ [LF].

Definition token_txt_notice : str :=
  lit "token.txt found. Usage of this file is deprecated; the token will "
  ++ lit "be written to the new config.json file.".

Definition discord_token_prompt : str :=
  lit "Discord API token not found. Please enter your API token: ".

Definition discordbots_org_prompt : str :=
  lit "discordbots.org API token not found. Please enter your API token "
  ++ lit "(leave empty to ignore discordbots.org): ".

Definition bots_discord_pw_prompt : str :=
  lit "bots.discord.pw API token not found. Please enter your API token "
  ++ lit "(leave empty to ignore bots.discord.pw): ".

Definition presence_prompt : str :=
  lit "Please specify a presence or game status. This will be shown in the "
  ++ lit "bot's user profile (leave empty to disable this feature): ".

Definition server_list_prompt : str :=
  lit "Should the bot list all connected servers on startup? [Y/n]: ".

Definition yes_or_no_please : str :=
  [LF] ++ lit "Please answer with either yes or no." ++ [LF].

Definition answers : list str := [lit "y"; lit "yes"; lit "n"; lit "no"; []].

Definition yes_answers : list str := [lit "y"; lit "yes"; []].

Local Open Scope prog_scope.

(** The state of the script between its steps: [config] and
    [configfile_needs_update]. *)
Definition vars := (py.dict * bool)%type.

(** [try: config = json.load(open("config.json"))  except FileNotFoundError],
    for a file that holds a JSON object of texts, truth values, whole
    numbers and nulls when it exists. *)
Definition read_config (config_json : option py.dict) : py.prog Console vars :=
  match config_json with
  | Some loaded => py.ret (loaded, false)
  | None => print (lit "Configuration file not found!") ;;; py.ret ([], true)
  end.

(** The [token.txt] block. *)
Definition read_token_txt (token_txt : option str) (v : vars) : py.prog Console vars :=
  let (config, configfile_needs_update) := v in
  match token_txt with
  | Some contents =>
      let token_from_txt := rstrip (readline contents) in
      print token_txt_notice ;;;
      if negb (py.contains config (lit "discord-token")) then
        py.ret (py.setitem config (lit "discord-token") (py.VStr token_from_txt), true)
      else py.ret (config, configfile_needs_update)
  | None => py.ret (config, configfile_needs_update)
  end.

(** [if key not in config: configfile_needs_update = True;
    config[key] = input(prompt)] *)
Definition ask_if_missing (key prompt : str) (v : vars) : py.prog Console vars :=
  let (config, configfile_needs_update) := v in
  if negb (py.contains config key) then
    answer <- input prompt ;;
    py.ret (py.setitem config key (py.VStr answer), true)
  else py.ret (config, configfile_needs_update).

(** The [while] loop that asks until the answer is one of [answers]. *)
Fixpoint ask_until_valid (lines : list str) (done : list event)
  : py.outcome str * Console :=
  match lines with
  | [] =>
      (py.Throw py.EOFError,
       {| stdin := []; events := done ++ [Input server_list_prompt] |})
  | answer :: rest =>
      if negb (py.is_in (py.lower answer) answers) then
        ask_until_valid rest
          (done ++ [Input server_list_prompt; Print yes_or_no_please])
      else
        (py.Return answer,
         {| stdin := rest; events := done ++ [Input server_list_prompt] |})
  end.

Definition ask_server_list (v : vars) : py.prog Console vars :=
  let (config, configfile_needs_update) := v in
  if negb (py.contains config (lit "server_list")) then
    answer <- (fun c => ask_until_valid (stdin c) (events c)) ;;
    if py.is_in (py.lower answer) yes_answers then
      py.ret (py.setitem config (lit "server_list") (py.VBool true), true)
    else
      py.ret (py.setitem config (lit "server_list") (py.VBool false), true)
  else py.ret (config, configfile_needs_update).

Definition write_config (v : vars) : py.prog Console py.dict :=
  let (config, configfile_needs_update) := v in
  if configfile_needs_update then
    emit (Dump config) ;;;
    print (lit "Configuration file updated.") ;;;
    py.ret config
  else py.ret config.

(** The script up to [client = ParrotBot(config)], given what the two files
    hold. *)
Definition setup (config_json : option py.dict) (token_txt : option str)
  : py.prog Console py.dict :=
  print gpl_notice ;;;
  v <- read_config config_json ;;
  v <- read_token_txt token_txt v ;;
  v <- ask_if_missing (lit "discord-token") discord_token_prompt v ;;
  v <- ask_if_missing (lit "discordbots_org_token") discordbots_org_prompt v ;;
  v <- ask_if_missing (lit "bots_discord_pw_token") bots_discord_pw_prompt v ;;
  v <- ask_if_missing (lit "presence") presence_prompt v ;;
  v <- ask_server_list v ;;
  write_config v.

(** The keys the script makes sure of. *)
Definition required_keys : list str :=
  [lit "discord-token"; lit "discordbots_org_token"; lit "bots_discord_pw_token";
   lit "presence"; lit "server_list"].

(** The names the module binds: its imports, its class and its variables. *)
Definition module_names : list str :=
  [lit "discord"; lit "asyncio"; lit "datetime"; lit "json"; lit "re"; lit "urllib";
   lit "ParrotBot"; lit "config"; lit "configfile_needs_update"; lit "configfile";
   lit "tokenfile"; lit "token_from_txt"; lit "answer"; lit "client"].

(** The built-in names the module uses. *)
Definition builtin_names : list str :=
  [lit "print"; lit "input"; lit "open"; lit "len"; lit "super";
   lit "FileNotFoundError"; lit "ConnectionResetError"].

(** Evaluating a global name. *)
Definition lookup (name : str) : py.prog Console unit :=
  if py.is_in name (module_names ++ builtin_names) then py.ret tt
  else py.throw (py.NameError name).

(** How a call of [client.run] ends. *)
Inductive session :=
| Returns                 (* it returns *)
| ConnectionReset         (* it raises ConnectionResetError *)
| Raises.                 (* it raises something else *)

Definition getitem (config : py.dict) (key : str) : py.prog Console py.value :=
  match re.getitem config key with
  | Some v => py.ret v
  | None => py.throw (py.KeyError key)
  end.

(** The [while True] loop around [client.run], followed for as many
    sessions as [sessions] tells the ends of. *)
Fixpoint main_loop (config : py.dict) (sessions : list session) : py.prog Console unit :=
  match sessions with
  | [] => py.ret tt
  | s :: rest =>
      token <- getitem config (lit "discord-token") ;;
      print (lit "Start bot session with token " ++ py.to_str token) ;;;
      token <- getitem config (lit "discord-token") ;;
      emit (Run token) ;;;
      match s with
      | Returns => main_loop config rest
      | ConnectionReset =>
          print ([LF] ++ lit "--------------------------------------------") ;;;
          print (lit "Lost Connection. Retrying in 5 seconds ...") ;;;
          print (lit "--------------------------------------------" ++ [LF]) ;;;
          lookup (lit "sleep") ;;;
          main_loop config rest
      | Raises => py.throw py.Exception
      end
  end.

(** The whole script. *)
Definition main (config_json : option py.dict) (token_txt : option str)
    (sessions : list session) : py.prog Console unit :=
  config <- setup config_json token_txt ;;
  main_loop config sessions.

Definition is_input (e : event) : bool :=
  match e with Input _ => true | _ => false end.

Definition is_dump (e : event) : bool :=
  match e with Dump _ => true | _ => false end.

Definition is_run (e : event) : bool :=
  match e with Run _ => true | _ => false end.

(** The configuration file is there and has the five keys. *)
Definition complete (config_json : option py.dict) : bool :=
  match config_json with
  | Some loaded => forallb (py.contains loaded) required_keys
  | None => false
  end.

(** What the loop of [ask_server_list] leaves on the console for the answers
    it turned down. *)
Definition turned_down (bad : list str) : list event :=
  flat_map (fun _ => [Input server_list_prompt; Print yes_or_no_please]) bad.

End script.

(** Between two states of the console nothing was written to the
    configuration file. *)
Definition no_dump_between (c c' : script.Console) : Prop :=
  exists new,
    script.events c' = script.events c ++ new /\
    filter script.is_dump new = [].

(** A step of the script that writes no file and fails with [EOFError] only. *)
Definition quiet {A} (m : py.prog script.Console A) : Prop :=
  forall c r c',
    m c = (r, c') ->
    no_dump_between c c' /\ (forall e, r = py.Throw e -> e = py.EOFError).

(** What holds of [config] and [configfile_needs_update] once the keys [ks]
    have been dealt with, for the loaded dictionary [d0] and the first value
    [nu0] of the flag. *)
Definition script_inv (d0 : py.dict) (nu0 : bool) (ks : list str)
    (v : script.vars) : Prop :=
  (forall k, py.contains (fst v) k = (py.is_in k ks || py.contains d0 k)%bool) /\
  (forall k x, re.getitem d0 k = Some x -> re.getitem (fst v) k = Some x) /\
  snd v = (nu0 || existsb (fun k => negb (py.contains d0 k)) ks)%bool.

(** *** Sample data for the rest of the program *)

Definition full_config : py.dict :=
  [(lit "discord-token", py.VStr (lit "tok-discord"));
   (lit "discordbots_org_token", py.VStr (lit "tok-org"));
   (lit "bots_discord_pw_token", py.VStr (lit "tok-pw"));
   (lit "presence", py.VStr []);
   (lit "server_list", py.VBool true)].

Definition sample_servers : list host.Server :=
  [{| host.server_id := lit "41771983423143937"; host.server_name := lit "Parrots" |};
   {| host.server_id := lit "41771983423143938"; host.server_name := lit "Fishing" |}].

Definition sample_host (cfg : py.dict) (fails : host.Request -> bool) : host.Host :=
  {| host.servers := sample_servers; host.self_user_id := lit "80351110224678999";
     host.config := cfg; host.stdout := []; host.requests := [];
     host.presences := [];
     host.geturl := fun r => lit "https://" ++ skipn 7 (host.full_url r);
     host.url_error := fails |}.

Definition console (lines : list str) : script.Console :=
  {| script.stdin := lines; script.events := [] |}.


Lemma re_quote_compiled : re.compile re_quote_source = Some re_quote.
Proof. reflexivity. Qed.

(** ** Facts about the matcher *)

Section RepeatFacts.

Variable ic : bool.
Variable k : re.cclass.
Variable cont : str -> nat -> option re.marks.

Let ok := forallb (re.cmatch ic k).

Lemma rep_greedy_none s : forall pos,
  re.rep_greedy ic k cont s pos = None <->
  (forall w rest, s = w ++ rest -> ok w = true -> cont rest (pos + length w) = None).
Proof.
  induction s as [|c s IH]; intros pos; simpl.
  - split.
    + intros H w rest E _. symmetry in E. apply app_eq_nil in E as [-> ->].
      simpl. now rewrite Nat.add_0_r.
    + intros H. specialize (H [] [] eq_refl eq_refl). simpl in H.
      now rewrite Nat.add_0_r in H.
  - destruct (re.cmatch ic k c) eqn:Hc.
    + destruct (re.rep_greedy ic k cont s (S pos)) eqn:Hg.
      * split; [discriminate|]. intros H.
        assert (Hn : re.rep_greedy ic k cont s (S pos) = None).
        { apply IH. intros w rest -> Hw.
          specialize (H (c :: w) rest eq_refl). simpl in H.
          unfold ok in H, Hw. simpl in H. rewrite Hc, Hw in H.
          rewrite Nat.add_succ_r in H. now apply H. }
        congruence.
      * split.
        -- intros H0 w rest E Hw. destruct w as [|x w]; simpl in E.
           ++ subst rest. simpl. now rewrite Nat.add_0_r.
           ++ injection E as -> ->. simpl. rewrite Nat.add_succ_r.
              unfold ok in Hw. simpl in Hw. apply andb_prop in Hw as [_ Hw].
              pose proof (proj1 (IH (S pos)) Hg w rest eq_refl Hw) as H. exact H.
        -- intros H. specialize (H [] (c :: s) eq_refl eq_refl). simpl in H.
           now rewrite Nat.add_0_r in H.
    + split.
      * intros H0 w rest E Hw. destruct w as [|x w]; simpl in E.
        -- subst rest. simpl. now rewrite Nat.add_0_r.
        -- injection E as -> ->. unfold ok in Hw. simpl in Hw. now rewrite Hc in Hw.
      * intros H. specialize (H [] (c :: s) eq_refl eq_refl). simpl in H.
        now rewrite Nat.add_0_r in H.
Qed.

Lemma rep_lazy_none s : forall pos,
  re.rep_lazy ic k cont s pos = None <->
  (forall w rest, s = w ++ rest -> ok w = true -> cont rest (pos + length w) = None).
Proof.
  induction s as [|c s IH]; intros pos; simpl.
  - destruct (cont [] pos) eqn:Hk.
    + split; [discriminate|]. intros H.
      specialize (H [] [] eq_refl eq_refl). simpl in H.
      rewrite Nat.add_0_r in H. congruence.
    + split; [|reflexivity]. intros _ w rest E _. symmetry in E.
      apply app_eq_nil in E as [-> ->]. simpl. now rewrite Nat.add_0_r.
  - destruct (cont (c :: s) pos) eqn:Hk.
    + split; [discriminate|]. intros H.
      specialize (H [] (c :: s) eq_refl eq_refl). simpl in H.
      rewrite Nat.add_0_r in H. congruence.
    + destruct (re.cmatch ic k c) eqn:Hc.
      * rewrite IH. split.
        -- intros H w rest E Hw. destruct w as [|x w]; simpl in E.
           ++ subst rest. simpl. now rewrite Nat.add_0_r.
           ++ injection E as -> ->. simpl. rewrite Nat.add_succ_r.
              unfold ok in Hw. simpl in Hw. apply andb_prop in Hw as [_ Hw].
              now apply (H w rest).
        -- intros H w rest -> Hw. specialize (H (c :: w) rest eq_refl).
           simpl in H. rewrite Nat.add_succ_r in H. apply H.
           unfold ok in *. simpl. now rewrite Hc.
      * split; [|reflexivity]. intros _ w rest E Hw.
        destruct w as [|x w]; simpl in E.
        -- subst rest. simpl. now rewrite Nat.add_0_r.
        -- injection E as -> ->. unfold ok in Hw. simpl in Hw. now rewrite Hc in Hw.
Qed.

(** What a successful greedy repeat took: a run [w] of the class, such that
    the continuation accepts the rest, and no longer run would do. *)
Lemma rep_greedy_some s : forall pos r,
  re.rep_greedy ic k cont s pos = Some r ->
  exists w rest, s = w ++ rest /\ ok w = true /\
    cont rest (pos + length w) = Some r /\
    (forall x rest', rest = x :: rest' -> re.cmatch ic k x = true ->
       re.rep_greedy ic k cont rest' (S (pos + length w)) = None).
Proof.
  induction s as [|c s IH]; intros pos r; simpl.
  - intros H. exists [], []. simpl. rewrite Nat.add_0_r.
    repeat split; auto. discriminate.
  - destruct (re.cmatch ic k c) eqn:Hc.
    + destruct (re.rep_greedy ic k cont s (S pos)) eqn:Hg.
      * intros [= <-]. destruct (IH _ _ Hg) as (w & rest & -> & Hw & Hk & Hmax).
        exists (c :: w), rest. simpl. rewrite Nat.add_succ_r.
        repeat split; auto. unfold ok in *. simpl. now rewrite Hc.
      * intros H. exists [], (c :: s). simpl. rewrite Nat.add_0_r.
        repeat split; auto. intros x rest' [= <- <-] _. exact Hg.
    + intros H. exists [], (c :: s). simpl. rewrite Nat.add_0_r.
      repeat split; auto. intros x rest' [= <- <-]. congruence.
Qed.

(** What a successful lazy repeat took: the shortest run that lets the
    continuation succeed. *)
Lemma rep_lazy_some s : forall pos r,
  re.rep_lazy ic k cont s pos = Some r ->
  exists w rest, s = w ++ rest /\ ok w = true /\
    cont rest (pos + length w) = Some r /\
    (forall w1 w2, w = w1 ++ w2 -> w2 <> [] ->
       cont (w2 ++ rest) (pos + length w1) = None).
Proof.
  induction s as [|c s IH]; intros pos r; simpl.
  - destruct (cont [] pos) eqn:Hk; [|discriminate]. intros [= <-].
    exists [], []. simpl. rewrite Nat.add_0_r. repeat split; auto.
    intros w1 w2 E. symmetry in E. apply app_eq_nil in E as [_ ->]. congruence.
  - destruct (cont (c :: s) pos) eqn:Hk.
    + intros [= <-]. exists [], (c :: s). simpl. rewrite Nat.add_0_r.
      repeat split; auto.
      intros w1 w2 E. symmetry in E. apply app_eq_nil in E as [_ ->]. congruence.
    + destruct (re.cmatch ic k c) eqn:Hc; [|discriminate].
      intros H. destruct (IH _ _ H) as (w & rest & -> & Hw & Hr & Hmin).
      exists (c :: w), rest. simpl. rewrite Nat.add_succ_r.
      repeat split; auto.
      * unfold ok in *. simpl. now rewrite Hc.
      * intros w1 w2 E Hne. destruct w1 as [|x w1]; simpl in E.
        -- subst w2. simpl. now rewrite Nat.add_0_r.
        -- injection E as <- ->. simpl. rewrite Nat.add_succ_r.
           now apply Hmin.
Qed.

Lemma rep_greedy_intro w : forall rest pos r,
  ok w = true ->
  (forall x rest', rest = x :: rest' -> re.cmatch ic k x = false) ->
  cont rest (pos + length w) = Some r ->
  re.rep_greedy ic k cont (w ++ rest) pos = Some r.
Proof.
  induction w as [|c w IH]; intros rest pos r Hw Hstop Hk; simpl in *.
  - rewrite Nat.add_0_r in Hk. destruct rest as [|x rest']; simpl; auto.
    now rewrite (Hstop x rest' eq_refl).
  - unfold ok in Hw. simpl in Hw. apply andb_prop in Hw as [Hc Hw].
    rewrite Hc. rewrite Nat.add_succ_r in Hk.
    now rewrite (IH rest (S pos) r Hw Hstop Hk).
Qed.

Lemma rep_lazy_intro w : forall rest pos r,
  ok w = true ->
  (forall w1 w2, w = w1 ++ w2 -> w2 <> [] ->
     cont (w2 ++ rest) (pos + length w1) = None) ->
  cont rest (pos + length w) = Some r ->
  re.rep_lazy ic k cont (w ++ rest) pos = Some r.
Proof.
  induction w as [|c w IH]; intros rest pos r Hw Hmin Hk; simpl in *.
  - rewrite Nat.add_0_r in Hk. destruct rest; simpl; now rewrite Hk.
  - unfold ok in Hw. simpl in Hw. apply andb_prop in Hw as [Hc Hw].
    pose proof (Hmin [] (c :: w) eq_refl) as H0. simpl in H0.
    rewrite Nat.add_0_r in H0. rewrite H0 by discriminate. rewrite Hc.
    apply IH; auto.
    + intros w1 w2 -> Hne. specialize (Hmin (c :: w1) w2 eq_refl Hne).
      simpl in Hmin. now rewrite Nat.add_succ_r in Hmin.
    + now rewrite Nat.add_succ_r in Hk.
Qed.

End RepeatFacts.

(** ** The quote pattern *)

Lemma re_quote_code :
  re.code re_quote = re.Mark 0 :: re.Star re.Lazy re.CAny :: sep_tail.
Proof. reflexivity. Qed.

Section RunEquations.
Variables (ic full : bool).

Lemma run_mark i p m s pos :
  re.run ic full (re.Mark i :: p) m s pos = re.run ic full p ((i, pos) :: m) s pos.
Proof. reflexivity. Qed.

Lemma run_star_greedy k p m s pos :
  re.run ic full (re.Star re.Greedy k :: p) m s pos =
  re.rep_greedy ic k (re.run ic full p m) s pos.
Proof. reflexivity. Qed.

Lemma run_star_lazy k p m s pos :
  re.run ic full (re.Star re.Lazy k :: p) m s pos =
  re.rep_lazy ic k (re.run ic full p m) s pos.
Proof. reflexivity. Qed.

Lemma run_plus_greedy k p m c s pos :
  re.run ic full (re.Plus re.Greedy k :: p) m (c :: s) pos =
  if re.cmatch ic k c then re.rep_greedy ic k (re.run ic full p m) s (S pos)
  else None.
Proof. reflexivity. Qed.

Lemma run_chr k p m c s pos :
  re.run ic full (re.Chr k :: p) m (c :: s) pos =
  if re.cmatch ic k c then re.run ic full p m s (S pos) else None.
Proof. reflexivity. Qed.

Lemma run_chr_nil k p m pos :
  re.run ic full (re.Chr k :: p) m [] pos = None.
Proof. reflexivity. Qed.
End RunEquations.

Lemma greedy_any_end m s : forall pos,
  re.rep_greedy false re.CAny (re.run false true [re.Mark 3] m) s pos =
  if no_lf s then Some ((3, pos + length s) :: m) else None.
Proof.
  induction s as [|c s IH]; intros pos.
  - simpl. now rewrite Nat.add_0_r.
  - cbn [re.rep_greedy re.cmatch no_lf forallb].
    destruct (negb (Ascii.eqb c LF)) eqn:Hc; cbn [andb].
    + rewrite IH. fold (no_lf s). destruct (no_lf s).
      * simpl. now rewrite Nat.add_succ_r.
      * reflexivity.
    + reflexivity.
Qed.

Lemma run_content m s pos :
  re.run false true [re.Mark 2; re.Plus re.Greedy re.CAny; re.Mark 3] m s pos =
  match s with
  | [] => None
  | _ :: _ => if no_lf s then Some ((3, pos + length s) :: (2, pos) :: m) else None
  end.
Proof.
  rewrite run_mark. destruct s as [|c s]; [reflexivity|].
  rewrite run_plus_greedy. cbn [re.cmatch no_lf forallb].
  destruct (negb (Ascii.eqb c LF)); cbn [andb]; [|reflexivity].
  rewrite greedy_any_end. fold (no_lf s). destruct (no_lf s); [|reflexivity].
  simpl. now rewrite Nat.add_succ_r.
Qed.

Lemma all_space_app a b : all_space (a ++ b) = (all_space a && all_space b)%bool.
Proof. apply forallb_app. Qed.

Lemma no_lf_app a b : no_lf (a ++ b) = (no_lf a && no_lf b)%bool.
Proof. apply forallb_app. Qed.

Lemma gt_not_space : is_space ">" = false.
Proof. reflexivity. Qed.

(** What [sep_tail] accepts, and the marks it leaves. *)
Lemma sep_tail_inv m s pos mk :
  re.run false true sep_tail m s pos = Some mk ->
  exists w1 w2 c,
    s = w1 ++ ">"%char :: w2 ++ c /\
    all_space w1 = true /\ all_space w2 = true /\ c <> [] /\ no_lf c = true /\
    mk = [(3, pos + length s); (2, pos + length w1 + 1 + length w2); (1, pos)] ++ m /\
    (forall x c', c = x :: c' -> is_space x = true -> c' = []).
Proof.
  unfold sep_tail. rewrite run_mark, run_star_greedy. intros H.
  apply rep_greedy_some in H as (w1 & r1 & -> & Hw1 & H & _).
  destruct r1 as [|x r1]; [discriminate|].
  rewrite run_chr in H. cbn [re.cmatch] in H.
  destruct (Ascii.eqb x ">") eqn:Hx; [|discriminate].
  apply Ascii.eqb_eq in Hx. subst x.
  rewrite run_star_greedy in H.
  apply rep_greedy_some in H as (w2 & c & -> & Hw2 & H & Hmax).
  rewrite run_content in H. destruct c as [|y c]; [discriminate|].
  destruct (no_lf (y :: c)) eqn:Hlf; [|discriminate].
  injection H as <-.
  exists w1, w2, (y :: c). repeat split; auto; try discriminate.
  - simpl. rewrite !length_app. simpl. rewrite !length_app. simpl.
    repeat f_equal; lia.
  - intros x c' [= <- <-] Hsp.
    specialize (Hmax y c eq_refl Hsp).
    destruct c as [|z c]; [reflexivity|exfalso].
    rewrite rep_greedy_none in Hmax.
    specialize (Hmax [] (z :: c) eq_refl eq_refl).
    rewrite run_content in Hmax.
    assert (Hz : no_lf (z :: c) = true).
    { change (no_lf (y :: z :: c)) with
        (negb (Ascii.eqb y LF) && no_lf (z :: c))%bool in Hlf.
      now apply andb_prop in Hlf. }
    now rewrite Hz in Hmax.
Qed.

Lemma sep_tail_accepts m pos w1 w2 c :
  all_space w1 = true -> all_space w2 = true -> c <> [] -> no_lf c = true ->
  re.run false true sep_tail m (w1 ++ ">"%char :: w2 ++ c) pos <> None.
Proof.
  intros Hw1 Hw2 Hc Hlf H. unfold sep_tail in H.
  rewrite run_mark, run_star_greedy in H.
  rewrite rep_greedy_none in H. specialize (H w1 _ eq_refl Hw1).
  rewrite run_chr in H. cbn [re.cmatch] in H. rewrite Ascii.eqb_refl in H.
  rewrite run_star_greedy in H.
  rewrite rep_greedy_none in H. specialize (H w2 _ eq_refl Hw2).
  rewrite run_content in H. destruct c; [congruence|]. now rewrite Hlf in H.
Qed.

Lemma sep_tail_intro m pos w1 w2 c :
  all_space w1 = true -> all_space w2 = true -> no_lf c = true ->
  (exists x c', c = x :: c' /\ is_space x = false) ->
  re.run false true sep_tail m (w1 ++ ">"%char :: w2 ++ c) pos =
  Some ([(3, pos + length (w1 ++ ">"%char :: w2 ++ c));
         (2, pos + length w1 + 1 + length w2); (1, pos)] ++ m).
Proof.
  intros Hw1 Hw2 Hlf (x & c' & -> & Hx).
  unfold sep_tail. rewrite run_mark, run_star_greedy.
  apply rep_greedy_intro; auto.
  { intros y r [= <- <-]. apply gt_not_space. }
  rewrite run_chr. cbn [re.cmatch]. rewrite Ascii.eqb_refl.
  rewrite run_star_greedy.
  apply rep_greedy_intro; auto.
  { intros y r [= <- <-]. exact Hx. }
  rewrite run_content, Hlf. simpl. rewrite !length_app. simpl. rewrite !length_app.
  simpl. repeat f_equal; lia.
Qed.

Lemma slice_middle (p c q : str) b e :
  b = length p -> e = length p + length c -> slice (p ++ c ++ q) b e = c.
Proof.
  intros -> ->. unfold slice.
  rewrite skipn_app, skipn_all, Nat.sub_diag. simpl.
  replace (length p + length c - length p) with (length c + 0) by lia.
  now rewrite firstn_app_2, firstn_O, app_nil_r.
Qed.

(** The dictionary of a match of [re_quote] whose marks are known. *)
Lemma groupdict_of_marks body e b2 e1 :
  re.groupdict {| re.subject := body; re.pattern := re_quote;
                  re.mks := [(3, e); (2, b2); (1, e1); (0, 0)] |} =
  quote_dict (slice body 0 e1) (slice body b2 e).
Proof. reflexivity. Qed.

Lemma fullmatch_re_quote body :
  re.fullmatch false re_quote body =
  match re.rep_lazy false re.CAny (re.run false true sep_tail [(0, 0)]) body 0 with
  | Some m => Some {| re.subject := body; re.pattern := re_quote; re.mks := m |}
  | None => None
  end.
Proof. reflexivity. Qed.

(** A text with no separator in it, ending in a character that is not white
    space, cannot be where the separator part of the pattern starts. *)
Lemma sep_tail_rejects m pos a2 x r :
  ~ In ">"%char (a2 ++ [x]) -> is_space x = false ->
  re.run false true sep_tail m ((a2 ++ [x]) ++ r) pos = None.
Proof.
  intros Hgt Hx.
  destruct (re.run false true sep_tail m ((a2 ++ [x]) ++ r) pos) as [mk|] eqn:H;
    [exfalso|reflexivity].
  apply sep_tail_inv in H as (w1 & w2 & c & E & Hw1 & _).
  apply app_eq_app in E as [l [[E1 E2]|[E1 E2]]].
  - destruct l as [|y l].
    + rewrite app_nil_r in E1. subst w1. rewrite all_space_app in Hw1.
      apply andb_prop in Hw1 as [_ Hw1]. simpl in Hw1. now rewrite Hx in Hw1.
    + injection E2 as <- _. apply Hgt. rewrite E1. apply in_or_app. right. now left.
  - subst w1. rewrite !all_space_app in Hw1.
    apply andb_prop in Hw1 as [Hw1 _]. apply andb_prop in Hw1 as [_ Hw1].
    simpl in Hw1. now rewrite Hx in Hw1.
Qed.

(** Every match of [re_quote] splits the body into author, white space,
    separator, white space and content; the author is the shortest possible
    and the white space after the separator the longest possible. *)
Lemma quote_groupdict_inv body d :
  quote_groupdict body = Some d ->
  exists a w1 w2 c,
    body = a ++ w1 ++ ">"%char :: w2 ++ c /\
    d = quote_dict a c /\
    no_lf a = true /\ all_space w1 = true /\ all_space w2 = true /\
    c <> [] /\ no_lf c = true /\
    (forall a' x, a = a' ++ [x] -> is_space x = false) /\
    (forall x c', c = x :: c' -> is_space x = true -> c' = []).
Proof.
  unfold quote_groupdict. rewrite fullmatch_re_quote.
  destruct (re.rep_lazy false re.CAny (re.run false true sep_tail [(0, 0)]) body 0)
    as [mk|] eqn:H; [|discriminate].
  intros [= <-].
  apply rep_lazy_some in H as (a & rest & -> & Ha & H & Hmin).
  pose proof H as H'.
  apply sep_tail_inv in H' as (w1 & w2 & c & -> & Hw1 & Hw2 & Hc & Hlf & -> & Hmax).
  exists a, w1, w2, c. repeat split; auto.
  - cbn [app]. rewrite groupdict_of_marks. f_equal.
    + rewrite <- (app_nil_l (a ++ _)). apply slice_middle; simpl; lia.
    + replace (a ++ w1 ++ ">"%char :: w2 ++ c)
        with ((a ++ w1 ++ ">"%char :: w2) ++ c ++ [])
        by (rewrite app_nil_r, <- !app_assoc; reflexivity).
      apply slice_middle.
      * rewrite !length_app. simpl. lia.
      * rewrite !length_app. simpl. rewrite !length_app. simpl. lia.
  - intros a' x -> . destruct (is_space x) eqn:Hx; [exfalso|reflexivity].
    specialize (Hmin a' [x] eq_refl ltac:(discriminate)).
    revert Hmin. change ([x] ++ w1 ++ ">"%char :: w2 ++ c) with ((x :: w1) ++ ">"%char :: w2 ++ c).
    apply sep_tail_accepts; auto.
    unfold all_space in *. simpl. now rewrite Hx.
Qed.

Lemma quote_groupdict_intro a w1 w2 c :
  no_lf a = true -> ~ In ">"%char a ->
  (forall a' x, a = a' ++ [x] -> is_space x = false) ->
  all_space w1 = true -> all_space w2 = true -> no_lf c = true ->
  (exists x c', c = x :: c' /\ is_space x = false) ->
  quote_groupdict (a ++ w1 ++ ">"%char :: w2 ++ c) = Some (quote_dict a c).
Proof.
  intros Ha Hgt Hlast Hw1 Hw2 Hlf Hc.
  unfold quote_groupdict. rewrite fullmatch_re_quote.
  rewrite (rep_lazy_intro false re.CAny _ a (w1 ++ ">"%char :: w2 ++ c) 0
             ([(3, 0 + length a + length (w1 ++ ">"%char :: w2 ++ c));
               (2, 0 + length a + length w1 + 1 + length w2); (1, 0 + length a)]
                ++ [(0, 0)])).
  - cbn [option_map app]. rewrite groupdict_of_marks. f_equal. f_equal.
    + rewrite <- (app_nil_l (a ++ _)). apply slice_middle; simpl; lia.
    + replace (a ++ w1 ++ ">"%char :: w2 ++ c)
        with ((a ++ w1 ++ ">"%char :: w2) ++ c ++ [])
        by (rewrite app_nil_r, <- !app_assoc; reflexivity).
      apply slice_middle.
      * rewrite !length_app. simpl. lia.
      * rewrite !length_app. simpl. rewrite !length_app. simpl. lia.
  - exact Ha.
  - intros a1 a2 -> Hne.
    destruct (exists_last Hne) as (a2' & x & ->).
    rewrite app_assoc in Hlast. pose proof (Hlast _ _ eq_refl) as Hx.
    apply sep_tail_rejects; auto.
    intros Hin. apply Hgt. apply in_or_app. now right.
  - now apply sep_tail_intro.
Qed.

Lemma quote_groupdict_has_separator body d :
  quote_groupdict body = Some d -> In ">"%char body.
Proof.
  intros H. apply quote_groupdict_inv in H as (a & w1 & w2 & c & -> & _).
  apply in_or_app. right. apply in_or_app. right. now left.
Qed.

Lemma fullmatch_groupdict body :
  re.fullmatch false re_quote body = None <-> quote_groupdict body = None.
Proof.
  unfold quote_groupdict. destruct (re.fullmatch false re_quote body); simpl;
    split; congruence.
Qed.

(** ** Escaped patterns are plain text *)

Lemma step_normal_plain st c :
  re.is_special c = false ->
  re.step_normal st c = Some (re.emit st (re.Chr (re.CLit c)) re.PAtom).
Proof.
  destruct c as [[] [] [] [] [] [] [] []]; intros H;
    try (vm_compute in H; discriminate H); reflexivity.
Qed.

Lemma step_escape_special st c :
  re.is_special c = true ->
  re.step (re.set_mode st re.Escape) c =
  Some (re.emit st (re.Chr (re.CLit c)) re.PAtom).
Proof.
  destruct c as [[] [] [] [] [] [] [] []]; intros H;
    try (vm_compute in H; discriminate H); reflexivity.
Qed.

Lemma steps_escape text : forall st,
  re.md st = re.Normal ->
  re.steps st (re.escape text) = Some (emit_text st text).
Proof.
  induction text as [|c text IH]; intros st Hst; [reflexivity|].
  cbn [re.escape]. destruct (re.is_special c) eqn:Hc.
  - cbn [re.steps]. unfold re.step at 1. rewrite Hst.
    replace (re.step_normal st (chr 92)) with (Some (re.set_mode st re.Escape))
      by reflexivity.
    rewrite step_escape_special by exact Hc. now apply IH.
  - cbn [re.steps]. unfold re.step. rewrite Hst.
    rewrite step_normal_plain by exact Hc. now apply IH.
Qed.

Lemma emit_text_fields text : forall st,
  re.md st = re.Normal ->
  re.out (emit_text st text) = rev (literal text) ++ re.out st /\
  re.stack (emit_text st text) = re.stack st /\
  re.ngroups (emit_text st text) = re.ngroups st /\
  re.names (emit_text st text) = re.names st /\
  re.md (emit_text st text) = re.Normal.
Proof.
  induction text as [|c text IH]; intros st Hst; [now repeat split|].
  cbn [emit_text fold_left].
  destruct (IH (re.emit st (re.Chr (re.CLit c)) re.PAtom) eq_refl)
    as (Ho & Hs & Hg & Hn & Hm).
  unfold emit_text in *. rewrite Ho, Hs, Hg, Hn, Hm.
  repeat split. cbn [literal map rev re.emit re.out]. now rewrite <- app_assoc.
Qed.

(** [re.compile(re.escape(text))] never fails and yields the pattern that
    matches [text] character by character. *)
Lemma compile_escape text :
  re.compile (re.escape text) =
  Some {| re.code := literal text; re.groups := 0; re.groupindex := [] |}.
Proof.
  unfold re.compile. rewrite steps_escape by reflexivity.
  destruct (emit_text_fields text re.pstart eq_refl) as (Ho & Hs & Hg & Hn & Hm).
  unfold re.finish. rewrite Hm, Hs, Ho, Hg, Hn.
  cbn [re.pstart re.out re.stack re.ngroups re.names].
  now rewrite app_nil_r, rev_involutive.
Qed.

Lemma run_literal text : forall m body pos,
  re.run true false (literal text) m body pos =
  if starts_with_ci body text then Some m else None.
Proof.
  induction text as [|x text IH]; intros m body pos; [reflexivity|].
  cbn [literal map]. fold (literal text).
  destruct body as [|y body]; [reflexivity|].
  rewrite run_chr. cbn [re.cmatch starts_with_ci].
  destruct (Ascii.eqb (tolower y) (tolower x)); cbn [andb]; [apply IH|reflexivity].
Qed.

Lemma scan_literal text : forall body pos,
  re.scan true false (literal text) body pos =
  if contains_ci body text then re.scan true false (literal text) body pos else None.
Proof.
  intros body pos. destruct (contains_ci body text) eqn:H; [reflexivity|].
  revert pos H. induction body as [|y body IH]; intros pos H.
  - cbn [contains_ci] in H. apply orb_false_elim in H as [H _].
    cbn [re.scan]. now rewrite run_literal, H.
  - cbn [contains_ci] in H. apply orb_false_elim in H as [H H'].
    cbn [re.scan]. rewrite run_literal, H. now apply IH.
Qed.

Lemma scan_literal_found text : forall body pos,
  contains_ci body text = true ->
  exists m, re.scan true false (literal text) body pos = Some m.
Proof.
  induction body as [|y body IH]; intros pos H; cbn [contains_ci] in H;
    cbn [re.scan]; rewrite run_literal;
    destruct (starts_with_ci _ text) eqn:Hs; eauto.
  discriminate H.
Qed.

(** [re.search(re.escape(text), body, flags=re.IGNORECASE)] *)
Lemma search_escape text body :
  exists r,
    re.search (re.escape text) body true = re.Done r /\
    (match r with Some _ => true | None => false end) = contains_ci body text.
Proof.
  unfold re.search. rewrite compile_escape. unfold re.search_compiled.
  cbn [re.code]. rewrite scan_literal.
  destruct (contains_ci body text) eqn:H.
  - destruct (scan_literal_found text body 0 H) as [m ->]. eauto.
  - eauto.
Qed.

Lemma starts_with_ci_spec frag : forall body,
  starts_with_ci body frag = true <->
  exists mid post, body = mid ++ post /\ map tolower mid = map tolower frag.
Proof.
  induction frag as [|x frag IH]; intros body.
  - split; [|reflexivity]. intros _. now exists [], body.
  - destruct body as [|y body]; cbn [starts_with_ci].
    + split; [discriminate|]. intros (mid & post & E & H).
      symmetry in E. apply app_eq_nil in E as [-> _]. discriminate.
    + rewrite andb_true_iff, Ascii.eqb_eq, IH. split.
      * intros (Hxy & mid & post & -> & H). exists (y :: mid), post.
        split; [reflexivity|]. simpl. now rewrite Hxy, H.
      * intros (mid & post & E & H). destruct mid as [|z mid]; [discriminate|].
        injection E as <- ->. injection H as Hxy H. eauto.
Qed.

Lemma contains_ci_spec frag : forall body,
  contains_ci body frag = true <-> occurs_ci frag body.
Proof.
  unfold occurs_ci. induction body as [|y body IH]; cbn [contains_ci].
  - rewrite orb_false_r, starts_with_ci_spec. split.
    + intros (mid & post & E & H). now exists [], mid, post.
    + intros (pre & mid & post & E & H). symmetry in E.
      apply app_eq_nil in E as [-> E]. eauto.
  - rewrite orb_true_iff, starts_with_ci_spec, IH. split.
    + intros [(mid & post & E & H)|(pre & mid & post & E & H)].
      * now exists [], mid, post.
      * exists (y :: pre), mid, post. now rewrite E.
    + intros (pre & mid & post & E & H). destruct pre as [|z pre].
      * left. exists mid, post. now split.
      * right. injection E as _ E. exists pre, mid, post. now split.
Qed.

(** ** The identity matcher and the scan *)

Lemma find_from_lower sub s : forall i,
  (find_from s sub i = -1 \/ i <= find_from s sub i)%Z.
Proof.
  induction s as [|c s IH]; intros i; cbn [find_from].
  - destruct (startswith [] sub); [right; lia|now left].
  - destruct (startswith (c :: s) sub); [right; lia|].
    destruct (IH (i + 1)%Z) as [H|H]; [now left|right; lia].
Qed.

Lemma str_find_zero s sub : Z.eqb (str_find s sub) 0 = startswith s sub.
Proof.
  unfold str_find. destruct s as [|c s]; cbn [find_from].
  - now destruct (startswith [] sub).
  - destruct (startswith (c :: s) sub); [reflexivity|].
    destruct (find_from_lower sub s (0 + 1)%Z) as [H|H].
    + now rewrite H.
    + apply Z.eqb_neq. lia.
Qed.

Lemma is_same_user_run u hint w :
  is_same_user u hint w = (Ok (same_user u hint), w).
Proof.
  unfold is_same_user, same_user. rewrite str_find_zero.
  destruct (startswith (user_id u) (re.escape hint)); [reflexivity|].
  cbn [orb]. unfold bind.
  destruct (search_escape hint (user_name u ++ lit "#" ++ discriminator u))
    as (r & -> & <-).
  cbn [lift_re ret]. destruct r; [reflexivity|].
  destruct (search_escape hint (display_name u)) as (r' & -> & <-).
  cbn [lift_re ret orb]. now destruct r'.
Qed.

Lemma search_loop_run a c msgs : forall w,
  search_loop (quote_dict a c) msgs w = (Ok (find (candidate_ok a c) msgs), w).
Proof.
  induction msgs as [|m msgs IH]; intros w; [reflexivity|].
  cbn [search_loop find].
  change (re.getitem (quote_dict a c) (lit "author")) with (Some (Some a)).
  change (re.getitem (quote_dict a c) (lit "content")) with (Some (Some c)).
  unfold candidate_ok at 1. cbv beta iota. unfold bind at 1.
  assert (Hsame :
    (if negb (truthy a) then ret true else is_same_user (author m) a) w =
    (Ok (negb (truthy a) || same_user (author m) a)%bool, w)).
  { destruct (negb (truthy a)); [reflexivity|apply is_same_user_run]. }
  rewrite Hsame.
  destruct (negb (truthy a) || same_user (author m) a)%bool; cbn [andb];
    [|apply IH].
  unfold bind. destruct (search_escape c (content m)) as (r & -> & <-).
  cbn [lift_re ret]. destruct r; [reflexivity|apply IH].
Qed.

Lemma search_message_by_quote_run quote a c w :
  quote_groupdict (content quote) = Some (quote_dict a c) ->
  search_message_by_quote quote w =
  (Ok (find (candidate_ok a c) (window quote w)),
   record (LogsFrom log_fetch_limit quote) w).
Proof.
  unfold quote_groupdict, search_message_by_quote.
  destruct (re.fullmatch false re_quote (content quote)) as [mo|]; [|discriminate].
  cbn [option_map]. intros [= ->]. unfold bind, logs_from.
  now rewrite search_loop_run.
Qed.

Lemma search_message_by_quote_no_match quote w :
  quote_groupdict (content quote) = None ->
  search_message_by_quote quote w = (Raise AttributeError, w).
Proof.
  intros H. apply fullmatch_groupdict in H. unfold search_message_by_quote.
  now rewrite H.
Qed.

(** ** Lists *)

Section ListFacts.
Context {A : Type}.

Lemma find_first (f : A -> bool) l x :
  find f l = Some x ->
  exists l1 l2, l = l1 ++ x :: l2 /\ f x = true /\ (forall y, In y l1 -> f y = false).
Proof.
  induction l as [|y l IH]; [discriminate|]. cbn [find].
  destruct (f y) eqn:Hy.
  - intros [= ->]. exists [], l. repeat split; auto. intros ? [].
  - intros H. destruct (IH H) as (l1 & l2 & -> & Hx & Hl1).
    exists (y :: l1), l2. repeat split; auto.
    intros z [<-|Hz]; auto.
Qed.

Lemma In_firstn n : forall (l : list A) x, In x (firstn n l) -> In x l.
Proof.
  intros l x H. rewrite <- (firstn_skipn n l). apply in_or_app. now left.
Qed.

Variable R : A -> A -> Prop.

Lemma sorted_after l1 x l2 :
  StronglySorted R (l1 ++ x :: l2) -> forall y, In y l2 -> R x y.
Proof.
  induction l1 as [|z l1 IH]; cbn [app]; intros H y Hy.
  - apply StronglySorted_inv in H as [_ H].
    rewrite Forall_forall in H. auto.
  - apply StronglySorted_inv in H as [H _]. auto.
Qed.

Lemma sorted_filter f l : StronglySorted R l -> StronglySorted R (filter f l).
Proof.
  induction 1 as [|x l Hs IH Hx]; cbn [filter]; [constructor|].
  destruct (f x); auto. constructor; auto.
  rewrite Forall_forall in *. intros y Hy. apply filter_In in Hy as [Hy _]. auto.
Qed.

Lemma sorted_firstn n : forall l, StronglySorted R l -> StronglySorted R (firstn n l).
Proof.
  induction n as [|n IH]; intros l H; [constructor|].
  destruct H as [|x l Hs Hx]; cbn [firstn]; constructor; auto.
  rewrite Forall_forall in *. intros y Hy. apply Hx. now apply In_firstn in Hy.
Qed.
End ListFacts.

Lemma truthy_nil a : negb (truthy a) = true <-> a = [].
Proof.
  unfold truthy. rewrite negb_involutive. destruct a; simpl; split; congruence.
Qed.

Lemma candidate_ok_spec a c m : candidate_ok a c m = true <-> passes a c m.
Proof.
  unfold candidate_ok, passes.
  now rewrite andb_true_iff, orb_true_iff, truthy_nil, contains_ci_spec.
Qed.

Lemma candidate_ok_false a c m : candidate_ok a c m = false <-> ~ passes a c m.
Proof.
  rewrite <- candidate_ok_spec. destruct (candidate_ok a c m); split; congruence.
Qed.

Lemma window_sorted quote w :
  newest_first (history w) -> newest_first (window quote w).
Proof. intros H. apply sorted_firstn. now apply sorted_filter. Qed.

Lemma window_older quote w m :
  In m (window quote w) -> (timestamp m < timestamp quote)%Z.
Proof.
  intros H. apply In_firstn in H. apply filter_In in H as [_ H].
  now apply Z.ltb_lt.
Qed.

(** ** The history scan *)

(** C1.  The scan returns the first message of the window, which is ordered
    most recent first and holds only messages older than the quote, that
    passes the author check (skipped when the quote names no author) and
    contains the quoted text, letter case ignored.  That message is the most
    recent one among all that pass; when none passes the scan returns
    [None]. *)
Theorem scan_returns_most_recent_match quote a c w :
  quote_groupdict (content quote) = Some (quote_dict a c) ->
  newest_first (history w) ->
  exists found,
    fst (search_message_by_quote quote w) = Ok found /\
    match found with
    | Some m =>
        (exists newer older,
            window quote w = newer ++ m :: older /\
            forall m', In m' newer -> ~ passes a c m') /\
        passes a c m /\
        (timestamp m < timestamp quote)%Z /\
        (forall m', In m' (window quote w) -> passes a c m' ->
                    (timestamp m' <= timestamp m)%Z)
    | None => forall m', In m' (window quote w) -> ~ passes a c m'
    end.
Proof.
  intros Hq Hsorted. rewrite (search_message_by_quote_run _ _ _ _ Hq). cbn [fst].
  eexists; split; [reflexivity|].
  destruct (find (candidate_ok a c) (window quote w)) as [m|] eqn:Hfind.
  - destruct (find_first _ _ _ Hfind) as (newer & older & Hw & Hm & Hnewer).
    assert (Hin : In m (window quote w)).
    { rewrite Hw. apply in_or_app. right. now left. }
    split; [|split; [|split]].
    + exists newer, older. split; [exact Hw|].
      intros m' Hm'. apply candidate_ok_false. auto.
    + now apply candidate_ok_spec.
    + now apply (window_older quote w).
    + intros m' Hin' Hp. rewrite Hw in Hin'.
      apply in_app_or in Hin' as [Hn|[<-|Ho]].
      * apply candidate_ok_spec in Hp. rewrite (Hnewer _ Hn) in Hp. discriminate.
      * lia.
      * pose proof (window_sorted quote w Hsorted) as Hs. rewrite Hw in Hs.
        exact (sorted_after _ _ _ _ Hs _ Ho).
  - intros m' Hin. apply candidate_ok_false.
    exact (find_none _ _ Hfind _ Hin).
Qed.

Lemma scan_returns_most_recent_match_witness :
  quote_groupdict (content fishing_quote) =
    Some (quote_dict (lit "Alice") (lit "going fishing")) /\
  newest_first (history (world fishing_history true None None)) /\
  exists found,
    fst (search_message_by_quote fishing_quote
           (world fishing_history true None None)) = Ok found /\
    match found with
    | Some m =>
        (exists newer older,
            window fishing_quote (world fishing_history true None None)
              = newer ++ m :: older /\
            forall m', In m' newer ->
                       ~ passes (lit "Alice") (lit "going fishing") m') /\
        passes (lit "Alice") (lit "going fishing") m /\
        (timestamp m < timestamp fishing_quote)%Z /\
        (forall m', In m' (window fishing_quote (world fishing_history true None None)) ->
                    passes (lit "Alice") (lit "going fishing") m' ->
                    (timestamp m' <= timestamp m)%Z)
    | None =>
        forall m', In m' (window fishing_quote (world fishing_history true None None)) ->
                   ~ passes (lit "Alice") (lit "going fishing") m'
    end.
Proof.
  assert (H1 : quote_groupdict (content fishing_quote) =
               Some (quote_dict (lit "Alice") (lit "going fishing")))
    by (vm_compute; reflexivity).
  assert (H2 : newest_first (history (world fishing_history true None None)))
    by (repeat constructor; simpl; lia).
  split; [exact H1|]. split; [exact H2|].
  exact (scan_returns_most_recent_match fishing_quote _ _ _ H1 H2).
Defined.

Example scan_finds_the_recent_fishing_message :
  fst (search_message_by_quote fishing_quote (world fishing_history true None None))
  = Ok (Some fishing_recent).
Proof. vm_compute. reflexivity. Qed.

(** C6.  The scan looks at [log_fetch_limit] = 100 messages and no further:
    when none of the hundred most recent older messages passes, it returns
    [None], whatever lies deeper in the channel. *)
Theorem window_is_hard_cutoff quote a c w recent deep :
  quote_groupdict (content quote) = Some (quote_dict a c) ->
  older_than quote w = recent ++ deep ->
  length recent = log_fetch_limit ->
  (forall m, In m recent -> ~ passes a c m) ->
  log_fetch_limit = 100 /\
  window quote w = recent /\
  fst (search_message_by_quote quote w) = Ok None.
Proof.
  intros Hq Hsplit Hlen Hnone.
  assert (Hw : window quote w = recent).
  { unfold window. rewrite Hsplit, <- Hlen, <- (Nat.add_0_r (length recent)).
    now rewrite firstn_app_2, firstn_O, app_nil_r. }
  repeat split; auto.
  rewrite (search_message_by_quote_run _ _ _ _ Hq), Hw. cbn [fst]. f_equal.
  destruct (find (candidate_ok a c) recent) as [m|] eqn:Hfind; [exfalso|reflexivity].
  apply find_some in Hfind as [Hin Hok].
  apply candidate_ok_spec in Hok. exact (Hnone m Hin Hok).
Qed.

Lemma none_passes_by_evaluation a c l :
  forallb (fun m => negb (candidate_ok a c m)) l = true ->
  forall m, In m l -> ~ passes a c m.
Proof.
  intros H m Hin. rewrite forallb_forall in H. specialize (H m Hin).
  apply candidate_ok_false. now destruct (candidate_ok a c m).
Qed.

Lemma window_is_hard_cutoff_witness :
  passes (lit "Alice") (lit "going fishing") buried /\
  In buried (older_than late_quote (world (late_quote :: chatter 100 ++ [buried]) true None None)) /\
  fst (search_message_by_quote late_quote
         (world (late_quote :: chatter 100 ++ [buried]) true None None)) = Ok None.
Proof.
  split; [|split].
  - apply candidate_ok_spec. vm_compute. reflexivity.
  - vm_compute. do 100 right. left. reflexivity.
  - apply (window_is_hard_cutoff late_quote (lit "Alice") (lit "going fishing")
             (world (late_quote :: chatter 100 ++ [buried]) true None None)
             (chatter 100) [buried]).
    + vm_compute. reflexivity.
    + vm_compute. reflexivity.
    + vm_compute. reflexivity.
    + apply none_passes_by_evaluation. vm_compute. reflexivity.
Defined.

(** ** Bodies that are not quotes *)

(** C8.  A body without the separator character does not parse, and the
    message handler then does nothing at all: the world, with its record of
    requests, is left as it was. *)
Theorem no_separator_no_action message w :
  ~ In ">"%char (content message) ->
  quote_groupdict (content message) = None /\
  re.fullmatch false re_quote (content message) = None /\
  on_message message w = (Ok tt, w).
Proof.
  intros Hno.
  assert (H : quote_groupdict (content message) = None).
  { destruct (quote_groupdict (content message)) as [d|] eqn:Hd; [exfalso|reflexivity].
    exact (Hno (quote_groupdict_has_separator _ _ Hd)). }
  split; [exact H|]. apply fullmatch_groupdict in H. split; [exact H|].
  unfold on_message. now rewrite H.
Qed.

Lemma no_separator_no_action_witness :
  ~ In ">"%char (content (msg "7" bob "going fishing" 5)) /\
  on_message (msg "7" bob "going fishing" 5) (world fishing_history true None None)
  = (Ok tt, world fishing_history true None None).
Proof.
  assert (H : ~ In ">"%char (content (msg "7" bob "going fishing" 5))).
  { simpl. intuition discriminate. }
  split; [exact H|].
  apply (no_separator_no_action (msg "7" bob "going fishing" 5) _ H).
Defined.

(** ** What the quote pattern accepts *)

Lemma ends_with_space_last a : 
  ends_with_space a = false <-> (forall a' x, a = a' ++ [x] -> is_space x = false).
Proof.
  unfold ends_with_space. split.
  - intros H a' x ->. rewrite rev_app_distr in H. exact H.
  - intros H. destruct (rev a) as [|x l] eqn:E; [reflexivity|].
    apply (H (rev l) x). rewrite <- (rev_involutive a), E. reflexivity.
Qed.

Lemma starts_with_non_space c :
  c <> [] -> starts_with_space c = false ->
  exists x c', c = x :: c' /\ is_space x = false.
Proof. destruct c as [|x c']; [congruence|]. intros _ H. now exists x, c'. Qed.

Lemma no_lf_In s : no_lf s = true -> ~ In LF s.
Proof.
  unfold no_lf. rewrite forallb_forall. intros H Hin. specialize (H _ Hin).
  now rewrite Ascii.eqb_refl in H.
Qed.

Lemma not_ending_in_space_has_non_space a :
  a <> [] -> ends_with_space a = false -> has_non_space a = true.
Proof.
  intros Hne H. destruct (exists_last Hne) as (a' & x & ->).
  rewrite ends_with_space_last in H. specialize (H a' x eq_refl).
  unfold has_non_space. rewrite existsb_app. simpl. rewrite H.
  now rewrite orb_true_r.
Qed.

(** C3, as the specification words it, fails: an author text that itself
    holds a separator is cut at its first separator. *)
Lemma parse_roundtrip_counterexample :
  ~ (forall a c : str,
        a <> [] -> trimmed a = true -> c <> [] ->
        quote_groupdict (a ++ lit " > " ++ c) = Some (quote_dict a c)).
Proof.
  intros H.
  specialize (H (lit "x > y") (lit "z")).
  assert (E : quote_groupdict (lit "x > y" ++ lit " > " ++ lit "z") =
              Some (quote_dict (lit "x") (lit "y > z")))
    by (vm_compute; reflexivity).
  rewrite E in H.
  assert (Hne : lit "x > y" <> []) by discriminate.
  assert (Hz : lit "z" <> []) by discriminate.
  specialize (H Hne eq_refl Hz). discriminate H.
Qed.

Example content_loses_leading_space :
  quote_groupdict (lit "a" ++ lit " > " ++ lit " z") = Some (quote_dict (lit "a") (lit "z")).
Proof. vm_compute. reflexivity. Qed.

Example author_with_newline_does_not_parse :
  quote_groupdict ((lit "x" ++ [LF] ++ lit "y") ++ lit " > " ++ lit "z") = None.
Proof. vm_compute. reflexivity. Qed.

Example content_with_newline_does_not_parse :
  quote_groupdict (lit "a" ++ lit " > " ++ (lit "y" ++ [LF] ++ lit "z")) = None.
Proof. vm_compute. reflexivity. Qed.

(** C3, amended.  When [a] holds neither a separator nor a line feed and
    does not end in white space, and [c] is not empty, holds no line feed and
    does not start with white space, the body [a + " > " + c] parses to
    author [a] and content [c]. *)
Theorem parse_author_separator_content a c :
  no_lf a = true -> ~ In ">"%char a -> ends_with_space a = false ->
  c <> [] -> no_lf c = true -> starts_with_space c = false ->
  quote_groupdict (a ++ lit " > " ++ c) = Some (quote_dict a c).
Proof.
  intros Ha Hgt Hend Hc Hlf Hstart.
  change (a ++ lit " > " ++ c) with (a ++ [" "%char] ++ ">"%char :: [" "%char] ++ c).
  apply quote_groupdict_intro; auto.
  - now apply ends_with_space_last.
  - now apply starts_with_non_space.
Qed.

Lemma parse_author_separator_content_witness :
  quote_groupdict (lit "Alice" ++ lit " > " ++ lit "going fishing") =
  Some (quote_dict (lit "Alice") (lit "going fishing")).
Proof.
  apply (parse_author_separator_content (lit "Alice") (lit "going fishing")).
  - reflexivity.
  - simpl. intuition discriminate.
  - reflexivity.
  - discriminate.
  - reflexivity.
  - reflexivity.
Defined.

(** C5, as the specification words it, fails: white space after the
    separator at the very end of the body becomes the content. *)
Lemma parsed_quote_invariant_counterexample :
  ~ (forall body a c : str,
        quote_groupdict body = Some (quote_dict a c) ->
        c <> [] /\ has_non_space c = true /\ (a <> [] -> trimmed a = true)).
Proof.
  intros H.
  assert (E : quote_groupdict (lit "a > ") = Some (quote_dict (lit "a") (lit " ")))
    by (vm_compute; reflexivity).
  destruct (H _ _ _ E) as (_ & Hc & _). discriminate Hc.
Qed.

Example author_keeps_leading_space :
  quote_groupdict (lit " a > c") = Some (quote_dict (lit " a") (lit "c"))
  /\ trimmed (lit " a") = false.
Proof. split; vm_compute; reflexivity. Qed.

(** C5, amended.  A body that parses yields both groups; the content is not
    empty, holds no line feed, and starts with white space only when it is a
    single character; the author holds no line feed and does not end in white
    space, so an author that is present holds a character that is not white
    space. *)
Theorem parsed_quote_shape body d :
  quote_groupdict body = Some d ->
  exists a c,
    d = quote_dict a c /\
    c <> [] /\ no_lf c = true /\ (starts_with_space c = true -> length c = 1) /\
    no_lf a = true /\ ends_with_space a = false /\
    (a <> [] -> has_non_space a = true).
Proof.
  intros H.
  apply quote_groupdict_inv in H
    as (a & w1 & w2 & c & _ & -> & Ha & _ & _ & Hc & Hlf & Hlast & Hmax).
  exists a, c.
  assert (Hend : ends_with_space a = false) by now apply ends_with_space_last.
  repeat split; auto.
  - destruct c as [|x c']; [congruence|]. cbn [starts_with_space]. intros Hx.
    now rewrite (Hmax x c' eq_refl Hx).
  - intros Hne. now apply not_ending_in_space_has_non_space.
Qed.

Lemma parsed_quote_shape_witness :
  exists a c,
    quote_dict (lit "a") (lit " ") = quote_dict a c /\
    c <> [] /\ no_lf c = true /\ (starts_with_space c = true -> length c = 1) /\
    no_lf a = true /\ ends_with_space a = false /\
    (a <> [] -> has_non_space a = true).
Proof.
  apply (parsed_quote_shape (lit "a > ")). vm_compute. reflexivity.
Defined.

(** C9, as worded, fails: a line feed next to the separator is white space
    to the pattern, and the body parses. *)
Lemma multiline_body_counterexample :
  ~ (forall body : str, In LF body -> quote_groupdict body = None).
Proof.
  intros H. specialize (H (lit "a >" ++ [LF] ++ lit "b")).
  assert (E : quote_groupdict (lit "a >" ++ [LF] ++ lit "b") =
              Some (quote_dict (lit "a") (lit "b")))
    by (vm_compute; reflexivity).
  rewrite E in H. discriminate H. simpl. tauto.
Qed.

Example multiline_body_triggers_a_scan :
  calls (snd (on_message
                {| message_id := lit "9"; author := bob;
                   content := lit "a >" ++ [LF] ++ lit "b"; timestamp := 50%Z;
                   edited_timestamp := None |}
                (world [] true None None)))
  <> [].
Proof. vm_compute. discriminate. Qed.

(** C9, amended.  For a body that holds a line feed: either it does not
    parse, and the message handler does nothing; or it parses, and then every
    line feed sits in the white space next to the separator, never in the
    author or the content. *)
Theorem newline_only_around_separator message w :
  In LF (content message) ->
  match quote_groupdict (content message) with
  | Some d =>
      exists a w1 w2 c,
        content message = a ++ w1 ++ ">"%char :: w2 ++ c /\
        d = quote_dict a c /\
        all_space w1 = true /\ all_space w2 = true /\
        no_lf a = true /\ no_lf c = true /\
        In LF (w1 ++ w2)
  | None => on_message message w = (Ok tt, w)
  end.
Proof.
  intros Hin. destruct (quote_groupdict (content message)) as [d|] eqn:Hd.
  - apply quote_groupdict_inv in Hd
      as (a & w1 & w2 & c & E & -> & Ha & Hw1 & Hw2 & _ & Hlf & _).
    exists a, w1, w2, c. repeat split; auto.
    rewrite E in Hin. apply in_or_app.
    apply in_app_or in Hin as [Hin|Hin]; [now apply no_lf_In in Hin|].
    apply in_app_or in Hin as [Hin|[Hin|Hin]]; auto.
    + discriminate Hin.
    + apply in_app_or in Hin as [Hin|Hin]; auto. now apply no_lf_In in Hin.
  - apply fullmatch_groupdict in Hd. unfold on_message. now rewrite Hd.
Qed.

Lemma newline_only_around_separator_witness :
  match quote_groupdict (lit "a >" ++ [LF] ++ lit "b") with
  | Some d =>
      exists a w1 w2 c,
        lit "a >" ++ [LF] ++ lit "b" = a ++ w1 ++ ">"%char :: w2 ++ c /\
        d = quote_dict a c /\
        all_space w1 = true /\ all_space w2 = true /\
        no_lf a = true /\ no_lf c = true /\
        In LF (w1 ++ w2)
  | None =>
      on_message {| message_id := lit "9"; author := bob;
                    content := lit "a >" ++ [LF] ++ lit "b"; timestamp := 50%Z;
                    edited_timestamp := None |}
                 (world [] true None None)
      = (Ok tt, world [] true None None)
  end.
Proof.
  apply (newline_only_around_separator
           {| message_id := lit "9"; author := bob;
              content := lit "a >" ++ [LF] ++ lit "b"; timestamp := 50%Z;
              edited_timestamp := None |}
           (world [] true None None)).
  simpl. tauto.
Defined.

Lemma trailing_newline_never_parses s : quote_groupdict (s ++ [LF]) = None.
Proof.
  destruct (quote_groupdict (s ++ [LF])) as [d|] eqn:Hd; [exfalso|reflexivity].
  apply quote_groupdict_inv in Hd
    as (a & w1 & w2 & c & E & _ & _ & _ & _ & Hc & Hlf & _).
  destruct (exists_last Hc) as (c' & x & ->).
  replace (a ++ w1 ++ ">"%char :: w2 ++ c' ++ [x])
    with ((a ++ w1 ++ ">"%char :: w2 ++ c') ++ [x]) in E
    by (rewrite <- !app_assoc; cbn [app]; now rewrite <- !app_assoc).
  apply app_inj_tail in E as [_ <-].
  apply no_lf_In in Hlf. apply Hlf. apply in_or_app. right. now left.
Qed.

(** C10, as worded, fails: a body that starts with the separator does not
    parse when a line feed follows the first content character. *)
Lemma leading_separator_counterexample :
  ~ (forall c : str, c <> [] ->
       exists c', quote_groupdict (lit "> " ++ c) = Some (quote_dict [] c')).
Proof.
  intros H.
  assert (Hne : lit "x" ++ [LF] ++ lit "y" <> []) by discriminate.
  destruct (H _ Hne) as [c' Hc'].
  assert (E : quote_groupdict (lit "> " ++ lit "x" ++ [LF] ++ lit "y") = None)
    by (vm_compute; reflexivity).
  rewrite E in Hc'. discriminate Hc'.
Qed.

(** C10, amended.  A body made of the separator and a rest that is not
    empty and holds no line feed parses with an empty author; the content is
    the rest without the white space the pattern skips after the separator.
    The scan then applies no author check: it returns the first message of
    the window whose body contains the content, letter case ignored, whoever
    wrote it. *)
Theorem leading_separator_skips_author_check quote r w :
  content quote = ">"%char :: r -> r <> [] -> no_lf r = true ->
  exists sp c,
    r = sp ++ c /\ all_space sp = true /\ c <> [] /\
    quote_groupdict (content quote) = Some (quote_dict [] c) /\
    fst (search_message_by_quote quote w) =
    Ok (find (fun m => contains_ci (content m) c) (window quote w)).
Proof.
  intros Hbody Hr Hlf.
  destruct (re.run false true sep_tail [(0, 0)] (">"%char :: r) 0) as [mk|] eqn:Hrun.
  2:{ exfalso. revert Hrun.
      apply (sep_tail_accepts [(0, 0)] 0 [] [] r); auto. }
  pose proof Hrun as Hinv.
  apply sep_tail_inv in Hinv as (w1 & sp & c & E & Hw1 & Hsp & Hc & _ & Hmk & _).
  destruct w1 as [|x w1].
  2:{ exfalso. injection E as <- _. discriminate Hw1. }
  cbn [app] in E. injection E as E.
  assert (Hq : quote_groupdict (content quote) = Some (quote_dict [] c)).
  { rewrite Hbody. unfold quote_groupdict. rewrite fullmatch_re_quote.
    rewrite (rep_lazy_intro false re.CAny _ [] (">"%char :: r) 0 mk); auto.
    - rewrite Hmk. cbn [option_map app length]. rewrite groupdict_of_marks.
      f_equal. unfold quote_dict. f_equal. f_equal. f_equal. f_equal.
      rewrite E.
      change (">"%char :: sp ++ c) with ((">"%char :: sp) ++ c).
      rewrite <- (app_nil_r c) at 1. apply slice_middle.
      + simpl. lia.
      + simpl. rewrite !length_app. simpl. lia.
    - intros w1 w2 E' Hne. symmetry in E'. apply app_eq_nil in E' as [_ ->].
      congruence. }
  exists sp, c. repeat split; auto.
  now rewrite (search_message_by_quote_run _ _ _ _ Hq).
Qed.

Lemma leading_separator_skips_author_check_witness :
  exists sp c,
    lit " going fishing" = sp ++ c /\ all_space sp = true /\ c <> [] /\
    quote_groupdict (content (msg "300" bob "> going fishing" 30)) =
      Some (quote_dict [] c) /\
    fst (search_message_by_quote (msg "300" bob "> going fishing" 30)
           (world fishing_history true None None)) =
    Ok (find (fun m => contains_ci (content m) c)
             (window (msg "300" bob "> going fishing" 30)
                     (world fishing_history true None None))).
Proof.
  apply (leading_separator_skips_author_check
           (msg "300" bob "> going fishing" 30) (lit " going fishing")).
  - reflexivity.
  - discriminate.
  - reflexivity.
Defined.

(** ** The quote responder *)

Lemma search_ok_world quote w found :
  fst (search_message_by_quote quote w) = Ok found ->
  search_message_by_quote quote w =
  (Ok found, record (LogsFrom log_fetch_limit quote) w).
Proof.
  intros H. destruct (quote_groupdict (content quote)) as [d|] eqn:Hd.
  - pose proof Hd as Hd'.
    apply quote_groupdict_inv in Hd' as (a & w1 & w2 & c & _ & -> & _).
    rewrite (search_message_by_quote_run _ _ _ _ Hd) in *.
    cbn [fst] in H. now injection H as ->.
  - rewrite (search_message_by_quote_no_match _ _ Hd) in H. discriminate H.
Qed.

Lemma search_world quote w :
  snd (search_message_by_quote quote w) = w \/
  snd (search_message_by_quote quote w) = record (LogsFrom log_fetch_limit quote) w.
Proof.
  destruct (quote_groupdict (content quote)) as [d|] eqn:Hd.
  - pose proof Hd as Hd'.
    apply quote_groupdict_inv in Hd' as (a & w1 & w2 & c & _ & -> & _).
    rewrite (search_message_by_quote_run _ _ _ _ Hd). now right.
  - rewrite (search_message_by_quote_no_match _ _ Hd). now left.
Qed.

(** C2.  With a match found and the permission to send: the embed is sent
    first; when the send fails nothing else is tried.  After a successful
    send the quoting message is deleted; [Forbidden] from the delete is
    swallowed, leaving the embed posted and the quoting message in place;
    any other failure of the delete reaches the caller, with the embed still
    posted exactly once. *)
Theorem send_then_best_effort_delete quote quoted w :
  fst (search_message_by_quote quote w) = Ok (Some quoted) ->
  send_messages w = true ->
  let embed := create_quote_embed (author quote) quoted in
  let r := fst (quote_message quote w) in
  let w' := snd (quote_message quote w) in
  match send_failure w with
  | Some e =>
      r = Raise e /\
      calls w' = calls w ++ [LogsFrom log_fetch_limit quote; SendMessage embed] /\
      sent w' = sent w /\ history w' = history w
  | None =>
      calls w' = calls w ++ [LogsFrom log_fetch_limit quote; SendMessage embed;
                             DeleteMessage quote] /\
      sent w' = embed :: sent w /\
      match delete_failure w with
      | None => r = Ok tt /\ history w' = without quote (history w)
      | Some Forbidden => r = Ok tt /\ history w' = history w
      | Some e => r = Raise e /\ history w' = history w
      end
  end.
Proof.
  intros Hs Hperm embed r w'. subst r w'.
  apply search_ok_world in Hs.
  remember (quote_message quote w) as res eqn:E.
  unfold quote_message, bind, permissions_for_send_messages, send_message,
    try_except_pass, delete_message in E.
  rewrite Hs in E.
  cbn [send_failure record sent history calls delete_failure send_messages] in E.
  rewrite Hperm in E.
  cbn [send_failure record sent history calls delete_failure send_messages] in E.
  destruct (send_failure w) as [e|].
  - subst res. cbn -[create_quote_embed log_fetch_limit].
    rewrite <- app_assoc. auto.
  - destruct (delete_failure w) as [e|].
    + destruct e; subst res; cbn -[create_quote_embed log_fetch_limit];
        rewrite <- !app_assoc; auto.
    + subst res. cbn -[create_quote_embed log_fetch_limit].
      rewrite <- !app_assoc. auto.
Qed.

Lemma send_then_best_effort_delete_witness :
  let w := world fishing_history true None (Some Forbidden) in
  let embed := create_quote_embed bob fishing_recent in
  calls (snd (quote_message fishing_quote w)) =
    [LogsFrom log_fetch_limit fishing_quote; SendMessage embed;
     DeleteMessage fishing_quote] /\
  sent (snd (quote_message fishing_quote w)) = [embed] /\
  fst (quote_message fishing_quote w) = Ok tt /\
  history (snd (quote_message fishing_quote w)) = fishing_history.
Proof.
  intros w embed.
  assert (H1 : fst (search_message_by_quote fishing_quote w) = Ok (Some fishing_recent))
    by (vm_compute; reflexivity).
  assert (H2 : send_messages w = true) by reflexivity.
  pose proof (send_then_best_effort_delete fishing_quote fishing_recent w H1 H2) as H.
  cbv zeta in H. change (send_failure w) with (@None exn) in H.
  change (delete_failure w) with (Some Forbidden) in H.
  cbv beta iota in H. destruct H as (Hc & Hsent & Hr & Hh).
  repeat split; assumption.
Defined.

(** C7.  With a match found but no permission to send, the responder sends
    nothing and deletes nothing: apart from the history request of the scan
    the world is untouched.  And whatever the world, one invocation makes at
    most one send request and at most one delete request. *)
Theorem no_permission_no_effect quote quoted w :
  fst (search_message_by_quote quote w) = Ok (Some quoted) ->
  send_messages w = false ->
  (fst (quote_message quote w) = Ok tt /\
   calls (snd (quote_message quote w)) = calls w ++ [LogsFrom log_fetch_limit quote] /\
   sent (snd (quote_message quote w)) = sent w /\
   history (snd (quote_message quote w)) = history w) /\
  (forall w0, exists new,
      calls (snd (quote_message quote w0)) = calls w0 ++ new /\
      length (filter is_send new) <= 1 /\
      length (filter is_delete new) <= 1).
Proof.
  intros Hs Hperm. split.
  - apply search_ok_world in Hs.
    remember (quote_message quote w) as res eqn:E.
    unfold quote_message, bind, permissions_for_send_messages in E.
    rewrite Hs in E. cbn [send_messages record] in E. rewrite Hperm in E.
    subst res. now cbn.
  - intros w0. remember (quote_message quote w0) as res eqn:E.
    unfold quote_message, bind, permissions_for_send_messages, send_message,
      try_except_pass, delete_message in E.
    pose proof (search_world quote w0) as Hw.
    pose proof (search_ok_world quote w0) as Hok.
    destruct (search_message_by_quote quote w0) as [[found|e] w1].
    2:{ subst res. cbn [snd] in *. destruct Hw as [-> | ->].
        - exists []. rewrite app_nil_r. cbn. auto.
        - exists [LogsFrom log_fetch_limit quote]. cbn. auto. }
    specialize (Hok found eq_refl). injection Hok as ->.
    cbn [send_failure record sent history calls delete_failure send_messages] in E.
    destruct found as [q|].
    2:{ subst res. exists [LogsFrom log_fetch_limit quote]. cbn. auto. }
    destruct (send_messages w0).
    2:{ subst res. exists [LogsFrom log_fetch_limit quote]. cbn. auto. }
    cbn [send_failure record sent history calls delete_failure send_messages] in E.
    destruct (send_failure w0) as [e|].
    + subst res.
      exists [LogsFrom log_fetch_limit quote;
              SendMessage (create_quote_embed (author quote) q)].
      cbn -[create_quote_embed log_fetch_limit]. rewrite <- app_assoc. auto.
    + exists [LogsFrom log_fetch_limit quote;
              SendMessage (create_quote_embed (author quote) q);
              DeleteMessage quote].
      destruct (delete_failure w0) as [e|]; [destruct e|];
        subst res; cbn -[create_quote_embed log_fetch_limit];
        rewrite <- !app_assoc; auto.
Qed.

Lemma no_permission_no_effect_witness :
  let w := world fishing_history false None None in
  fst (quote_message fishing_quote w) = Ok tt /\
  calls (snd (quote_message fishing_quote w)) =
    calls w ++ [LogsFrom log_fetch_limit fishing_quote] /\
  sent (snd (quote_message fishing_quote w)) = sent w /\
  history (snd (quote_message fishing_quote w)) = history w.
Proof.
  intros w.
  assert (H1 : fst (search_message_by_quote fishing_quote w) = Ok (Some fishing_recent))
    by (vm_compute; reflexivity).
  assert (H2 : send_messages w = false) by reflexivity.
  exact (proj1 (no_permission_no_effect fishing_quote fishing_recent w H1 H2)).
Defined.

(** ** The identity matcher *)

(** What [is_same_user] answers, in the words of its three checks.  The
    first check compares the identifier with the escaped hint. *)
Lemma is_same_user_spec u hint w :
  fst (is_same_user u hint w) = Ok true <->
  startswith (user_id u) (re.escape hint) = true \/
  occurs_ci hint (user_name u ++ lit "#" ++ discriminator u) \/
  occurs_ci hint (display_name u).
Proof.
  rewrite is_same_user_run. cbn [fst]. unfold same_user.
  rewrite <- !contains_ci_spec. split.
  - intros [= H]. apply orb_prop in H as [H|H]; [|now right; right].
    apply orb_prop in H as [H|H]; [now left|now right; left].
  - intros [H|[H|H]]; rewrite H; now rewrite ?orb_true_r.
Qed.

Lemma special_backslash : re.is_special (chr 92) = true.
Proof. reflexivity. Qed.

Lemma eqb_special_plain x y :
  re.is_special x = true -> re.is_special y = false -> Ascii.eqb x y = false.
Proof.
  intros Hx Hy. apply Ascii.eqb_neq. intros ->. congruence.
Qed.

(** On an identifier without characters that [re.escape] touches, such as a
    number, escaping the hint does not change the outcome of the first
    check. *)
Lemma startswith_escape_plain hint : forall id,
  forallb (fun c => negb (re.is_special c)) id = true ->
  startswith id (re.escape hint) = startswith id hint.
Proof.
  induction hint as [|c hint IH]; intros id Hid; [reflexivity|].
  cbn [re.escape]. destruct (re.is_special c) eqn:Hc.
  - destruct id as [|y id]; [reflexivity|].
    cbn [forallb] in Hid. apply andb_prop in Hid as [Hy _].
    apply negb_true_iff in Hy. cbn [startswith].
    rewrite (eqb_special_plain _ _ special_backslash Hy).
    now rewrite (eqb_special_plain _ _ Hc Hy).
  - destruct id as [|y id]; [reflexivity|].
    cbn [forallb] in Hid. apply andb_prop in Hid as [_ Hid].
    cbn [startswith]. now rewrite IH.
Qed.

Lemma is_same_user_plain_id u hint w :
  forallb (fun c => negb (re.is_special c)) (user_id u) = true ->
  (fst (is_same_user u hint w) = Ok true <->
   startswith (user_id u) hint = true \/
   occurs_ci hint (user_name u ++ lit "#" ++ discriminator u) \/
   occurs_ci hint (display_name u)).
Proof.
  intros H. now rewrite is_same_user_spec, startswith_escape_plain.
Qed.

Example hint_is_literal_text :
  same_user alice (lit "l.c") = false /\
  same_user {| user_id := lit "1"; user_name := lit "Al.Ce"; discriminator := lit "0042";
               display_name := lit "x"; avatar_url := [] |} (lit "l.c") = true.
Proof. split; vm_compute; reflexivity. Qed.

(** Outside the identifiers of the platform: the identifier check is made
    with the escaped hint, so for an identifier [1.5] the hint [1.] is not
    recognised as its beginning. *)
Lemma is_same_user_misses_identifier_prefix :
  startswith (user_id dotted) (lit "1.") = true /\
  re.escape (lit "1.") = lit "1\." /\
  str_find (user_id dotted) (re.escape (lit "1.")) = (-1)%Z /\
  forall w, is_same_user dotted (lit "1.") w = (Ok false, w).
Proof.
  split; [reflexivity|]. split; [reflexivity|]. split; [reflexivity|].
  intros w. rewrite is_same_user_run. reflexivity.
Qed.

(** ** Further properties of the quote pattern *)

Lemma first_separator_unique (x : ascii) l1 r1 l2 r2 :
  l1 ++ x :: r1 = l2 ++ x :: r2 -> ~ In x l1 -> ~ In x l2 -> l1 = l2 /\ r1 = r2.
Proof.
  revert l2. induction l1 as [|y l1 IH]; intros l2 E H1 H2.
  - destruct l2 as [|z l2]; cbn [app] in E.
    + injection E as ->. now split.
    + injection E as <- _. exfalso. apply H2. now left.
  - destruct l2 as [|z l2]; cbn [app] in E.
    + injection E as -> _. exfalso. apply H1. now left.
    + injection E as <- E.
      destruct (IH l2 E) as [-> ->].
      * intros H. apply H1. now right.
      * intros H. apply H2. now right.
      * now split.
Qed.

Lemma all_space_no_separator w : all_space w = true -> ~ In ">"%char w.
Proof.
  unfold all_space. rewrite forallb_forall. intros H Hin.
  specialize (H _ Hin). discriminate H.
Qed.

(** Splitting a text into its part without trailing white space and the
    trailing white space. *)
Lemma rstrip_split s :
  exists a w, s = a ++ w /\ all_space w = true /\ ends_with_space a = false.
Proof.
  induction s as [|x s IH] using rev_ind.
  - now exists [], [].
  - destruct (is_space x) eqn:Hx.
    + destruct IH as (a & w & -> & Hw & Ha). exists a, (w ++ [x]).
      rewrite app_assoc. repeat split; auto.
      rewrite all_space_app, Hw. simpl. now rewrite Hx.
    + exists (s ++ [x]), []. rewrite app_nil_r. repeat split.
      unfold ends_with_space. now rewrite rev_app_distr.
Qed.

(** The general way a body parses: an author without separator, line feed
    or trailing white space, white space, the separator, and a rest that is
    not empty and holds no line feed. *)
Lemma quote_groupdict_rest a w1 rest :
  no_lf a = true -> ~ In ">"%char a -> ends_with_space a = false ->
  all_space w1 = true -> rest <> [] -> no_lf rest = true ->
  exists w2 c,
    rest = w2 ++ c /\ all_space w2 = true /\ c <> [] /\
    quote_groupdict (a ++ w1 ++ ">"%char :: rest) = Some (quote_dict a c).
Proof.
  intros Ha Hgt Hend Hw1 Hrest Hlf.
  destruct (re.run false true sep_tail [(0, 0)] (w1 ++ ">"%char :: rest) (0 + length a))
    as [mk|] eqn:Hrun.
  2:{ exfalso. revert Hrun.
      apply (sep_tail_accepts [(0, 0)] (0 + length a) w1 [] rest); auto. }
  pose proof Hrun as Hinv.
  apply sep_tail_inv in Hinv as (w1' & w2 & c & E & Hw1' & Hw2 & Hc & _ & Hmk & _).
  apply first_separator_unique in E as [<- ->]; auto using all_space_no_separator.
  exists w2, c. repeat split; auto.
  unfold quote_groupdict. rewrite fullmatch_re_quote.
  rewrite (rep_lazy_intro false re.CAny _ a (w1 ++ ">"%char :: w2 ++ c) 0 mk); auto.
  - rewrite Hmk. cbn [option_map app]. rewrite groupdict_of_marks. f_equal. f_equal.
    + rewrite <- (app_nil_l (a ++ _)). apply slice_middle; simpl; lia.
    + replace (a ++ w1 ++ ">"%char :: w2 ++ c)
        with ((a ++ w1 ++ ">"%char :: w2) ++ c ++ [])
        by (rewrite app_nil_r, <- !app_assoc; reflexivity).
      apply slice_middle.
      * rewrite !length_app. simpl. lia.
      * rewrite !length_app. simpl. rewrite !length_app. simpl. lia.
  - intros a1 a2 -> Hne.
    destruct (exists_last Hne) as (a2' & x & ->).
    rewrite ends_with_space_last in Hend. rewrite app_assoc in Hend.
    pose proof (Hend _ _ eq_refl) as Hx.
    apply sep_tail_rejects; auto.
    intros Hin. apply Hgt. apply in_or_app. now right.
Qed.

(** X1.  The bodies [re_quote] accepts as a whole are exactly those made of
    a text without line feed, white space, the separator, white space, and a
    text that is not empty and holds no line feed. *)
Theorem quote_pattern_accepts_iff body :
  re.fullmatch false re_quote body <> None <->
  exists a w1 w2 c,
    body = a ++ w1 ++ ">"%char :: w2 ++ c /\
    no_lf a = true /\ all_space w1 = true /\ all_space w2 = true /\
    c <> [] /\ no_lf c = true.
Proof.
  split.
  - intros H. destruct (quote_groupdict body) as [d|] eqn:Hd.
    + apply quote_groupdict_inv in Hd
        as (a & w1 & w2 & c & E & _ & Ha & Hw1 & Hw2 & Hc & Hlf & _).
      exists a, w1, w2, c. repeat split; auto.
    + apply fullmatch_groupdict in Hd. contradiction.
  - intros (a & w1 & w2 & c & -> & Ha & Hw1 & Hw2 & Hc & Hlf) H.
    rewrite fullmatch_re_quote in H.
    destruct (re.rep_lazy false re.CAny (re.run false true sep_tail [(0, 0)])
                (a ++ w1 ++ ">"%char :: w2 ++ c) 0) eqn:Hrun; [discriminate|].
    rewrite rep_lazy_none in Hrun. specialize (Hrun a _ eq_refl Ha).
    revert Hrun. now apply sep_tail_accepts.
Qed.

(** X2.  A body on one line is split at its first separator: the author is
    the text before it without trailing white space, the content is what
    follows it without the white space skipped after the separator, and
    later separators belong to the content. *)
Theorem single_line_splits_at_first_separator pre rest :
  no_lf pre = true -> ~ In ">"%char pre -> rest <> [] -> no_lf rest = true ->
  exists a w1 w2 c,
    pre = a ++ w1 /\ rest = w2 ++ c /\
    all_space w1 = true /\ all_space w2 = true /\
    ends_with_space a = false /\ c <> [] /\
    quote_groupdict (pre ++ ">"%char :: rest) = Some (quote_dict a c).
Proof.
  intros Hpre Hgt Hrest Hlf.
  destruct (rstrip_split pre) as (a & w1 & -> & Hw1 & Ha).
  rewrite no_lf_app in Hpre. apply andb_prop in Hpre as [Hlfa _].
  destruct (quote_groupdict_rest a w1 rest) as (w2 & c & -> & Hw2 & Hc & Hq); auto.
  { intros Hin. apply Hgt. apply in_or_app. now left. }
  exists a, w1, w2, c. repeat split; auto.
  now rewrite <- app_assoc.
Qed.

Lemma single_line_splits_at_first_separator_witness :
  exists a w1 w2 c,
    lit "Alice " = a ++ w1 /\ lit " x > y" = w2 ++ c /\
    all_space w1 = true /\ all_space w2 = true /\
    ends_with_space a = false /\ c <> [] /\
    quote_groupdict (lit "Alice " ++ ">"%char :: lit " x > y") = Some (quote_dict a c).
Proof.
  apply (single_line_splits_at_first_separator (lit "Alice ") (lit " x > y")).
  - reflexivity.
  - simpl. intuition discriminate.
  - discriminate.
  - reflexivity.
Defined.

Example single_line_example :
  quote_groupdict (lit "Alice > x > y") = Some (quote_dict (lit "Alice") (lit "x > y")).
Proof. vm_compute. reflexivity. Qed.

(** ** Further properties of the identity matcher *)

Lemma escape_app a b : re.escape (a ++ b) = re.escape a ++ re.escape b.
Proof.
  induction a as [|c a IH]; [reflexivity|]. cbn [app re.escape].
  destruct (re.is_special c); cbn [app]; now rewrite IH.
Qed.

Lemma startswith_app_l p q : forall s,
  startswith s (p ++ q) = true -> startswith s p = true.
Proof.
  induction p as [|x p IH]; intros s H; [reflexivity|].
  destruct s as [|y s]; cbn [app startswith] in *; [discriminate|].
  apply andb_prop in H as [Hxy H]. rewrite Hxy. cbn [andb]. now apply IH.
Qed.

Lemma occurs_ci_prefix h1 h2 body :
  occurs_ci (h1 ++ h2) body -> occurs_ci h1 body.
Proof.
  intros (pre & mid & post & -> & H). rewrite map_app in H.
  apply map_eq_app in H as (m1 & m2 & -> & H1 & _).
  exists pre, m1, (m2 ++ post). split; [|exact H1].
  now rewrite <- app_assoc.
Qed.

Lemma occurs_ci_whole h body :
  map tolower h = map tolower body -> occurs_ci h body.
Proof.
  intros H. exists [], body, []. split; [|now symmetry].
  now rewrite app_nil_r.
Qed.

Lemma startswith_spec p : forall s,
  startswith s p = true <-> exists rest, s = p ++ rest.
Proof.
  induction p as [|x p IH]; intros s.
  - split; [|reflexivity]. intros _. now exists s.
  - destruct s as [|y s]; cbn [startswith].
    + split; [discriminate|]. intros [rest H]. discriminate H.
    + rewrite andb_true_iff, Ascii.eqb_eq, IH. split.
      * intros [-> [rest ->]]. now exists rest.
      * intros [rest [= -> ->]]. split; [reflexivity|now exists rest].
Qed.

Lemma digit_not_special c : is_digit c = true -> re.is_special c = false.
Proof.
  destruct c as [[] [] [] [] [] [] [] []]; intros H;
    try (vm_compute in H; discriminate H); reflexivity.
Qed.

Lemma digits_plain id :
  forallb is_digit id = true ->
  forallb (fun c => negb (re.is_special c)) id = true.
Proof.
  rewrite !forallb_forall. intros H c Hc.
  now rewrite (digit_not_special c (H c Hc)).
Qed.

(** X4.  Whatever the hint, [is_same_user] returns a truth value: it never
    raises, and it leaves the world as it was.  Escaping makes every hint a
    pattern that compiles. *)
Theorem is_same_user_never_raises u hint w :
  exists b, is_same_user u hint w = (Ok b, w).
Proof. exists (same_user u hint). apply is_same_user_run. Qed.

(** X5.  The empty hint identifies every member; and a hint that
    identifies a member still does after characters are dropped from its
    end. *)
Theorem shorter_hint_still_matches u w :
  fst (is_same_user u [] w) = Ok true /\
  (forall h1 h2,
      fst (is_same_user u (h1 ++ h2) w) = Ok true ->
      fst (is_same_user u h1 w) = Ok true).
Proof.
  split.
  - apply is_same_user_spec. now left.
  - intros h1 h2 H. apply is_same_user_spec in H. apply is_same_user_spec.
    destruct H as [H|[H|H]].
    + left. rewrite escape_app in H. now apply startswith_app_l in H.
    + right. left. now apply occurs_ci_prefix in H.
    + right. right. now apply occurs_ci_prefix in H.
Qed.

Lemma shorter_hint_still_matches_witness :
  fst (is_same_user alice (lit "Ali") (world [] true None None)) = Ok true.
Proof.
  apply (proj2 (shorter_hint_still_matches alice (world [] true None None))
           (lit "Ali") (lit "ce")).
  vm_compute. reflexivity.
Defined.

(** X6.  A hint of ASCII characters that equals, letter case ignored, the
    display name of a member, or the full name made of user name, [#] and
    discriminator, identifies the member. *)
Theorem name_in_any_case_matches u hint w :
  forallb is_ascii hint = true ->
  map tolower hint = map tolower (display_name u) \/
  map tolower hint = map tolower (user_name u ++ lit "#" ++ discriminator u) ->
  fst (is_same_user u hint w) = Ok true.
Proof.
  intros _ H. apply is_same_user_spec. right.
  destruct H as [H|H]; [right|left]; now apply occurs_ci_whole.
Qed.

Lemma name_in_any_case_matches_witness :
  fst (is_same_user alice (lit "aLiCe#0042") (world [] true None None)) = Ok true.
Proof.
  apply (name_in_any_case_matches alice (lit "aLiCe#0042")).
  - reflexivity.
  - right. reflexivity.
Defined.

(** C4.  For a member of the platform, whose identifier is a decimal
    number, [is_same_user] answers, without raising and without touching the
    world, and its answer is [True] exactly when the hint is the beginning of
    the identifier, or occurs in the full name made of user name, [#] and
    discriminator, or occurs in the display name, letter case ignored in the
    two names.  The hint counts as the text it is: "occurs" is the
    occurrence of its characters one after the other, whatever they mean in
    a pattern. *)
Theorem identity_matcher_three_checks u hint w :
  forallb is_digit (user_id u) = true ->
  exists answer,
    is_same_user u hint w = (Ok answer, w) /\
    (answer = true <->
     (exists rest, user_id u = hint ++ rest) \/
     occurs_ci hint (user_name u ++ lit "#" ++ discriminator u) \/
     occurs_ci hint (display_name u)).
Proof.
  intros Hid. exists (same_user u hint). split; [apply is_same_user_run|].
  unfold same_user.
  rewrite (startswith_escape_plain hint _ (digits_plain _ Hid)).
  now rewrite !orb_true_iff, !contains_ci_spec, startswith_spec, or_assoc.
Qed.

Lemma identity_matcher_three_checks_witness :
  exists answer,
    is_same_user alice (lit "l.c") (world [] true None None)
      = (Ok answer, world [] true None None) /\
    (answer = true <->
     (exists rest, user_id alice = lit "l.c" ++ rest) \/
     occurs_ci (lit "l.c") (user_name alice ++ lit "#" ++ discriminator alice) \/
     occurs_ci (lit "l.c") (display_name alice)).
Proof.
  apply (identity_matcher_three_checks alice (lit "l.c")). reflexivity.
Defined.

(** X7.  For a member whose identifier is a number, [is_same_user] answers
    [True] exactly when the hint is the beginning of the identifier, or
    occurs in the full name, or occurs in the display name, letter case
    ignored in the names. *)
Theorem is_same_user_on_numeric_ids u hint w :
  forallb is_digit (user_id u) = true ->
  (fst (is_same_user u hint w) = Ok true <->
   startswith (user_id u) hint = true \/
   occurs_ci hint (user_name u ++ lit "#" ++ discriminator u) \/
   occurs_ci hint (display_name u)).
Proof.
  intros H. rewrite is_same_user_spec, startswith_escape_plain; [reflexivity|].
  now apply digits_plain.
Qed.

Lemma is_same_user_on_numeric_ids_witness :
  fst (is_same_user alice (lit "8035") (world [] true None None)) = Ok true <->
  startswith (user_id alice) (lit "8035") = true \/
  occurs_ci (lit "8035") (user_name alice ++ lit "#" ++ discriminator alice) \/
  occurs_ci (lit "8035") (display_name alice).
Proof.
  apply (is_same_user_on_numeric_ids alice (lit "8035")). reflexivity.
Defined.

(** ** Further properties of the scan *)

Lemma contains_ci_fragment_case body c1 c2 :
  map tolower c1 = map tolower c2 -> contains_ci body c1 = contains_ci body c2.
Proof.
  intros H.
  assert (E : contains_ci body c1 = true <-> contains_ci body c2 = true).
  { rewrite !contains_ci_spec. unfold occurs_ci. now rewrite H. }
  destruct (contains_ci body c1), (contains_ci body c2); try reflexivity.
  - symmetry. now apply E.
  - now apply E.
Qed.

Lemma find_pointwise {A} (f g : A -> bool) l :
  (forall x, f x = g x) -> find f l = find g l.
Proof.
  intros H. induction l as [|x l IH]; [reflexivity|].
  cbn [find]. now rewrite H, IH.
Qed.

(** X8.  The letter case of a quoted text of ASCII characters does not
    matter: two quoting messages of the same time with the same author text,
    whose contents are ASCII and differ in letter case only, make the scan
    return the same message. *)
Theorem scan_ignores_case_of_quote q1 q2 a c1 c2 w :
  quote_groupdict (content q1) = Some (quote_dict a c1) ->
  quote_groupdict (content q2) = Some (quote_dict a c2) ->
  forallb is_ascii c1 = true -> forallb is_ascii c2 = true ->
  map tolower c1 = map tolower c2 ->
  timestamp q1 = timestamp q2 ->
  fst (search_message_by_quote q1 w) = fst (search_message_by_quote q2 w).
Proof.
  intros H1 H2 _ _ Hc Ht.
  rewrite (search_message_by_quote_run _ _ _ _ H1),
          (search_message_by_quote_run _ _ _ _ H2).
  cbn [fst]. unfold window, older_than. rewrite Ht. f_equal.
  apply find_pointwise. intros m. unfold candidate_ok.
  now rewrite (contains_ci_fragment_case _ _ _ Hc).
Qed.

Lemma scan_ignores_case_of_quote_witness :
  fst (search_message_by_quote (msg "300" bob "Alice > GOING Fishing" 30)
         (world fishing_history true None None)) =
  fst (search_message_by_quote fishing_quote (world fishing_history true None None)).
Proof.
  apply (scan_ignores_case_of_quote (msg "300" bob "Alice > GOING Fishing" 30)
           fishing_quote (lit "Alice") (lit "GOING Fishing") (lit "going fishing")).
  - vm_compute. reflexivity.
  - vm_compute. reflexivity.
  - reflexivity.
  - reflexivity.
  - reflexivity.
  - reflexivity.
Defined.

(** The scan on the platform with its failures. *)
Lemma full_search_run quote a c p :
  quote_groupdict (content quote) = Some (quote_dict a c) ->
  full.search_message_by_quote quote p =
  match full.history_failure p with
  | Some e =>
      (Raise e,
       full.with_world p (record (LogsFrom log_fetch_limit quote) (full.world p)))
  | None =>
      (Ok (find (candidate_ok a c) (window quote (full.world p))),
       full.with_world p (record (LogsFrom log_fetch_limit quote) (full.world p)))
  end.
Proof.
  intros H. pose proof (search_message_by_quote_run quote a c (full.world p) H) as R.
  unfold search_message_by_quote in R. unfold full.search_message_by_quote.
  destruct (re.fullmatch false re_quote (content quote)) as [mo|].
  - unfold full.bind, full.logs_from.
    destruct (full.history_failure p) as [e|] eqn:Hf; [reflexivity|].
    unfold bind, logs_from in R. unfold full.lift, logs_from.
    cbn [full.world full.with_world].
    destruct (search_loop _ _ _) as [r w']. injection R as -> ->. reflexivity.
  - discriminate R.
Qed.

Lemma full_search_no_match quote p :
  quote_groupdict (content quote) = None ->
  full.search_message_by_quote quote p = (Raise AttributeError, p).
Proof.
  intros H. apply fullmatch_groupdict in H. unfold full.search_message_by_quote.
  now rewrite H.
Qed.

(** X9.  What the scan does to the platform: on a body that is not a quote
    it raises [AttributeError] before any request is made; on a quote it
    makes the one history request, for [log_fetch_limit] messages before the
    quote.  When the platform fails that request the scan ends with the
    exception of the platform; otherwise it returns normally, with a message
    of the channel older than the quote or with [None]. *)
Theorem scan_requests_and_failures quote p :
  match quote_groupdict (content quote) with
  | None => full.search_message_by_quote quote p = (Raise AttributeError, p)
  | Some _ =>
      let p' :=
        full.with_world p (record (LogsFrom log_fetch_limit quote) (full.world p)) in
      match full.history_failure p with
      | Some e => full.search_message_by_quote quote p = (Raise e, p')
      | None =>
          exists found,
            full.search_message_by_quote quote p = (Ok found, p') /\
            forall m, found = Some m ->
                      In m (history (full.world p)) /\
                      (timestamp m < timestamp quote)%Z
      end
  end.
Proof.
  destruct (quote_groupdict (content quote)) as [d|] eqn:Hd.
  - pose proof Hd as Hd'.
    apply quote_groupdict_inv in Hd' as (a & w1 & w2 & c & _ & -> & _).
    cbv zeta. rewrite (full_search_run _ _ _ _ Hd).
    destruct (full.history_failure p) as [e|]; [reflexivity|].
    eexists. split; [reflexivity|]. intros m Hm.
    apply find_some in Hm as [Hin _]. split.
    + apply In_firstn in Hin. now apply filter_In in Hin as [Hin _].
    + now apply (window_older quote (full.world p)).
  - now apply full_search_no_match.
Qed.

(** ** Further properties of the responder *)

(** Runs [quote_message quote w] symbolically: one goal for a body that is
    not a quote, and one for each way the platform can answer a quote. *)
Ltac quote_message_cases quote w :=
  let res := fresh "res" in
  let E := fresh "E" in
  let Hd := fresh "Hd" in
  let Hd' := fresh "Hd'" in
  remember (quote_message quote w) as res eqn:E;
  unfold quote_message, bind, permissions_for_send_messages, send_message,
    try_except_pass, delete_message in E;
  destruct (quote_groupdict (content quote)) as [?d|] eqn:Hd;
  [ pose proof Hd as Hd';
    apply quote_groupdict_inv in Hd' as (?a & ?w1 & ?w2 & ?c & _ & -> & _);
    rewrite (search_message_by_quote_run _ _ _ _ Hd) in E;
    cbn [send_failure record sent history calls delete_failure send_messages] in E;
    destruct (find _ (window quote w)) as [?m|] eqn:?Hfind;
    [ destruct (send_messages w) eqn:?Hperm;
      [ cbn [send_failure record sent history calls delete_failure send_messages] in E;
        destruct (send_failure w) as [?e|] eqn:?Hsend;
        [ | destruct (delete_failure w) as [[]|] eqn:?Hdel ]
      | ]
    | ]
  | rewrite (search_message_by_quote_no_match _ _ Hd) in E ];
  subst res; cbn -[create_quote_embed log_fetch_limit window].

Lemma cons_neq {A} (x : A) l : x :: l <> l.
Proof.
  intros H. apply (f_equal (@length A)) in H. simpl in H. lia.
Qed.

(** The responder on the platform with its failures, in terms of the
    responder of the first model: they part where the history request fails
    and where the member object of the bot is missing. *)
Lemma full_quote_message_run quote p :
  full.quote_message quote p =
  match quote_groupdict (content quote) with
  | None => (Raise AttributeError, p)
  | Some _ =>
      let p' :=
        full.with_world p (record (LogsFrom log_fetch_limit quote) (full.world p)) in
      match full.history_failure p with
      | Some e => (Raise e, p')
      | None =>
          if full.bot_member_found p then full.lift (quote_message quote) p
          else (Raise AttributeError, p')
      end
  end.
Proof.
  unfold full.quote_message at 1. unfold full.bind at 1.
  destruct (quote_groupdict (content quote)) as [d|] eqn:Hd.
  - pose proof Hd as Hd'.
    apply quote_groupdict_inv in Hd' as (a & w1 & w2 & c & _ & -> & _).
    rewrite (full_search_run _ _ _ _ Hd). cbv zeta.
    destruct (full.history_failure p) as [e|]; [reflexivity|].
    unfold full.bind, full.permissions_for_send_messages.
    cbn [full.bot_member_found full.with_world].
    destruct (full.bot_member_found p) eqn:Hb; [|reflexivity].
    unfold full.lift at 1, permissions_for_send_messages at 1.
    cbn [full.world full.with_world full.bot_member_found full.history_failure].
    unfold full.lift at 3. unfold quote_message, bind at 1.
    rewrite (search_message_by_quote_run _ _ _ _ Hd).
    unfold bind at 1, permissions_for_send_messages.
    destruct (find _ _) as [m|]; [|unfold full.ret, ret, full.with_world; now rewrite Hb].
    cbn [send_messages record].
    destruct (send_messages (full.world p)); [|unfold full.ret, ret, full.with_world; now rewrite Hb].
    unfold full.try_except_pass, try_except_pass, full.lift, bind.
    cbn [full.world full.with_world full.bot_member_found full.history_failure].
    destruct (send_message _ _) as [[[]|e] w']; [|unfold full.with_world; now rewrite Hb].
    destruct (delete_message _ _) as [[[]|e] w'']; [unfold full.with_world; now rewrite Hb|].
    destruct (is_forbidden e); unfold full.with_world; now rewrite Hb.
  - now rewrite (full_search_no_match _ _ Hd).
Qed.

(** X10.  The exceptions [quote_message] can end with: [AttributeError]
    when the body is not a quote; whatever the history request raised;
    [AttributeError] when the member object of the bot is missing, as in a
    direct message; whatever sending the embed raised, [Forbidden] included;
    and whatever deleting the quoting message raised, except [Forbidden]. *)
Theorem quote_message_failures quote p e :
  fst (full.quote_message quote p) = Raise e ->
  (quote_groupdict (content quote) = None /\ e = AttributeError) \/
  full.history_failure p = Some e \/
  (full.bot_member_found p = false /\ e = AttributeError) \/
  send_failure (full.world p) = Some e \/
  (send_failure (full.world p) = None /\
   delete_failure (full.world p) = Some e /\ e <> Forbidden).
Proof.
  rewrite full_quote_message_run.
  destruct (quote_groupdict (content quote)) as [d|] eqn:Hd0;
    [|intros [= <-]; now left].
  cbv zeta. destruct (full.history_failure p) as [e'|];
    [intros [= <-]; right; now left|].
  destruct (full.bot_member_found p); [|intros [= <-]; right; right; now left].
  unfold full.lift. destruct (quote_message quote (full.world p)) as [r w'] eqn:Hq.
  cbn [fst]. intros ->.
  assert (H : fst (quote_message quote (full.world p)) = Raise e) by now rewrite Hq.
  clear Hq. revert H.
  quote_message_cases quote (full.world p); intros H; try discriminate H;
    try congruence; injection H as <-; auto;
    right; right; right; right; repeat split; auto; discriminate.
Qed.

Lemma quote_message_failures_witness :
  (quote_groupdict (content fishing_quote) = None /\ HTTPException = AttributeError) \/
  full.history_failure
    (platform (world fishing_history true None None) (Some HTTPException) true)
    = Some HTTPException \/
  (full.bot_member_found
     (platform (world fishing_history true None None) (Some HTTPException) true)
     = false /\ HTTPException = AttributeError) \/
  send_failure
    (full.world (platform (world fishing_history true None None) (Some HTTPException) true))
    = Some HTTPException \/
  (send_failure
     (full.world (platform (world fishing_history true None None) (Some HTTPException) true))
     = None /\
   delete_failure
     (full.world (platform (world fishing_history true None None) (Some HTTPException) true))
     = Some HTTPException /\
   HTTPException <> Forbidden).
Proof.
  apply (quote_message_failures fishing_quote
           (platform (world fishing_history true None None) (Some HTTPException) true)
           HTTPException).
  vm_compute. reflexivity.
Defined.

(** X11.  The message handler first checks that the body is a quote, so it
    never ends with the [AttributeError] of the scan: an exception of
    [on_message] is one the platform raised on the history request, the
    [AttributeError] of the missing member object of the bot, one the
    platform raised on sending, or one it raised on deleting, other than
    [Forbidden]. *)
Theorem on_message_failures message p e :
  fst (full.on_message message p) = Raise e ->
  full.history_failure p = Some e \/
  (full.bot_member_found p = false /\ e = AttributeError) \/
  send_failure (full.world p) = Some e \/
  (send_failure (full.world p) = None /\
   delete_failure (full.world p) = Some e /\ e <> Forbidden).
Proof.
  unfold full.on_message.
  destruct (re.fullmatch false re_quote (content message)) as [mo|] eqn:Hm;
    [|discriminate].
  assert (Hq : quote_groupdict (content message) <> None).
  { unfold quote_groupdict. rewrite Hm. discriminate. }
  rewrite full_quote_message_run.
  destruct (quote_groupdict (content message)) as [d|] eqn:Hd0; [|congruence].
  cbv zeta. destruct (full.history_failure p) as [e'|];
    [intros [= <-]; now left|].
  destruct (full.bot_member_found p); [|intros [= <-]; right; now left].
  unfold full.lift.
  destruct (quote_message message (full.world p)) as [r w'] eqn:Hq'.
  cbn [fst]. intros ->.
  assert (H : fst (quote_message message (full.world p)) = Raise e) by now rewrite Hq'.
  clear Hq' Hq. revert H.
  quote_message_cases message (full.world p); intros H; try discriminate H;
    try congruence; injection H as <-; auto;
    right; right; right; repeat split; auto; discriminate.
Qed.

Lemma on_message_failures_witness :
  full.history_failure
    (platform (world fishing_history true None None) None false) = Some AttributeError \/
  (full.bot_member_found
     (platform (world fishing_history true None None) None false) = false /\
   AttributeError = AttributeError) \/
  send_failure
    (full.world (platform (world fishing_history true None None) None false))
    = Some AttributeError \/
  (send_failure
     (full.world (platform (world fishing_history true None None) None false)) = None /\
   delete_failure
     (full.world (platform (world fishing_history true None None) None false))
     = Some AttributeError /\
   AttributeError <> Forbidden).
Proof.
  apply (on_message_failures fishing_quote
           (platform (world fishing_history true None None) None false)
           AttributeError).
  vm_compute. reflexivity.
Defined.

(** X12.  The only change [quote_message] ever makes to the channel is the
    removal of the quoting message, and it posts at most one embed: the
    history afterwards is the history before, with or without the quoting
    message, and the embeds posted before are all still there. *)
Theorem quote_message_touches_only_the_quote quote w :
  (history (snd (quote_message quote w)) = history w \/
   history (snd (quote_message quote w)) = without quote (history w)) /\
  (sent (snd (quote_message quote w)) = sent w \/
   exists embed, sent (snd (quote_message quote w)) = embed :: sent w).
Proof.
  quote_message_cases quote w; split; auto; right; eexists; reflexivity.
Qed.

(** X13.  Whatever [quote_message] posts is a real quotation: a new embed
    is the embed of a message of the window that passes both checks, so its
    description is the body of an older message of the channel in which the
    quoted text occurs, and the bot had the permission to send. *)
Theorem posted_embed_quotes_a_match quote w embed :
  sent (snd (quote_message quote w)) = embed :: sent w ->
  exists a c m,
    quote_groupdict (content quote) = Some (quote_dict a c) /\
    In m (window quote w) /\ passes a c m /\
    embed = create_quote_embed (author quote) m /\
    occurs_ci c (description embed) /\
    send_messages w = true.
Proof.
  quote_message_cases quote w; intros H;
    try (symmetry in H; now apply cons_neq in H);
    injection H as <-;
    match goal with
    | Hf : find _ _ = Some ?m |- _ =>
        apply find_some in Hf as [Hin Hok]; apply candidate_ok_spec in Hok;
        eexists _, _, m; repeat split; eauto; apply Hok
    end.
Qed.

Lemma posted_embed_quotes_a_match_witness :
  exists a c m,
    quote_groupdict (content fishing_quote) = Some (quote_dict a c) /\
    In m (window fishing_quote (world fishing_history true None None)) /\
    passes a c m /\
    create_quote_embed bob fishing_recent = create_quote_embed (author fishing_quote) m /\
    occurs_ci c (description (create_quote_embed bob fishing_recent)) /\
    send_messages (world fishing_history true None None) = true.
Proof.
  apply (posted_embed_quotes_a_match fishing_quote
           (world fishing_history true None None)
           (create_quote_embed bob fishing_recent)).
  vm_compute. reflexivity.
Defined.

(** X14.  When the scan finds nothing, the history request is all that
    happens, permission or not: nothing is sent and nothing is deleted, and
    [quote_message] returns normally, unless the member object of the bot is
    missing, as in a direct message, where it ends with [AttributeError]. *)
Theorem no_match_nothing_sent quote p :
  fst (full.search_message_by_quote quote p) = Ok None ->
  full.quote_message quote p =
  ((if full.bot_member_found p then Ok tt else Raise AttributeError),
   full.with_world p (record (LogsFrom log_fetch_limit quote) (full.world p))).
Proof.
  intros H. rewrite full_quote_message_run.
  destruct (quote_groupdict (content quote)) as [d|] eqn:Hd.
  - pose proof Hd as Hd'.
    apply quote_groupdict_inv in Hd' as (a & w1 & w2 & c & _ & -> & _).
    rewrite (full_search_run _ _ _ _ Hd) in H. cbv zeta.
    destruct (full.history_failure p) as [e|]; [discriminate H|].
    cbn [fst] in H. injection H as H.
    destruct (full.bot_member_found p); [|reflexivity].
    unfold full.lift, quote_message, bind, permissions_for_send_messages.
    rewrite (search_message_by_quote_run _ _ _ _ Hd), H. reflexivity.
  - rewrite (full_search_no_match _ _ Hd) in H. discriminate H.
Qed.

Lemma no_match_nothing_sent_witness :
  full.quote_message (msg "300" alice "Bob > secret plan" 30)
    (platform (world fishing_history true None None) None false) =
  ((if full.bot_member_found
         (platform (world fishing_history true None None) None false)
    then Ok tt else Raise AttributeError),
   full.with_world (platform (world fishing_history true None None) None false)
     (record (LogsFrom log_fetch_limit (msg "300" alice "Bob > secret plan" 30))
        (full.world (platform (world fishing_history true None None) None false)))).
Proof.
  apply (no_match_nothing_sent (msg "300" alice "Bob > secret plan" 30)).
  vm_compute. reflexivity.
Defined.

(** In a direct message the bot never answers a quote: the member
    object of the bot is missing there, so after the history request
    [on_message] ends with [AttributeError], whether or not the scan found
    the quoted message; nothing is sent and nothing is deleted. *)
Theorem direct_message_never_answered message p :
  full.bot_member_found p = false ->
  full.history_failure p = None ->
  quote_groupdict (content message) <> None ->
  full.on_message message p =
  (Raise AttributeError,
   full.with_world p (record (LogsFrom log_fetch_limit message) (full.world p))).
Proof.
  intros Hb Hf Hq. unfold full.on_message.
  destruct (re.fullmatch false re_quote (content message)) as [mo|] eqn:Hm.
  - rewrite full_quote_message_run.
    destruct (quote_groupdict (content message)); [|congruence].
    cbv zeta. now rewrite Hf, Hb.
  - exfalso. apply Hq. unfold quote_groupdict. now rewrite Hm.
Qed.

Example direct_message_example :
  full.on_message fishing_quote
    (platform (world fishing_history true None None) None false) =
  (Raise AttributeError,
   full.with_world (platform (world fishing_history true None None) None false)
     (record (LogsFrom log_fetch_limit fishing_quote)
        (full.world (platform (world fishing_history true None None) None false)))).
Proof.
  apply (direct_message_never_answered fishing_quote
           (platform (world fishing_history true None None) None false)).
  - reflexivity.
  - reflexivity.
  - vm_compute. discriminate.
Qed.

(** X15.  The footer of an embed does not tell an edited message from a
    display name that ends in [. Edited]: the embed of an edited message
    quoted by a user is the embed of the same message, not edited, quoted by
    a user whose display name has [. Edited] appended. *)
Theorem edited_flag_can_be_imitated quoting_user quote edited :
  edited_timestamp quote = Some edited ->
  create_quote_embed quoting_user quote =
  create_quote_embed
    {| user_id := user_id quoting_user; user_name := user_name quoting_user;
       discriminator := discriminator quoting_user;
       display_name := display_name quoting_user ++ lit ". Edited";
       avatar_url := avatar_url quoting_user |}
    {| message_id := message_id quote; author := author quote;
       content := content quote; timestamp := timestamp quote;
       edited_timestamp := None |}.
Proof.
  intros H. unfold create_quote_embed. rewrite H.
  cbn [edited_timestamp display_name avatar_url author content timestamp].
  f_equal. rewrite <- !app_assoc. reflexivity.
Qed.

Lemma edited_flag_can_be_imitated_witness :
  create_quote_embed bob
    {| message_id := lit "200"; author := alice; content := lit "going fishing";
       timestamp := 20%Z; edited_timestamp := Some 25%Z |} =
  create_quote_embed
    {| user_id := user_id bob; user_name := user_name bob;
       discriminator := discriminator bob;
       display_name := display_name bob ++ lit ". Edited";
       avatar_url := avatar_url bob |}
    {| message_id := lit "200"; author := alice; content := lit "going fishing";
       timestamp := 20%Z; edited_timestamp := None |}.
Proof.
  apply (edited_flag_can_be_imitated bob
           {| message_id := lit "200"; author := alice; content := lit "going fishing";
              timestamp := 20%Z; edited_timestamp := Some 25%Z |} 25%Z).
  reflexivity.
Defined.

(** ** Posting the server count *)

(** Runs a program of the client symbolically, splitting on every lookup,
    truth value and failure it meets. *)
Ltac host_red :=
  cbv beta iota;
  cbn [fst snd host.servers host.self_user_id host.config host.stdout
       host.requests host.presences host.geturl host.url_error].

Ltac host_unfold :=
  unfold host.on_ready, host.on_server_join, host.on_server_remove,
    host.post_server_count, py.bind, host.get_servers, host.get_user_id,
    host.config_getitem, host.config_contains, host.urlopen, host.print,
    host.change_presence, py.ret.

Ltac run_host :=
  host_unfold;
  repeat (host_red;
          match goal with
          | H : re.getitem ?d ?k = _ |- context [re.getitem ?d ?k] => rewrite H
          | H : py.truth ?v = _ |- context [py.truth ?v] => rewrite H
          | H : host.url_error ?h ?r = _ |- context [host.url_error ?h ?r] =>
              rewrite H
          | |- context [match re.getitem ?d ?k with _ => _ end] =>
              let E := fresh "Hkey" in destruct (re.getitem d k) eqn:E
          | |- context [if py.truth ?v then _ else _] =>
              let E := fresh "Htruth" in destruct (py.truth v) eqn:E
          | |- context [if host.url_error ?h ?r then _ else _] =>
              let E := fresh "Hfail" in destruct (host.url_error h r) eqn:E
          end);
  host_red.

(** X16.  With both tokens present and empty (or otherwise false),
    [post_server_count] makes no request and changes nothing. *)
Theorem no_tokens_no_requests h org pw :
  re.getitem (host.config h) (lit "discordbots_org_token") = Some org ->
  re.getitem (host.config h) (lit "bots_discord_pw_token") = Some pw ->
  py.truth org = false -> py.truth pw = false ->
  host.post_server_count h = (py.Return tt, h).
Proof.
  intros Horg Hpw Ho Hp. host_unfold.
  repeat (host_red; rewrite ?Horg, ?Hpw, ?Ho, ?Hp). reflexivity.
Qed.

Lemma no_tokens_no_requests_witness :
  let cfg := [(lit "discordbots_org_token", py.VStr []);
              (lit "bots_discord_pw_token", py.VStr [])] in
  host.post_server_count (sample_host cfg (fun _ => false)) =
  (py.Return tt, sample_host cfg (fun _ => false)).
Proof.
  intros cfg.
  apply (no_tokens_no_requests (sample_host cfg (fun _ => false)) (py.VStr []) (py.VStr []));
    reflexivity.
Defined.

(** X17.  The two sites are served one after the other with nothing caught
    in between: when the first request to discordbots.org fails,
    [post_server_count] ends with that error after this one request, and
    bots.discord.pw is not contacted, whatever its token. *)
Theorem failure_at_first_site_skips_second h org :
  re.getitem (host.config h) (lit "discordbots_org_token") = Some org ->
  py.truth org = true ->
  host.url_error h (host.new_request (host.discordbots_org_url (host.self_user_id h))) = true ->
  fst (host.post_server_count h) = py.Throw py.URLError /\
  host.requests (snd (host.post_server_count h)) =
  host.requests h ++ [host.new_request (host.discordbots_org_url (host.self_user_id h))].
Proof.
  intros Horg Ho Hfail. host_unfold.
  repeat (host_red; rewrite ?Horg, ?Ho, ?Hfail). now split.
Qed.

Lemma failure_at_first_site_skips_second_witness :
  let h := sample_host full_config (fun _ => true) in
  fst (host.post_server_count h) = py.Throw py.URLError /\
  host.requests (snd (host.post_server_count h)) =
  host.requests h ++ [host.new_request (host.discordbots_org_url (host.self_user_id h))].
Proof.
  intros h.
  apply (failure_at_first_site_skips_second h (py.VStr (lit "tok-org")));
    reflexivity.
Defined.

(** X18.  A configuration without the key [bots_discord_pw_token] makes
    [post_server_count] end with [KeyError] for that key, but only after
    discordbots.org has been served: with a token for it that is set and
    requests that succeed, the two requests to that site have been made. *)
Theorem missing_second_key_fails_late h org :
  re.getitem (host.config h) (lit "discordbots_org_token") = Some org ->
  re.getitem (host.config h) (lit "bots_discord_pw_token") = None ->
  (forall r, host.url_error h r = false) ->
  fst (host.post_server_count h) = py.Throw (py.KeyError (lit "bots_discord_pw_token")) /\
  length (host.requests (snd (host.post_server_count h))) =
  length (host.requests h) + (if py.truth org then 2 else 0).
Proof.
  intros Horg Hpw Hok. host_unfold.
  destruct (py.truth org) eqn:Ho;
    repeat (host_red; rewrite ?Horg, ?Hpw, ?Ho, ?Hok);
    (split; [reflexivity|]); rewrite ?length_app; simpl; lia.
Qed.

Lemma missing_second_key_fails_late_witness :
  let h := sample_host [(lit "discordbots_org_token", py.VStr (lit "tok-org"))]
                       (fun _ => false) in
  fst (host.post_server_count h) = py.Throw (py.KeyError (lit "bots_discord_pw_token")) /\
  length (host.requests (snd (host.post_server_count h))) =
  length (host.requests h) + (if py.truth (py.VStr (lit "tok-org")) then 2 else 0).
Proof.
  intros h.
  apply (missing_second_key_fails_late h (py.VStr (lit "tok-org"))); reflexivity.
Defined.

(** X19.  Each token is sent to its own site only.  Among the requests
    [post_server_count] makes, one that carries an [Authorization] header
    either carries the discordbots.org token and is the post to the address
    discordbots.org redirected to, or carries the bots.discord.pw token and
    goes to the bots.discord.pw address or to where that one redirected. *)
Theorem tokens_go_to_their_own_site h :
  exists new,
    host.requests (snd (host.post_server_count h)) = host.requests h ++ new /\
    forall r v,
      In r new ->
      re.getitem (host.headers r) (lit "Authorization") = Some v ->
      (re.getitem (host.config h) (lit "discordbots_org_token") = Some v /\
       host.full_url r =
         host.geturl h (host.new_request (host.discordbots_org_url (host.self_user_id h))) /\
       host.data r <> None) \/
      (re.getitem (host.config h) (lit "bots_discord_pw_token") = Some v /\
       let first :=
         host.add_header (host.new_request (host.bots_discord_pw_url (host.self_user_id h)))
                         (lit "Authorization") v in
       (r = first \/ (host.full_url r = host.geturl h first /\ host.data r <> None))).
Proof.
  run_host; rewrite <- ?app_assoc;
    (eexists; split; [try reflexivity; symmetry; apply app_nil_r|]);
    intros req val Hin Hv; cbn [app In] in Hin;
    repeat (destruct Hin as [<-|Hin]; [|]); try contradiction;
    try discriminate Hv;
    injection Hv as <-;
    try (left; split; [first [assumption|reflexivity]
                      |split; [reflexivity|discriminate]]);
    right; (split; [first [assumption|reflexivity]|]); cbv zeta;
    try (left; reflexivity);
    right; (split; [reflexivity|discriminate]).
Qed.

Lemma post_server_count_frame h :
  host.stdout (snd (host.post_server_count h)) = host.stdout h /\
  host.config (snd (host.post_server_count h)) = host.config h /\
  host.servers (snd (host.post_server_count h)) = host.servers h /\
  host.presences (snd (host.post_server_count h)) = host.presences h.
Proof. run_host; repeat split. Qed.

(** X20.  [post_server_count] makes at most four requests, and whatever it
    posts is the JSON object that tells the current number of servers. *)
Theorem posts_carry_the_server_count h :
  exists new,
    host.requests (snd (host.post_server_count h)) = host.requests h ++ new /\
    length new <= 4 /\
    forall r, In r new ->
      host.data r = None \/
      host.data r = Some (lit "{" ++ [chr 34] ++ lit "server_count" ++ [chr 34]
                          ++ lit ": " ++ py.decimal (length (host.servers h))
                          ++ lit "}").
Proof.
  run_host; rewrite <- ?app_assoc;
    (eexists; split; [try reflexivity; symmetry; apply app_nil_r|]);
    (split; [simpl; lia|]);
    intros req Hin; cbn [app In] in Hin;
    repeat (destruct Hin as [<-|Hin]; [|]); try contradiction;
    first [left; reflexivity | right; reflexivity].
Qed.

Example count_json_of_two :
  host.count_json 2 = lit "{" ++ [chr 34] ++ lit "server_count" ++ [chr 34] ++ lit ": 2}".
Proof. reflexivity. Qed.

(** ** The listeners *)

Lemma print_servers_run ss : forall h,
  host.print_servers ss h =
  (py.Return tt,
   {| host.servers := host.servers h; host.self_user_id := host.self_user_id h;
      host.config := host.config h;
      host.stdout :=
        host.stdout h
        ++ map (fun s => host.server_id s ++ lit " - " ++ host.server_name s) ss;
      host.requests := host.requests h; host.presences := host.presences h;
      host.geturl := host.geturl h; host.url_error := host.url_error h |}).
Proof.
  induction ss as [|s ss IH]; intros h.
  - cbn [host.print_servers map]. rewrite app_nil_r. now destruct h.
  - cbn [host.print_servers]. unfold py.bind, host.print at 1.
    rewrite IH. cbn [host.servers host.self_user_id host.config host.stdout
                     host.requests host.presences host.geturl host.url_error map].
    now rewrite <- app_assoc.
Qed.

(** X21.  When [on_ready] returns, it has printed the ready line, the
    number of servers, one line for each server if [server_list] is set
    (none otherwise) and an empty line; and it has set the presence to the
    value of the key [presence] whenever the configuration has that key,
    an empty text included. *)
Theorem on_ready_output h :
  fst (host.on_ready h) = py.Return tt ->
  exists server_list,
    re.getitem (host.config h) (lit "server_list") = Some server_list /\
    host.stdout (snd (host.on_ready h)) =
      host.stdout h
      ++ [lit "ParrotBot is ready.";
          [LF] ++ lit "Connected Servers: " ++ py.decimal (length (host.servers h))]
      ++ (if py.truth server_list
          then map (fun s => host.server_id s ++ lit " - " ++ host.server_name s)
                   (host.servers h)
          else [])
      ++ [[]] /\
    host.presences (snd (host.on_ready h)) =
      host.presences h
      ++ match re.getitem (host.config h) (lit "presence") with
         | Some name => [name]
         | None => []
         end.
Proof.
  unfold host.on_ready, py.bind, host.get_servers, host.config_getitem,
    host.config_contains, host.print, host.change_presence, py.ret, py.contains.
  host_red.
  destruct (re.getitem (host.config h) (lit "server_list")) as [sl|] eqn:Hsl;
    [|discriminate].
  destruct (py.truth sl) eqn:Htruth;
    [rewrite print_servers_run|]; host_red;
    match goal with
    | |- context [host.post_server_count ?x] =>
        pose proof (post_server_count_frame x) as (Hout & Hcfg & Hss & Hpr);
        destruct (host.post_server_count x) as [[[]|e] h'] eqn:Hpost
    end; host_red; try discriminate;
    intros _; exists sl; (split; [reflexivity|]);
    cbn [fst snd host.config host.stdout host.presences] in *;
    rewrite Hcfg;
    destruct (re.getitem (host.config h) (lit "presence")) as [name|] eqn:Hp;
    repeat (host_red; rewrite ?Hcfg, ?Hp);
    rewrite ?Hout, ?Hpr, ?Htruth; rewrite <- ?app_assoc, ?app_nil_r;
    split; reflexivity.
Qed.

Lemma on_ready_output_witness :
  exists server_list,
    re.getitem (host.config (sample_host full_config (fun _ => false)))
               (lit "server_list") = Some server_list /\
    host.stdout (snd (host.on_ready (sample_host full_config (fun _ => false)))) =
      host.stdout (sample_host full_config (fun _ => false))
      ++ [lit "ParrotBot is ready.";
          [LF] ++ lit "Connected Servers: "
          ++ py.decimal (length (host.servers (sample_host full_config (fun _ => false))))]
      ++ (if py.truth server_list
          then map (fun s => host.server_id s ++ lit " - " ++ host.server_name s)
                   (host.servers (sample_host full_config (fun _ => false)))
          else [])
      ++ [[]] /\
    host.presences (snd (host.on_ready (sample_host full_config (fun _ => false)))) =
      host.presences (sample_host full_config (fun _ => false))
      ++ match re.getitem (host.config (sample_host full_config (fun _ => false)))
                          (lit "presence") with
         | Some name => [name]
         | None => []
         end.
Proof.
  apply (on_ready_output (sample_host full_config (fun _ => false))).
  vm_compute. reflexivity.
Defined.

Example on_ready_sets_an_empty_presence :
  host.presences (snd (host.on_ready (sample_host full_config (fun _ => false))))
  = [py.VStr []].
Proof. vm_compute. reflexivity. Qed.

(** ** Dictionaries and steps of programs *)

Lemma str_eqb_eq a : forall b, str_eqb a b = true <-> a = b.
Proof.
  induction a as [|x a IH]; intros [|y b]; cbn [str_eqb]; split; try congruence.
  - intros H. apply andb_prop in H as [Hxy H]. apply Ascii.eqb_eq in Hxy.
    apply IH in H. congruence.
  - intros [= -> ->]. rewrite Ascii.eqb_refl. now apply IH.
Qed.

Lemma str_eqb_refl a : str_eqb a a = true.
Proof. now apply str_eqb_eq. Qed.

Lemma str_eqb_sym a b : str_eqb a b = str_eqb b a.
Proof.
  destruct (str_eqb a b) eqn:H.
  - apply str_eqb_eq in H as ->. now rewrite str_eqb_refl.
  - destruct (str_eqb b a) eqn:H'; [|reflexivity].
    apply str_eqb_eq in H' as ->. now rewrite str_eqb_refl in H.
Qed.

Lemma getitem_setitem d key v : forall k,
  re.getitem (py.setitem d key v) k =
  if str_eqb key k then Some v else re.getitem d k.
Proof.
  induction d as [|[k0 v0] d IH]; intros k.
  - cbn [py.setitem re.getitem]. reflexivity.
  - cbn [py.setitem]. destruct (str_eqb k0 key) eqn:E.
    + apply str_eqb_eq in E as ->. cbn [re.getitem].
      now destruct (str_eqb key k).
    + cbn [re.getitem]. rewrite IH. destruct (str_eqb k0 k) eqn:E'; [|reflexivity].
      apply str_eqb_eq in E' as ->. now rewrite str_eqb_sym, E.
Qed.

Lemma contains_setitem d key v k :
  py.contains (py.setitem d key v) k = (str_eqb key k || py.contains d k)%bool.
Proof.
  unfold py.contains. rewrite getitem_setitem. now destruct (str_eqb key k).
Qed.

Lemma contains_getitem d k :
  py.contains d k = true <-> exists v, re.getitem d k = Some v.
Proof.
  unfold py.contains. destruct (re.getitem d k) as [v|]; split;
    try congruence; eauto. intros [v H]. discriminate H.
Qed.

Lemma bind_inv {S A B} (m : py.prog S A) (f : A -> py.prog S B) s r s2 :
  py.bind m f s = (r, s2) ->
  (exists e, m s = (py.Throw e, s2) /\ r = py.Throw e) \/
  (exists a s1, m s = (py.Return a, s1) /\ f a s1 = (r, s2)).
Proof.
  unfold py.bind. destruct (m s) as [[a|e] s1].
  - intros H. right. eauto.
  - intros [= <- <-]. left. eauto.
Qed.

Lemma no_dump_refl c : no_dump_between c c.
Proof. exists []. now rewrite app_nil_r. Qed.

Lemma no_dump_trans c1 c2 c3 :
  no_dump_between c1 c2 -> no_dump_between c2 c3 -> no_dump_between c1 c3.
Proof.
  intros (n1 & E1 & F1) (n2 & E2 & F2). exists (n1 ++ n2).
  rewrite E2, E1, <- app_assoc. split; [reflexivity|].
  now rewrite filter_app, F1, F2.
Qed.

Lemma quiet_ret {A} (a : A) : quiet (py.ret a).
Proof.
  intros c r c' [= <- <-]. split; [apply no_dump_refl|discriminate].
Qed.

Lemma quiet_bind {A B} (m : py.prog script.Console A) (f : A -> py.prog script.Console B) :
  quiet m -> (forall a, quiet (f a)) -> quiet (py.bind m f).
Proof.
  intros Hm Hf c r c' H.
  apply bind_inv in H as [(e & H & ->)|(a & c1 & H1 & H2)].
  - destruct (Hm _ _ _ H) as [Hn He]. split; [exact Hn|].
    intros e' [= <-]. now apply He.
  - destruct (Hm _ _ _ H1) as [Hn1 _]. destruct (Hf a _ _ _ H2) as [Hn2 He].
    split; [now apply (no_dump_trans _ c1)|exact He].
Qed.

Lemma quiet_print s : quiet (script.print s).
Proof.
  intros c r c' [= <- <-]. split; [|discriminate].
  exists [script.Print s]. now split.
Qed.

Lemma quiet_input prompt : quiet (script.input prompt).
Proof.
  intros c r c'. unfold script.input.
  destruct (script.stdin c) as [|line rest]; intros [= <- <-]; split;
    try (exists [script.Input prompt]; now split).
  - now intros e [= <-].
  - discriminate.
Qed.

Lemma ask_until_valid_run bad : forall good rest done,
  Forall (fun a => py.is_in (py.lower a) script.answers = false) bad ->
  py.is_in (py.lower good) script.answers = true ->
  script.ask_until_valid (bad ++ good :: rest) done =
  (py.Return good,
   {| script.stdin := rest;
      script.events := done ++ script.turned_down bad
                       ++ [script.Input script.server_list_prompt] |}).
Proof.
  induction bad as [|a bad IH]; intros good rest done Hbad Hgood.
  - cbn [app script.ask_until_valid script.turned_down flat_map]. now rewrite Hgood.
  - apply Forall_cons_iff in Hbad as [Ha Hbad].
    cbn [app script.ask_until_valid]. rewrite Ha. cbn [negb].
    rewrite (IH good rest _ Hbad Hgood). cbn [script.turned_down flat_map].
    now rewrite <- !app_assoc.
Qed.

Lemma ask_until_valid_inv lines : forall done r c',
  script.ask_until_valid lines done = (r, c') ->
  exists bad,
    Forall (fun a => py.is_in (py.lower a) script.answers = false) bad /\
    script.events c' = done ++ script.turned_down bad
                       ++ [script.Input script.server_list_prompt] /\
    match r with
    | py.Return good =>
        lines = bad ++ good :: script.stdin c' /\
        py.is_in (py.lower good) script.answers = true
    | py.Throw e => e = py.EOFError /\ lines = bad
    end.
Proof.
  induction lines as [|a lines IH]; intros done r c'; cbn [script.ask_until_valid].
  - intros [= <- <-]. exists []. repeat split; auto.
  - destruct (py.is_in (py.lower a) script.answers) eqn:Ha; cbn [negb].
    + intros [= <- <-]. exists []. repeat split; auto.
    + intros H. apply IH in H as (bad & Hbad & Hev & Hr).
      exists (a :: bad). split; [now constructor|]. split.
      * rewrite Hev. cbn [script.turned_down flat_map]. now rewrite <- !app_assoc.
      * destruct r as [good|e].
        -- destruct Hr as [-> Hg]. now split.
        -- destruct Hr as [-> ->]. now split.
Qed.

Lemma turned_down_no_dump bad : filter script.is_dump (script.turned_down bad) = [].
Proof. induction bad as [|a bad IH]; [reflexivity|exact IH]. Qed.

(** ** The steps of the start-up script *)

Lemma is_in_missing d0 key ks :
  py.is_in key ks = true -> py.contains d0 key = false ->
  existsb (fun k => negb (py.contains d0 k)) ks = true.
Proof.
  unfold py.is_in. intros Hin Hd. apply existsb_exists in Hin as (k & Hk & E).
  apply str_eqb_eq in E as <-. apply existsb_exists. exists key.
  split; [exact Hk|]. now rewrite Hd.
Qed.

(** A step that gives [key] a value when the key is missing, and raises the
    flag then, takes the script from the keys [ks] to the keys [key :: ks]. *)
Lemma script_inv_step d0 nu0 ks key cfg nu v' :
  script_inv d0 nu0 ks (cfg, nu) ->
  (py.contains cfg key = true /\ v' = (cfg, nu)) \/
  (py.contains cfg key = false /\ exists x, v' = (py.setitem cfg key x, true)) ->
  script_inv d0 nu0 (key :: ks) v'.
Proof.
  intros (Hc & He & Hn) [[Hk ->]|[Hk [x ->]]]; cbn [fst snd] in *;
    pose proof (Hc key) as Hckey; rewrite Hk in Hckey.
  - repeat split; cbn [fst snd].
    + intros k. rewrite Hc. cbn [py.is_in existsb].
      destruct (str_eqb k key) eqn:E; [|reflexivity].
      apply str_eqb_eq in E as ->. now rewrite <- Hckey.
    + exact He.
    + rewrite Hn. cbn [existsb].
      destruct (py.contains d0 key) eqn:Hd; [reflexivity|]. cbn [negb orb].
      rewrite orb_false_r in Hckey.
      rewrite (is_in_missing d0 key ks); auto.
  - symmetry in Hckey. apply orb_false_elim in Hckey as [_ Hd].
    repeat split; cbn [fst snd].
    + intros k. rewrite contains_setitem, Hc. cbn [py.is_in existsb].
      rewrite (str_eqb_sym key k). now rewrite orb_assoc.
    + intros k y Hy. rewrite getitem_setitem.
      destruct (str_eqb key k) eqn:E; [|now apply He].
      apply str_eqb_eq in E as <-. apply He in Hy.
      unfold py.contains in Hk. now rewrite Hy in Hk.
    + cbn [existsb]. rewrite Hd. cbn [negb orb]. now rewrite orb_true_r.
Qed.

Lemma ask_if_missing_cases key prompt cfg nu c v' c' :
  script.ask_if_missing key prompt (cfg, nu) c = (py.Return v', c') ->
  (py.contains cfg key = true /\ v' = (cfg, nu) /\ c' = c) \/
  (py.contains cfg key = false /\
   exists answer,
     script.stdin c = answer :: script.stdin c' /\
     script.events c' = script.events c ++ [script.Input prompt] /\
     v' = (py.setitem cfg key (py.VStr answer), true)).
Proof.
  unfold script.ask_if_missing. destruct (py.contains cfg key); cbn [negb].
  - intros [= <- <-]. now left.
  - unfold py.bind, script.input.
    destruct (script.stdin c) as [|line rest] eqn:Hin; [discriminate|].
    intros [= <- <-]. right. split; [reflexivity|]. exists line. now repeat split.
Qed.

Lemma ask_server_list_cases cfg nu c v' c' :
  script.ask_server_list (cfg, nu) c = (py.Return v', c') ->
  (py.contains cfg (lit "server_list") = true /\ v' = (cfg, nu) /\ c' = c) \/
  (py.contains cfg (lit "server_list") = false /\
   exists bad good,
     Forall (fun a => py.is_in (py.lower a) script.answers = false) bad /\
     py.is_in (py.lower good) script.answers = true /\
     script.stdin c = bad ++ good :: script.stdin c' /\
     script.events c' = script.events c ++ script.turned_down bad
                        ++ [script.Input script.server_list_prompt] /\
     v' = (py.setitem cfg (lit "server_list")
             (py.VBool (py.is_in (py.lower good) script.yes_answers)), true)).
Proof.
  unfold script.ask_server_list.
  destruct (py.contains cfg (lit "server_list")); cbn [negb].
  - intros [= <- <-]. now left.
  - unfold py.bind.
    destruct (script.ask_until_valid (script.stdin c) (script.events c))
      as [[good|e] c1] eqn:Hask; [|discriminate].
    apply ask_until_valid_inv in Hask as (bad & Hbad & Hev & Hlines & Hgood).
    intros H. right. split; [reflexivity|]. exists bad, good.
    destruct (py.is_in (py.lower good) script.yes_answers);
      injection H as <- <-; now repeat split.
Qed.

Lemma quiet_read_config config_json : quiet (script.read_config config_json).
Proof.
  destruct config_json as [d|]; cbn [script.read_config].
  - apply quiet_ret.
  - apply quiet_bind; [apply quiet_print|intros; apply quiet_ret].
Qed.

Lemma quiet_read_token_txt token_txt v : quiet (script.read_token_txt token_txt v).
Proof.
  destruct v as [cfg nu], token_txt as [t|]; cbn [script.read_token_txt].
  - apply quiet_bind; [apply quiet_print|]. intros _.
    destruct (negb (py.contains cfg (lit "discord-token"))); apply quiet_ret.
  - apply quiet_ret.
Qed.

Lemma quiet_ask_if_missing key prompt v : quiet (script.ask_if_missing key prompt v).
Proof.
  destruct v as [cfg nu]. unfold script.ask_if_missing.
  destruct (negb (py.contains cfg key)); [|apply quiet_ret].
  apply quiet_bind; [apply quiet_input|intros; apply quiet_ret].
Qed.

Lemma quiet_ask_server_list v : quiet (script.ask_server_list v).
Proof.
  destruct v as [cfg nu]. unfold script.ask_server_list.
  destruct (negb (py.contains cfg (lit "server_list"))); [|apply quiet_ret].
  apply quiet_bind.
  - intros c r c' H. apply ask_until_valid_inv in H as (bad & _ & Hev & Hr).
    split.
    + eexists. split; [exact Hev|].
      now rewrite filter_app, turned_down_no_dump.
    + intros e ->. now destruct Hr.
  - intros a. destruct (py.is_in (py.lower a) script.yes_answers); apply quiet_ret.
Qed.

Lemma read_token_txt_cases token_txt cfg nu c v' c' :
  script.read_token_txt token_txt (cfg, nu) c = (py.Return v', c') ->
  v' = (cfg, nu) \/
  (py.contains cfg (lit "discord-token") = false /\
   exists x, v' = (py.setitem cfg (lit "discord-token") x, true)).
Proof.
  destruct token_txt as [t|]; cbn [script.read_token_txt].
  - unfold py.bind, script.print, script.emit.
    destruct (py.contains cfg (lit "discord-token")); cbn [negb];
      intros [= <- <-]; [now left|right]. split; [reflexivity|]. now eexists.
  - intros [= <- <-]. now left.
Qed.

(** The script up to the point where it may write the file: what it has
    made of the loaded dictionary, and that it wrote nothing so far. *)
Lemma setup_run config_json token_txt c r c' :
  script.setup config_json token_txt c = (r, c') ->
  let d0 := match config_json with Some d => d | None => [] end in
  let nu0 := match config_json with Some _ => false | None => true end in
  (exists e, r = py.Throw e /\ e = py.EOFError /\ no_dump_between c c') \/
  (exists v c1 ks,
     no_dump_between c c1 /\
     script_inv d0 nu0 ks v /\
     (forall k, In k script.required_keys -> In k ks) /\
     (forall k, In k ks -> In k script.required_keys) /\
     script.write_config v c1 = (r, c')).
Proof.
  intros H d0 nu0. unfold script.setup in H.
  assert (Hthrow : forall (A : Type) (m : py.prog script.Console A) ca e cb,
             quiet m -> no_dump_between c ca -> m ca = (py.Throw e, cb) ->
             e = py.EOFError /\ no_dump_between c cb).
  { intros A m ca e cb Hq Hn Hm. destruct (Hq _ _ _ Hm) as [Hn' He].
    split; [now apply He|now apply (no_dump_trans _ ca)]. }
  assert (Hstep : forall (A : Type) (m : py.prog script.Console A) ca a cb,
             quiet m -> no_dump_between c ca -> m ca = (py.Return a, cb) ->
             no_dump_between c cb).
  { intros A m ca a cb Hq Hn Hm. destruct (Hq _ _ _ Hm) as [Hn' _].
    now apply (no_dump_trans _ ca). }
  apply bind_inv in H as [(e & H & ->)|([] & c0 & H0 & H)].
  { left. exists e. split; [reflexivity|].
    apply (Hthrow _ _ _ _ _ (quiet_print _) (no_dump_refl c) H). }
  pose proof (Hstep _ _ _ _ _ (quiet_print _) (no_dump_refl c) H0) as N0.
  apply bind_inv in H as [(e & H & ->)|(v1 & c1 & H1 & H)].
  { left. exists e. split; [reflexivity|].
    apply (Hthrow _ _ _ _ _ (quiet_read_config _) N0 H). }
  pose proof (Hstep _ _ _ _ _ (quiet_read_config _) N0 H1) as N1.
  assert (I1 : script_inv d0 nu0 [] v1).
  { subst d0 nu0. destruct config_json as [d|]; cbn [script.read_config] in H1.
    - injection H1 as <- _. now repeat split.
    - unfold py.bind, script.print, script.emit in H1. injection H1 as <- _.
      now repeat split. }
  apply bind_inv in H as [(e & H & ->)|(v2 & c2 & H2 & H)].
  { left. exists e. split; [reflexivity|].
    apply (Hthrow _ _ _ _ _ (quiet_read_token_txt _ _) N1 H). }
  pose proof (Hstep _ _ _ _ _ (quiet_read_token_txt _ _) N1 H2) as N2.
  apply bind_inv in H as [(e & H & ->)|(v3 & c3 & H3 & H)].
  { left. exists e. split; [reflexivity|].
    apply (Hthrow _ _ _ _ _ (quiet_ask_if_missing _ _ _) N2 H). }
  pose proof (Hstep _ _ _ _ _ (quiet_ask_if_missing _ _ _) N2 H3) as N3.
  apply bind_inv in H as [(e & H & ->)|(v4 & c4 & H4 & H)].
  { left. exists e. split; [reflexivity|].
    apply (Hthrow _ _ _ _ _ (quiet_ask_if_missing _ _ _) N3 H). }
  pose proof (Hstep _ _ _ _ _ (quiet_ask_if_missing _ _ _) N3 H4) as N4.
  apply bind_inv in H as [(e & H & ->)|(v5 & c5 & H5 & H)].
  { left. exists e. split; [reflexivity|].
    apply (Hthrow _ _ _ _ _ (quiet_ask_if_missing _ _ _) N4 H). }
  pose proof (Hstep _ _ _ _ _ (quiet_ask_if_missing _ _ _) N4 H5) as N5.
  apply bind_inv in H as [(e & H & ->)|(v6 & c6 & H6 & H)].
  { left. exists e. split; [reflexivity|].
    apply (Hthrow _ _ _ _ _ (quiet_ask_if_missing _ _ _) N5 H). }
  pose proof (Hstep _ _ _ _ _ (quiet_ask_if_missing _ _ _) N5 H6) as N6.
  apply bind_inv in H as [(e & H & ->)|(v7 & c7 & H7 & H)].
  { left. exists e. split; [reflexivity|].
    apply (Hthrow _ _ _ _ _ (quiet_ask_server_list _) N6 H). }
  pose proof (Hstep _ _ _ _ _ (quiet_ask_server_list _) N6 H7) as N7.
  right.
  destruct v1 as [g1 n1], v2 as [g2 n2], v3 as [g3 n3], v4 as [g4 n4],
           v5 as [g5 n5], v6 as [g6 n6].
  assert (I2 : exists ks, script_inv d0 nu0 ks (g2, n2) /\
                          (forall k, In k ks -> k = lit "discord-token")).
  { apply read_token_txt_cases in H2 as [[= -> ->]|[Hk Hx]].
    - exists []. split; [exact I1|]. intros k [].
    - exists [lit "discord-token"]. split.
      + apply (script_inv_step _ _ _ _ _ _ _ I1). now right.
      + intros k [<-|[]]. reflexivity. }
  destruct I2 as (ks2 & I2 & Hks2).
  assert (I3 : script_inv d0 nu0 (lit "discord-token" :: ks2) (g3, n3)).
  { apply (script_inv_step _ _ _ _ _ _ _ I2).
    apply ask_if_missing_cases in H3 as [(Hk & E & _)|(Hk & a & _ & _ & E)];
      [left|right]; split; eauto. }
  assert (I4 : script_inv d0 nu0 (lit "discordbots_org_token" :: lit "discord-token" :: ks2)
                 (g4, n4)).
  { apply (script_inv_step _ _ _ _ _ _ _ I3).
    apply ask_if_missing_cases in H4 as [(Hk & E & _)|(Hk & a & _ & _ & E)];
      [left|right]; split; eauto. }
  assert (I5 : script_inv d0 nu0
                 (lit "bots_discord_pw_token" :: lit "discordbots_org_token"
                  :: lit "discord-token" :: ks2) (g5, n5)).
  { apply (script_inv_step _ _ _ _ _ _ _ I4).
    apply ask_if_missing_cases in H5 as [(Hk & E & _)|(Hk & a & _ & _ & E)];
      [left|right]; split; eauto. }
  assert (I6 : script_inv d0 nu0
                 (lit "presence" :: lit "bots_discord_pw_token"
                  :: lit "discordbots_org_token" :: lit "discord-token" :: ks2)
                 (g6, n6)).
  { apply (script_inv_step _ _ _ _ _ _ _ I5).
    apply ask_if_missing_cases in H6 as [(Hk & E & _)|(Hk & a & _ & _ & E)];
      [left|right]; split; eauto. }
  assert (I7 : script_inv d0 nu0
                 (lit "server_list" :: lit "presence" :: lit "bots_discord_pw_token"
                  :: lit "discordbots_org_token" :: lit "discord-token" :: ks2) v7).
  { apply (script_inv_step _ _ _ _ _ _ _ I6).
    apply ask_server_list_cases in H7
      as [(Hk & E & _)|(Hk & bad & good & _ & _ & _ & _ & E)];
      [left|right]; split; eauto. }
  exists v7, c7. eexists. split; [exact N7|]. split; [exact I7|].
  split; [|split; [|exact H]].
  - intros k Hk. cbn [script.required_keys In] in Hk. cbn [In]. tauto.
  - intros k Hk. cbn [In] in Hk.
    repeat (destruct Hk as [<-|Hk]; [simpl; tauto|]).
    apply Hks2 in Hk. subst k. simpl. tauto.
Qed.

Lemma In_is_in k ks : In k ks -> py.is_in k ks = true.
Proof.
  intros H. unfold py.is_in. apply existsb_exists. exists k.
  split; [exact H|apply str_eqb_refl].
Qed.

Lemma write_config_cases v c1 r c' :
  script.write_config v c1 = (r, c') ->
  r = py.Return (fst v) /\
  ((snd v = false /\ c' = c1) \/
   (snd v = true /\ script.stdin c' = script.stdin c1 /\
    script.events c' =
      script.events c1 ++ [script.Dump (fst v);
                           script.Print (lit "Configuration file updated.")])).
Proof.
  destruct v as [cfg [|]]; cbn [script.write_config fst snd].
  - unfold py.bind, script.print, script.emit, py.ret. intros [= <- <-].
    split; [reflexivity|]. right. cbn [script.stdin script.events].
    rewrite <- app_assoc. now repeat split.
  - intros [= <- <-]. split; [reflexivity|]. now left.
Qed.

Lemma missing_iff_incomplete d ks :
  (forall k, In k script.required_keys -> In k ks) ->
  (forall k, In k ks -> In k script.required_keys) ->
  existsb (fun k => negb (py.contains d k)) ks =
  negb (forallb (py.contains d) script.required_keys).
Proof.
  intros H1 H2.
  destruct (forallb (py.contains d) script.required_keys) eqn:Hall; cbn [negb].
  - destruct (existsb _ ks) eqn:Hex; [|reflexivity].
    apply existsb_exists in Hex as (k & Hk & Hm).
    rewrite forallb_forall in Hall. rewrite (Hall k (H2 k Hk)) in Hm. discriminate Hm.
  - apply existsb_exists.
    assert (Hn : ~ (forall k, In k script.required_keys -> py.contains d k = true)).
    { intros Hf. apply forallb_forall in Hf. congruence. }
    destruct (existsb (fun k => negb (py.contains d k)) script.required_keys) eqn:Hex.
    + apply existsb_exists in Hex as (k & Hk & Hm). exists k. split; auto.
    + exfalso. apply Hn. intros k Hk.
      destruct (py.contains d k) eqn:Hc; [reflexivity|exfalso].
      assert (Ht : existsb (fun k => negb (py.contains d k)) script.required_keys = true).
      { apply existsb_exists. exists k. split; [exact Hk|]. now rewrite Hc. }
      congruence.
Qed.

(** ** The start-up script *)

(** X22.  When the script gets past its questions, the configuration it
    goes on with has all five keys: the three tokens, [presence] and
    [server_list]. *)
Theorem setup_config_is_complete config_json token_txt c config c' :
  script.setup config_json token_txt c = (py.Return config, c') ->
  Forall (fun key => py.contains config key = true) script.required_keys.
Proof.
  intros H. apply setup_run in H as [(e & H & _)|(v & c1 & ks & _ & I & Hks & _ & Hw)];
    [discriminate H|].
  apply write_config_cases in Hw as [[= ->] _].
  destruct I as (Hc & _ & _). apply Forall_forall. intros k Hk.
  rewrite Hc, (In_is_in _ _ (Hks k Hk)). reflexivity.
Qed.

Lemma setup_config_is_complete_witness :
  Forall (fun key =>
            py.contains
              [(lit "discord-token", py.VStr (lit "abc"));
               (lit "discordbots_org_token", py.VStr []);
               (lit "bots_discord_pw_token", py.VStr []);
               (lit "presence", py.VStr (lit "with parrots"));
               (lit "server_list", py.VBool true)] key = true)
         script.required_keys.
Proof.
  apply (setup_config_is_complete None (Some (lit "abc" ++ [LF]))
           (console [[]; []; lit "with parrots"; lit "maybe"; lit "YES"])
           _ (snd (script.setup None (Some (lit "abc" ++ [LF]))
                     (console [[]; []; lit "with parrots"; lit "maybe"; lit "YES"])))).
  vm_compute. reflexivity.
Defined.

(** X23.  The script never changes a setting it has loaded: every key of
    the configuration file keeps its value, the token included when
    [token.txt] is there as well. *)
Theorem setup_keeps_loaded_settings loaded token_txt c config c' key value :
  script.setup (Some loaded) token_txt c = (py.Return config, c') ->
  re.getitem loaded key = Some value ->
  re.getitem config key = Some value.
Proof.
  intros H Hk.
  apply setup_run in H as [(e & H & _)|(v & c1 & ks & _ & I & _ & _ & Hw)];
    [discriminate H|].
  apply write_config_cases in Hw as [[= ->] _].
  destruct I as (_ & He & _). now apply He.
Qed.

Lemma setup_keeps_loaded_settings_witness :
  re.getitem
    [(lit "discord-token", py.VStr (lit "old"));
     (lit "discordbots_org_token", py.VStr []);
     (lit "bots_discord_pw_token", py.VStr []);
     (lit "presence", py.VStr []);
     (lit "server_list", py.VBool true)]
    (lit "discord-token") = Some (py.VStr (lit "old")).
Proof.
  apply (setup_keeps_loaded_settings
           [(lit "discord-token", py.VStr (lit "old"))] (Some (lit "new"))
           (console [[]; []; []; []]) _
           (snd (script.setup (Some [(lit "discord-token", py.VStr (lit "old"))])
                   (Some (lit "new")) (console [[]; []; []; []])))).
  - vm_compute. reflexivity.
  - reflexivity.
Defined.

(** X24.  The script rewrites the configuration file exactly when the file
    was missing or lacked one of the five keys; it writes it once, and what
    it writes is the configuration it goes on with. *)
Theorem setup_writes_iff_incomplete config_json token_txt c config c' :
  script.setup config_json token_txt c = (py.Return config, c') ->
  exists new,
    script.events c' = script.events c ++ new /\
    filter script.is_dump new =
    if script.complete config_json then [] else [script.Dump config].
Proof.
  intros H.
  apply setup_run in H as [(e & H & _)|(v & c1 & ks & N & I & Hks1 & Hks2 & Hw)];
    [discriminate H|].
  destruct N as (new & Hev & Hnd). destruct I as (_ & _ & Hn).
  assert (Hflag : snd v = negb (script.complete config_json)).
  { rewrite Hn. destruct config_json as [d|]; cbn [script.complete orb negb].
    - now apply missing_iff_incomplete.
    - reflexivity. }
  apply write_config_cases in Hw as [[= ->] [[Hf ->]|(Hf & _ & Hev')]];
    rewrite Hflag in Hf.
  - exists new. split; [exact Hev|]. apply negb_false_iff in Hf. now rewrite Hf.
  - exists (new ++ [script.Dump (fst v);
                    script.Print (lit "Configuration file updated.")]).
    split; [rewrite Hev', Hev; now rewrite app_assoc|].
    apply negb_true_iff in Hf. rewrite Hf, filter_app, Hnd. reflexivity.
Qed.

Lemma setup_writes_iff_incomplete_witness :
  exists new,
    script.events (snd (script.setup (Some full_config) None (console []))) =
      script.events (console []) ++ new /\
    filter script.is_dump new =
    if script.complete (Some full_config) then [] else [script.Dump full_config].
Proof.
  apply (setup_writes_iff_incomplete (Some full_config) None (console []) full_config
           (snd (script.setup (Some full_config) None (console [])))).
  vm_compute. reflexivity.
Defined.

(** X25.  When the script stops at one of its questions because the input
    has ended ([input] raises [EOFError]), nothing has been written: the
    answers given so far are lost and the configuration file is as it was. *)
Theorem setup_interrupted_writes_nothing config_json token_txt c c' :
  script.setup config_json token_txt c = (py.Throw py.EOFError, c') ->
  exists new,
    script.events c' = script.events c ++ new /\
    filter script.is_dump new = [].
Proof.
  intros H.
  apply setup_run in H as [(e' & _ & _ & N)|(v & c1 & ks & _ & _ & _ & _ & Hw)].
  - exact N.
  - apply write_config_cases in Hw as [Hr _]. discriminate Hr.
Qed.

Lemma setup_interrupted_writes_nothing_witness :
  exists new,
    script.events (snd (script.setup None None (console [lit "abc"; []]))) =
      script.events (console [lit "abc"; []]) ++ new /\
    filter script.is_dump new = [].
Proof.
  apply (setup_interrupted_writes_nothing None None (console [lit "abc"; []])
           (snd (script.setup None None (console [lit "abc"; []])))).
  vm_compute. reflexivity.
Defined.

(** X26.  With a configuration file that has the five keys the script asks
    nothing and reads no input: it prints its notice, and the one about
    [token.txt] if that file is there, and goes on with the configuration as
    loaded. *)
Theorem complete_config_asks_nothing loaded token_txt c :
  script.complete (Some loaded) = true ->
  script.setup (Some loaded) token_txt c =
  (py.Return loaded,
   {| script.stdin := script.stdin c;
      script.events :=
        script.events c
        ++ [script.Print script.gpl_notice]
        ++ match token_txt with
           | Some _ => [script.Print script.token_txt_notice]
           | None => []
           end |}).
Proof.
  cbn [script.complete script.required_keys forallb]. intros H.
  repeat (apply andb_prop in H as [? H]).
  repeat match goal with
         | E : py.contains loaded ?k = true |- _ => revert E
         end.
  intros K1 K2 K3 K4 K5.
  unfold script.setup, py.bind, script.print, script.emit, script.read_config,
    script.read_token_txt, script.ask_if_missing, script.ask_server_list,
    script.write_config, py.ret.
  destruct token_txt as [t|];
    repeat (progress (unfold py.bind, script.print, script.emit, py.ret;
                      cbv beta iota; cbn [negb script.stdin script.events];
                      rewrite ?K1, ?K2, ?K3, ?K4, ?K5));
    rewrite <- ?app_assoc, ?app_nil_r; reflexivity.
Qed.

Lemma complete_config_asks_nothing_witness :
  script.setup (Some full_config) None (console [lit "unread"]) =
  (py.Return full_config,
   {| script.stdin := [lit "unread"];
      script.events := [] ++ [script.Print script.gpl_notice] ++ [] |}).
Proof.
  apply (complete_config_asks_nothing full_config None (console [lit "unread"])).
  vm_compute. reflexivity.
Defined.

(** X27.  The question about the server list is asked again after every
    answer that is not [y], [yes], [n], [no] or empty in some letter case,
    with a reminder each time; the first answer that is one of them sets
    [server_list] to [True] for [y], [yes] and the empty answer and to
    [False] otherwise, and marks the file for rewriting. *)
Theorem server_list_question cfg nu c bad good rest :
  py.contains cfg (lit "server_list") = false ->
  script.stdin c = bad ++ good :: rest ->
  Forall (fun a => py.is_in (py.lower a) script.answers = false) bad ->
  py.is_in (py.lower good) script.answers = true ->
  script.ask_server_list (cfg, nu) c =
  (py.Return
     (py.setitem cfg (lit "server_list")
        (py.VBool (py.is_in (py.lower good) [lit "y"; lit "yes"; []])), true),
   {| script.stdin := rest;
      script.events :=
        script.events c
        ++ flat_map (fun _ => [script.Input script.server_list_prompt;
                               script.Print script.yes_or_no_please]) bad
        ++ [script.Input script.server_list_prompt] |}).
Proof.
  intros Hk Hin Hbad Hgood. unfold script.ask_server_list.
  rewrite Hk. cbn [negb]. unfold py.bind. rewrite Hin.
  rewrite (ask_until_valid_run bad good rest _ Hbad Hgood).
  fold script.yes_answers. fold (script.turned_down bad).
  now destruct (py.is_in (py.lower good) script.yes_answers).
Qed.

Lemma server_list_question_witness :
  script.ask_server_list ([], false) (console [lit "maybe"; lit "YES"; lit "left"]) =
  (py.Return
     (py.setitem [] (lit "server_list")
        (py.VBool (py.is_in (py.lower (lit "YES")) [lit "y"; lit "yes"; []])), true),
   {| script.stdin := [lit "left"];
      script.events :=
        script.events (console [lit "maybe"; lit "YES"; lit "left"])
        ++ flat_map (fun _ => [script.Input script.server_list_prompt;
                               script.Print script.yes_or_no_please]) [lit "maybe"]
        ++ [script.Input script.server_list_prompt] |}).
Proof.
  apply (server_list_question [] false (console [lit "maybe"; lit "YES"; lit "left"])
           [lit "maybe"] (lit "YES") [lit "left"]).
  - reflexivity.
  - reflexivity.
  - repeat constructor.
  - reflexivity.
Defined.

Lemma lstrip_split s :
  exists w, s = w ++ script.lstrip s /\ all_space w = true /\
            starts_with_space (script.lstrip s) = false.
Proof.
  induction s as [|x s IH].
  - now exists [].
  - cbn [script.lstrip]. destruct (is_space x) eqn:Hx.
    + destruct IH as (w & E & Hw & Hs). exists (x :: w). repeat split; auto.
      * cbn [app]. now rewrite <- E.
      * unfold all_space in *. cbn [forallb]. now rewrite Hx.
    + exists []. repeat split. exact Hx.
Qed.

Lemma rstrip_spec s :
  exists w, s = script.rstrip s ++ w /\ all_space w = true /\
            ends_with_space (script.rstrip s) = false.
Proof.
  destruct (lstrip_split (rev s)) as (w & E & Hw & Hs).
  exists (rev w). repeat split.
  - unfold script.rstrip. rewrite <- rev_app_distr, <- E. now rewrite rev_involutive.
  - unfold all_space in *. rewrite forallb_forall in *. intros x Hx.
    apply Hw. now apply in_rev.
  - unfold ends_with_space, script.rstrip. rewrite rev_involutive. exact Hs.
Qed.

Lemma first_line_spec s :
  exists l rest,
    ~ In LF l /\ s = script.first_line s ++ rest /\
    ((script.first_line s = l /\ rest = []) \/ script.first_line s = l ++ [LF]).
Proof.
  induction s as [|x s IH].
  - exists [], []. repeat split; auto.
  - cbn [script.first_line]. destruct (Ascii.eqb x LF) eqn:Hx.
    + apply Ascii.eqb_eq in Hx as ->. exists [], s. repeat split; auto.
    + destruct IH as (l & rest & Hl & E & Hs). exists (x :: l), rest.
      repeat split.
      * intros [->|H]; [now rewrite Ascii.eqb_refl in Hx|auto].
      * cbn [app]. now rewrite <- E.
      * destruct Hs as [[-> ->] | ->]; [now left|now right].
Qed.

(** X28.  With [token.txt] there and no token in the configuration, the
    token becomes the first line of the file without its trailing white
    space.  With the line ends of the file translated, its text is [line]
    followed by [rest], where [line] is the first line: the characters up to
    and with the first line feed, or the whole text when it has none; and
    [line] is the token followed by white space only, the token not ending
    in white space.  The file is marked for rewriting and the notice is
    printed.  No question is asked. *)
Theorem token_txt_is_taken_over contents cfg nu c :
  py.contains cfg (lit "discord-token") = false ->
  exists token blank line rest,
    script.read_token_txt (Some contents) (cfg, nu) c =
      (py.Return (py.setitem cfg (lit "discord-token") (py.VStr token), true),
       {| script.stdin := script.stdin c;
          script.events := script.events c ++ [script.Print script.token_txt_notice] |}) /\
    script.universal_newlines false contents = line ++ rest /\
    (exists l, ~ In LF l /\ ((line = l /\ rest = []) \/ line = l ++ [LF])) /\
    line = token ++ blank /\
    all_space blank = true /\
    ends_with_space token = false.
Proof.
  intros Hk.
  destruct (rstrip_spec (script.readline contents)) as (w & E & Hw & Hend).
  destruct (first_line_spec (script.universal_newlines false contents))
    as (l & rest & Hl & Hrest & Hs).
  exists (script.rstrip (script.readline contents)), w,
    (script.readline contents), rest.
  split; [|split; [|split; [|split; [|split]]]].
  - cbn [script.read_token_txt].
    unfold py.bind, script.print, script.emit. now rewrite Hk.
  - exact Hrest.
  - exists l. split; [exact Hl|exact Hs].
  - exact E.
  - exact Hw.
  - exact Hend.
Qed.

Lemma token_txt_is_taken_over_witness :
  exists token blank line rest,
    script.read_token_txt (Some (lit "abc  " ++ [script.CR; LF] ++ lit "more"))
      ([], false) (console []) =
      (py.Return (py.setitem [] (lit "discord-token") (py.VStr token), true),
       {| script.stdin := script.stdin (console []);
          script.events :=
            script.events (console []) ++ [script.Print script.token_txt_notice] |}) /\
    script.universal_newlines false (lit "abc  " ++ [script.CR; LF] ++ lit "more")
      = line ++ rest /\
    (exists l, ~ In LF l /\ ((line = l /\ rest = []) \/ line = l ++ [LF])) /\
    line = token ++ blank /\
    all_space blank = true /\
    ends_with_space token = false.
Proof.
  apply (token_txt_is_taken_over (lit "abc  " ++ [script.CR; LF] ++ lit "more")
           [] false (console [])).
  reflexivity.
Defined.

Example token_txt_example :
  script.rstrip (script.readline (lit "abc  " ++ [script.CR; LF] ++ lit "more"))
  = lit "abc".
Proof. vm_compute. reflexivity. Qed.

(** ** The sessions *)

Lemma sleep_is_not_defined c :
  script.lookup (lit "sleep") c = (py.Throw (py.NameError (lit "sleep")), c).
Proof. reflexivity. Qed.

Lemma main_loop_cons cfg token s rest c :
  re.getitem cfg (lit "discord-token") = Some token ->
  script.main_loop cfg (s :: rest) c =
  let c2 :=
    {| script.stdin := script.stdin c;
       script.events :=
         (script.events c
          ++ [script.Print (lit "Start bot session with token " ++ py.to_str token)])
         ++ [script.Run token] |} in
  match s with
  | script.Returns => script.main_loop cfg rest c2
  | script.ConnectionReset =>
      (py.Throw (py.NameError (lit "sleep")),
       {| script.stdin := script.stdin c;
          script.events :=
            ((script.events c2
              ++ [script.Print ([LF] ++ lit "--------------------------------------------")])
             ++ [script.Print (lit "Lost Connection. Retrying in 5 seconds ...")])
            ++ [script.Print (lit "--------------------------------------------" ++ [LF])] |})
  | script.Raises => (py.Throw py.Exception, c2)
  end.
Proof.
  intros Htok. cbn [script.main_loop].
  unfold py.bind, script.getitem, script.print, script.emit, py.ret, py.throw.
  rewrite Htok. destruct s; reflexivity.
Qed.

(** X29.  The loop around [client.run] does not survive a lost
    connection: [sleep] is not a name of the module, so after the three
    lines about retrying the script ends with [NameError].  All the script
    has done by then is to announce and start the sessions up to the one
    that lost the connection, and to print the three lines: no session is
    started after it, and no input is read. *)
Theorem lost_connection_ends_the_script cfg token before after c :
  re.getitem cfg (lit "discord-token") = Some token ->
  Forall (fun s => s = script.Returns) before ->
  exists c',
    script.main_loop cfg (before ++ script.ConnectionReset :: after) c =
      (py.Throw (py.NameError (lit "sleep")), c') /\
    script.stdin c' = script.stdin c /\
    script.events c' =
      script.events c
      ++ flat_map (fun _ => [script.Print (lit "Start bot session with token "
                                           ++ py.to_str token);
                             script.Run token])
           (before ++ [script.ConnectionReset])
      ++ [script.Print ([LF] ++ lit "--------------------------------------------");
          script.Print (lit "Lost Connection. Retrying in 5 seconds ...");
          script.Print (lit "--------------------------------------------" ++ [LF])].
Proof.
  intros Htok Hbefore. revert c.
  induction Hbefore as [|s before -> _ IH]; intros c; cbn [app];
    rewrite (main_loop_cons _ _ _ _ _ Htok); cbv zeta.
  - eexists. split; [reflexivity|]. split; [reflexivity|].
    cbn [script.events script.stdin flat_map app].
    rewrite <- !app_assoc. reflexivity.
  - match goal with
    | |- context [script.main_loop _ _ ?c2] =>
        destruct (IH c2) as (c' & Hrun & Hin & Hev)
    end.
    exists c'. split; [exact Hrun|]. split; [exact Hin|]. rewrite Hev.
    cbn [script.events script.stdin flat_map app].
    rewrite <- !app_assoc. reflexivity.
Qed.

Lemma lost_connection_ends_the_script_witness :
  exists c',
    script.main_loop full_config
      ([script.Returns] ++ script.ConnectionReset :: [script.Returns; script.Returns])
      (console []) =
      (py.Throw (py.NameError (lit "sleep")), c') /\
    script.stdin c' = script.stdin (console []) /\
    script.events c' =
      script.events (console [])
      ++ flat_map (fun _ => [script.Print (lit "Start bot session with token "
                                           ++ py.to_str (py.VStr (lit "tok-discord")));
                             script.Run (py.VStr (lit "tok-discord"))])
           ([script.Returns] ++ [script.ConnectionReset])
      ++ [script.Print ([LF] ++ lit "--------------------------------------------");
          script.Print (lit "Lost Connection. Retrying in 5 seconds ...");
          script.Print (lit "--------------------------------------------" ++ [LF])].
Proof.
  apply (lost_connection_ends_the_script full_config (py.VStr (lit "tok-discord"))
           [script.Returns] [script.Returns; script.Returns] (console [])).
  - reflexivity.
  - repeat constructor.
Defined.

(** ** The script and the listeners together *)

Lemma setup_result_keys config_json token_txt c config c' key :
  script.setup config_json token_txt c = (py.Return config, c') ->
  In key script.required_keys ->
  exists v, re.getitem config key = Some v.
Proof.
  intros H Hk.
  apply setup_run in H as [(e & H & _)|(v & c1 & ks & _ & I & Hks & _ & Hw)];
    [discriminate H|].
  apply write_config_cases in Hw as [[= ->] _].
  destruct I as (Hc & _ & _). apply contains_getitem.
  rewrite Hc, (In_is_in _ _ (Hks key Hk)). reflexivity.
Qed.

Lemma post_server_count_with_keys h org pw :
  re.getitem (host.config h) (lit "discordbots_org_token") = Some org ->
  re.getitem (host.config h) (lit "bots_discord_pw_token") = Some pw ->
  fst (host.post_server_count h) = py.Return tt \/
  fst (host.post_server_count h) = py.Throw py.URLError.
Proof. intros Horg Hpw. run_host; auto. Qed.

Lemma on_ready_with_keys h org pw sl pr :
  re.getitem (host.config h) (lit "discordbots_org_token") = Some org ->
  re.getitem (host.config h) (lit "bots_discord_pw_token") = Some pw ->
  re.getitem (host.config h) (lit "server_list") = Some sl ->
  re.getitem (host.config h) (lit "presence") = Some pr ->
  fst (host.on_ready h) = py.Return tt \/
  fst (host.on_ready h) = py.Throw py.URLError.
Proof.
  intros Horg Hpw Hsl Hpr.
  unfold host.on_ready, py.bind, host.get_servers, host.config_getitem,
    host.config_contains, host.print, host.change_presence, py.ret, py.contains.
  host_red. rewrite Hsl.
  destruct (py.truth sl) eqn:Htruth;
    [rewrite print_servers_run|]; host_red;
    match goal with
    | |- context [host.post_server_count ?x] =>
        pose proof (post_server_count_frame x) as (_ & Hcfg & _);
        pose proof (post_server_count_with_keys x org pw Horg Hpw) as Hres;
        destruct (host.post_server_count x) as [[[]|e] h'] eqn:Hpost
    end; cbn [fst snd host.config] in *;
    try (destruct Hres as [Hres|Hres]; [discriminate Hres|right; exact Hres]);
    repeat (host_red; rewrite ?Hcfg, ?Hpr); now left.
Qed.

Lemma main_loop_no_key_error cfg token sessions : forall c key,
  re.getitem cfg (lit "discord-token") = Some token ->
  fst (script.main_loop cfg sessions c) <> py.Throw (py.KeyError key).
Proof.
  induction sessions as [|s sessions IH]; intros c key Htok.
  - discriminate.
  - rewrite (main_loop_cons _ _ _ _ _ Htok). cbv zeta.
    destruct s; [now apply IH|discriminate|discriminate].
Qed.

(** X30.  The configuration the script goes on with never makes the bot
    fail on a missing key: [on_ready] returns or ends with the error of an
    HTTP request, and the loop around [client.run] never ends with
    [KeyError]. *)
Theorem setup_then_no_key_error config_json token_txt c config c' h :
  script.setup config_json token_txt c = (py.Return config, c') ->
  host.config h = config ->
  (fst (host.on_ready h) = py.Return tt \/
   fst (host.on_ready h) = py.Throw py.URLError) /\
  (forall sessions c2 key,
      fst (script.main_loop config sessions c2) <> py.Throw (py.KeyError key)).
Proof.
  intros H <-.
  destruct (setup_result_keys _ _ _ _ _ (lit "discord-token") H) as [tok Htok];
    [simpl; tauto|].
  destruct (setup_result_keys _ _ _ _ _ (lit "discordbots_org_token") H) as [org Horg];
    [simpl; tauto|].
  destruct (setup_result_keys _ _ _ _ _ (lit "bots_discord_pw_token") H) as [pw Hpw];
    [simpl; tauto|].
  destruct (setup_result_keys _ _ _ _ _ (lit "presence") H) as [pr Hpr];
    [simpl; tauto|].
  destruct (setup_result_keys _ _ _ _ _ (lit "server_list") H) as [sl Hsl];
    [simpl; tauto|].
  split.
  - exact (on_ready_with_keys h org pw sl pr Horg Hpw Hsl Hpr).
  - intros sessions c2 key. exact (main_loop_no_key_error _ tok sessions c2 key Htok).
Qed.

Lemma setup_then_no_key_error_witness :
  let h := sample_host full_config (fun _ => false) in
  (fst (host.on_ready h) = py.Return tt \/
   fst (host.on_ready h) = py.Throw py.URLError) /\
  (forall sessions c2 key,
      fst (script.main_loop full_config sessions c2) <> py.Throw (py.KeyError key)).
Proof.
  intros h.
  apply (setup_then_no_key_error (Some full_config) None (console []) full_config
           (snd (script.setup (Some full_config) None (console []))) h).
  - vm_compute. reflexivity.
  - reflexivity.
Defined.
